(** * EEG analysis web app: a shallow embedding of [app.py]

    The application is a Flask front-end around MNE (EDF decoding and FIR
    filtering), SciPy (Welch PSD), NumPy (array arithmetic) and Matplotlib
    (figures).  This file embeds the code of [app.py] itself:

    - [band_power]       the band power integrator,
    - [process_file]     the per-file pipeline,
    - [process_average]  the aggregate (grand-average) pipeline,
    - [upload], [update] the two POST handlers.

    Numbers.  NumPy's float64 values are idealised as exact rationals [Q]:
    rounding, NaN and infinities are not modelled.  One-dimensional arrays
    are lists, two-dimensional arrays carry their column count explicitly
    (a NumPy array of shape (0, n) still knows n).

    Effects.  The handlers read and write files and may abort with an
    unhandled exception after some files were already written.  They are
    embedded in a state-and-exception monad over a [World] (the file system
    and the wall clock); an exception keeps the state reached so far.

    External libraries.  The operations the code delegates to MNE and SciPy
    are the fields of the interface [Libs]; what the development assumes of
    them is the class [LibsOk]. *)

From Stdlib Require Import QArith Lqa ZArith Lia List Bool.
From Stdlib Require Import Strings.String Strings.Ascii.
From Stdlib Require Import DecimalString DecimalNat DecimalZ.
From stdpp Require Import base option list strings gmap.

Local Open Scope Q_scope.

(** ** NumPy: the array operations used by [app.py] *)

Module np.

(** [a >= s] and [a <= s] with a scalar [s]: element-wise comparison. *)
Definition greater_equal (a : list Q) (s : Q) : list bool :=
  map (fun v => Qle_bool s v) a.

Definition less_equal (a : list Q) (s : Q) : list bool :=
  map (fun v => Qle_bool v s) a.

(** [np.logical_and(a, b)] on two masks of the same shape. *)
Definition logical_and (a b : list bool) : list bool :=
  zip_with andb a b.

(** [a[mask]]: boolean-mask indexing.  NumPy raises IndexError when the
    mask does not have the shape of the indexed array. *)
Definition mask_index {A : Type} (a : list A) (mask : list bool)
  : option (list A) :=
  if Nat.eqb (length a) (length mask)
  then Some (map fst (List.filter snd (combine a mask)))
  else None.

(** [np.diff(x)] is [x[1:] - x[:-1]]. *)
Definition diff (x : list Q) : list Q :=
  zip_with Qminus (tail x) (removelast x).

(** [a.sum()], with the zero of the empty sum. *)
Definition sum (a : list Q) : Q := fold_left Qplus a 0.

(** [np.trapz(y, x)]:
    [d = diff(x); ret = (d * (y[1:] + y[:-1]) / 2.0).sum()].
    The two arrays have the same shape at the only call site; operands
    of different shapes make the element-wise product raise. *)
Definition trapz (y x : list Q) : option Q :=
  if Nat.eqb (length y) (length x)
  then
    let d := diff x in
    let s := zip_with Qplus (tail y) (removelast y) in
    Some (sum (map (fun v => v / 2) (zip_with Qmult d s)))
  else None.

(** [np.arange(n)] as an array of numbers. *)
Definition arange (n : nat) : list Q :=
  map (fun i => inject_Z (Z.of_nat i)) (seq 0 n).

End np.

(** ** The band power integrator (app.py, lines 19-21) *)

Definition band_power (psd freqs : list Q) (fmin fmax : Q) : option Q :=
  let idx := np.logical_and (np.greater_equal freqs fmin)
                            (np.less_equal freqs fmax) in
  y ← np.mask_index psd idx;
  x ← np.mask_index freqs idx;
  np.trapz y x.

(** ** The integrator as the specification words it

    A frequency bin is a pair (frequency, PSD value).  The specification
    restricts the bins to the closed interval and integrates them with the
    trapezoidal rule: half the width of each gap between two consecutive
    selected bins times the sum of the two PSD values. *)

Module Spec.

Definition in_band (fmin fmax f : Q) : Prop := fmin <= f /\ f <= fmax.

Definition in_band_dec (fmin fmax f : Q)
  : {in_band fmin fmax f} + {~ in_band fmin fmax f}.
Proof.
  unfold in_band.
  destruct (Qlt_le_dec f fmin) as [Hlo | Hlo].
  - right. intros [H _]. exact (Qlt_not_le _ _ Hlo H).
  - destruct (Qlt_le_dec fmax f) as [Hhi | Hhi].
    + right. intros [_ H]. exact (Qlt_not_le _ _ Hhi H).
    + left. split; assumption.
Defined.

(** The bins of the spectrum, in the order of the frequency array. *)
Definition bins (psd freqs : list Q) : list (Q * Q) := combine freqs psd.

(** The bins whose frequency lies in [fmin, fmax]. *)
Definition restrict (fmin fmax : Q) (pts : list (Q * Q)) : list (Q * Q) :=
  List.filter (fun p => if in_band_dec fmin fmax (fst p) then true else false)
              pts.

(** Composite trapezoidal rule over sample points (x, y). *)
Fixpoint trapezoid (pts : list (Q * Q)) : Q :=
  match pts with
  | (x0, y0) :: (((x1, y1) :: _) as rest) =>
      (x1 - x0) * (y0 + y1) / 2 + trapezoid rest
  | _ => 0
  end.

Definition band_integral (psd freqs : list Q) (fmin fmax : Q) : Q :=
  trapezoid (restrict fmin fmax (bins psd freqs)).

End Spec.

(** Ascending frequencies: each bin is at least its predecessor. *)
Fixpoint ascending (l : list Q) : Prop :=
  match l with
  | a :: ((b :: _) as rest) => a <= b /\ ascending rest
  | _ => True
  end.

(** The number of frequency bins that fall in [fmin, fmax]. *)
Definition bins_in_band (freqs : list Q) (fmin fmax : Q) : nat :=
  length (List.filter
            (fun f => if Spec.in_band_dec fmin fmax f then true else false)
            freqs).

(** The range covered by a frequency array: from its first to its last
    bin; an empty array covers nothing. *)
Definition freq_range (freqs : list Q) : option (Q * Q) :=
  match freqs with
  | [] => None
  | f0 :: _ => Some (f0, List.last freqs f0)
  end.

(** The interval [fmin, fmax] and the range of the frequency array have no
    point in common. *)
Definition no_overlap (freqs : list Q) (fmin fmax : Q) : Prop :=
  match freq_range freqs with
  | None => True
  | Some (lo, hi) =>
      forall f : Q, ~ (Spec.in_band fmin fmax f /\ lo <= f /\ f <= hi)
  end.

(** The mask computed by [band_power], named. *)
Definition band_mask (freqs : list Q) (fmin fmax : Q) : list bool :=
  np.logical_and (np.greater_equal freqs fmin) (np.less_equal freqs fmax).

(** The terms NumPy sums in [trapz], for sample points given as pairs. *)
Definition trapz_terms (pts : list (Q * Q)) : list Q :=
  map (fun v => v / 2)
      (zip_with Qmult (np.diff (map fst pts))
                (zip_with Qplus (tail (map snd pts))
                          (removelast (map snd pts)))).

(** The area the trapezoidal rule puts between two sample points. *)
Definition trapezoid_between (p q : Q * Q) : Q :=
  (fst q - fst p) * (snd p + snd q) / 2.

(** The area between the last point of [l1] and the first of [l2]: what
    integrating [l1 ++ l2] adds to integrating the two separately. *)
Definition trapezoid_gap (l1 l2 : list (Q * Q)) : Q :=
  match last l1, head l2 with
  | Some p, Some q => trapezoid_between p q
  | _, _ => 0
  end.

(** ** Python built-ins and [os.path] *)

Module py.

(** [str(n)] for a non-negative integer, as used by the f-strings. *)
Definition str_of_nat (n : nat) : string :=
  NilEmpty.string_of_uint (Nat.to_uint n).

(** [str(z)] for an integer. *)
Definition str_of_int (z : Z) : string :=
  NilEmpty.string_of_int (Z.to_int z).

(** [min(xs)]: ValueError on an empty sequence. *)
Definition min (xs : list nat) : option nat :=
  match xs with
  | [] => None
  | x :: rest => Some (fold_left Nat.min rest x)
  end.

End py.

Module os_path.

Definition sep : ascii := "/"%char.

Definition startswith_sep (s : string) : bool :=
  match s with
  | String c _ => Ascii.eqb c sep
  | EmptyString => false
  end.

Fixpoint endswith_sep (s : string) : bool :=
  match s with
  | EmptyString => false
  | String c EmptyString => Ascii.eqb c sep
  | String _ rest => endswith_sep rest
  end.

(** [os.path.join(a, b)] (posixpath): an absolute [b] replaces [a]. *)
Definition join (a b : string) : string :=
  if startswith_sep b then b
  else if String.eqb a "" || endswith_sep a then (a ++ b)%string
  else (a ++ String sep b)%string.

Fixpoint contains_sep (s : string) : bool :=
  match s with
  | EmptyString => false
  | String c rest => Ascii.eqb c sep || contains_sep rest
  end.

(** [os.path.basename(p)]: what follows the last separator. *)
Fixpoint basename (p : string) : string :=
  match p with
  | EmptyString => EmptyString
  | String c rest => if contains_sep p then basename rest else p
  end.

End os_path.

(** ** Two-dimensional arrays *)

(** A NumPy array of shape ([length rows], [ncols]). *)
Record Array2 := { ncols : nat; rows : list (list Q) }.

Module np2.

(** [a * s] with a scalar. *)
Definition scale (a : Array2) (s : Q) : Array2 :=
  {| ncols := ncols a; rows := map (map (fun v => v * s)) (rows a) |}.

(** [a[:, :k]]. *)
Definition take_cols (k : nat) (a : Array2) : Array2 :=
  {| ncols := Nat.min k (ncols a); rows := map (firstn k) (rows a) |}.

(** [a.mean(axis=0)]: the mean over the rows, column by column. *)
Definition mean_axis0 (a : Array2) : list Q :=
  map (fun j => np.sum (map (fun r => nth j r 0) (rows a))
                / inject_Z (Z.of_nat (length (rows a))))
      (seq 0 (ncols a)).

Definition same_shape (a b : Array2) : bool :=
  Nat.eqb (length (rows a)) (length (rows b))
  && Nat.eqb (ncols a) (ncols b).

(** Element-wise sum of two matrices of one shape. *)
Definition add (x y : list (list Q)) : list (list Q) :=
  zip_with (zip_with Qplus) x y.

(** [np.mean(arrays, axis=0)] on a list of 2-D arrays: the list is first
    stacked into one 3-D array, which raises ValueError unless every
    array has the shape of the first; then the element-wise sum is
    divided by the number of arrays. *)
Definition mean_stack (arrays : list Array2) : option Array2 :=
  match arrays with
  | [] => None
  | a :: rest =>
      if forallb (same_shape a) rest
      then
        let total := fold_left add (map rows rest) (rows a) in
        let n := inject_Z (Z.of_nat (length arrays)) in
        Some {| ncols := ncols a;
                rows := map (map (fun v => v / n)) total |}
      else None
  end.

End np2.

(** ** MNE recordings *)

Module mne.

(** A decoded recording ([mne.io.Raw], preloaded): channel names in file
    order, sampling frequency, number of samples per channel and the
    sample matrix, one row per channel. *)
Record Raw := {
  ch_names : list string;
  sfreq : Q;
  n_times : nat;
  data : list (list Q)
}.

(** What MNE guarantees of a recording it hands out: at least one
    channel, channel names made unique, one row of [n_times] samples per
    channel. *)
Definition wf (raw : Raw) : Prop :=
  ch_names raw <> []
  /\ NoDup (ch_names raw)
  /\ length (data raw) = length (ch_names raw)
  /\ Forall (fun row => length row = n_times raw) (data raw).

Fixpoint index (name : string) (names : list string) : option nat :=
  match names with
  | [] => None
  | n :: rest =>
      if String.eqb n name then Some 0%nat else S <$> index name rest
  end.

(** [raw.get_data(picks=names)]: the rows of the named channels, in the
    order of [picks]; ValueError on a name the recording does not have. *)
Definition get_data (raw : Raw) (picks : list string) : option Array2 :=
  rs ← mapM (fun name => i ← index name (ch_names raw); data raw !! i) picks;
  Some {| ncols := n_times raw; rows := rs |}.

(** [raw.times]: [arange(n_times) / sfreq]. *)
Definition times (raw : Raw) : list Q :=
  map (fun t => t / sfreq raw) (np.arange (n_times raw)).

End mne.

(** ** The external libraries as an interface *)

Class Libs := {
  (** [mne.io.read_raw_edf(path, preload=True)] on the content of the file
      at [path]; [None] when MNE raises. *)
  read_raw_edf : string -> list Byte.byte -> option mne.Raw;
  (** [raw.filter(l_freq, h_freq)]; [None] when MNE raises (a pass band at
      or above the Nyquist frequency, for one). *)
  raw_filter : Q -> Q -> mne.Raw -> option mne.Raw;
  (** [scipy.signal.welch(x, fs, nperseg=n)], which returns the pair
      (sample frequencies, power spectral density), in this order. *)
  welch : list Q -> Q -> nat -> list Q * list Q;
  (** [round(x, ndigits)]. *)
  py_round : Q -> nat -> Q;
  (** [float(s)]; [None] for ValueError. *)
  py_float : string -> option Q
}.

(** What the development assumes of the libraries. *)
Class LibsOk (L : Libs) : Prop := {
  read_raw_edf_wf : forall path content raw,
    read_raw_edf path content = Some raw -> mne.wf raw;
  raw_filter_keeps : forall l h raw raw',
    raw_filter l h raw = Some raw' ->
    mne.ch_names raw' = mne.ch_names raw
    /\ mne.sfreq raw' = mne.sfreq raw
    /\ mne.n_times raw' = mne.n_times raw
    /\ (mne.wf raw -> mne.wf raw');
  welch_shapes : forall x fs n,
    length (fst (welch x fs n)) = length (snd (welch x fs n))
}.

(** ** Figures, files and the world *)

(** What the code draws on a Matplotlib figure before saving it.  Each
    pipeline opens its own figure, draws, saves and closes it, so pyplot's
    current-figure state (and [plt.close('all')]) is not modelled. *)
Record Figure := {
  lines : list (list Q * list Q);     (* plot(x, y) calls, in order *)
  log_y : bool;                       (* semilogy *)
  yticks : list Q;
  yticklabels : list string;
  xlim : option (Q * Q);
  title : string;
  xlabel : string;
  ylabel : string
}.

Inductive File :=
| Uploaded (content : list Byte.byte)   (* written by file.save *)
| Image (fig : Figure).                 (* written by plt.savefig *)

(** The file system, a flat map from path names to files, and the wall
    clock in seconds. *)
Record World := { fs : gmap string File; clock : Z }.

Definition UPLOAD_FOLDER : string := "uploads".
Definition STATIC_FOLDER : string := "static".

(** State and exceptions: [None] is an unhandled exception; the state
    reached before it is kept. *)
Definition M (A : Type) : Type := World -> World * option A.

#[global] Instance M_ret : MRet M := fun A a w => (w, Some a).

#[global] Instance M_bind : MBind M := fun A B f m w =>
  match m w with
  | (w', Some a) => f a w'
  | (w', None) => (w', None)
  end.

(** An operation that may raise, run without touching the world. *)
Definition lift {A : Type} (o : option A) : M A := fun w => (w, o).

(** Writing a file creates or overwrites the entry at [path].  The file
    system is a map over path names as they are spelled: two spellings of
    one file ([uploads/a.edf] and [uploads/./a.edf]) are two entries, and
    a write does not raise.  This is how the code sees plain file names in
    the two directories the module creates at import (lines 16-17);
    properties that depend on which file a path names are stated for
    such names, see [plain_name]. *)
Definition write_file (path : string) (f : File) : M unit := fun w =>
  ({| fs := <[path := f]> (fs w); clock := clock w |}, Some tt).

(** [plt.savefig(path)] of the current figure. *)
Definition savefig (path : string) (fig : Figure) : M unit :=
  write_file path (Image fig).

(** [time.time()]. *)
Definition time_time : M Z := fun w => (w, Some (clock w)).

(** [mne.io.read_raw_edf(path, preload=True)]: the file must exist; a
    saved figure is not an EDF recording. *)
Definition mne_io_read_raw_edf `{Libs} (path : string) : M mne.Raw := fun w =>
  (w, match fs w !! path with
      | Some (Uploaded content) => read_raw_edf path content
      | Some (Image _) => None
      | None => None
      end).

(** ** The stacked time-domain plot (app.py, lines 35-45 and 96-106) *)

(** [np.arange(n) * 150]. *)
Definition channel_offsets (n : nat) : list Q :=
  map (fun v => v * 150) (np.arange n).

(** [for i in range(n): ax.plot(times, data[i] + offsets[i])]; IndexError
    when [data] has fewer than [n] rows. *)
Definition plot_channels (times : list Q) (data : Array2) (offsets : list Q)
    (n : nat) : option (list (list Q * list Q)) :=
  mapM (fun i =>
          row ← rows data !! i;
          off ← offsets !! i;
          Some (times, map (fun v => v + off) row))
       (seq 0 n).

(** ** The per-file pipeline (app.py, lines 23-77) *)

Module Summary.
(** The dictionary returned by [process_file]; [bands] keeps the
    insertion order of the dict literal. *)
Record t := {
  filename : string;
  channels : nat;
  sfreq : Q;
  duration : Q;
  time_plot : string;
  psd_plot : string;
  bands : list (string * Q)
}.
End Summary.

Definition process_file `{Libs} (filepath : string) (timescale : Q) (idx : nat)
  : M Summary.t :=
  raw ← mne_io_read_raw_edf filepath;
  raw ← lift (raw_filter 1 40 raw);
  let sfreq := mne.sfreq raw in
  data ← lift (mne.get_data raw (firstn 6 (mne.ch_names raw)));
  let data := np2.scale data 1000000 in
  let ch_names := firstn 6 (mne.ch_names raw) in
  let times := map (fun t => t / sfreq) (np.arange (ncols data)) in
  (* Time domain plot *)
  let offsets := channel_offsets (length ch_names) in
  plotted ← lift (plot_channels times data offsets (length ch_names));
  let fig := {| lines := plotted; log_y := false;
                yticks := offsets; yticklabels := ch_names;
                xlim := Some (0, timescale);
                title := ("EEG Signal – " ++ os_path.basename filepath)%string;
                xlabel := "Time (s)";
                ylabel := "Channels (µV)" |} in
  let time_plot := ("time_" ++ py.str_of_nat idx ++ ".png")%string in
  _ ← savefig (os_path.join STATIC_FOLDER time_plot) fig;
  (* PSD and band power.  The source unpacks welch's result as
     [psd, freqs = welch(...)]: [psd] is bound to the first component. *)
  let '(psd, freqs) := welch (np2.mean_axis0 data) sfreq 2048 in
  delta ← lift (band_power psd freqs (1 # 2) 4);
  theta ← lift (band_power psd freqs 4 8);
  alpha ← lift (band_power psd freqs 8 13);
  beta ← lift (band_power psd freqs 13 30);
  gamma ← lift (band_power psd freqs 30 40);
  let bands := [("Delta (0.5–4 Hz)"%string, delta);
                ("Theta (4–8 Hz)"%string, theta);
                ("Alpha (8–13 Hz)"%string, alpha);
                ("Beta (13–30 Hz)"%string, beta);
                ("Gamma (30–40 Hz)"%string, gamma)] in
  let psd_fig := {| lines := [(freqs, psd)]; log_y := true;
                    yticks := []; yticklabels := [];
                    xlim := None;
                    title := "Power Spectral Density";
                    xlabel := "Frequency (Hz)";
                    ylabel := "" |} in
  let psd_plot := ("psd_" ++ py.str_of_nat idx ++ ".png")%string in
  _ ← savefig (os_path.join STATIC_FOLDER psd_plot) psd_fig;
  t_end ← lift (last (mne.times raw));
  mret {| Summary.filename := os_path.basename filepath;
          Summary.channels := length (mne.ch_names raw);
          Summary.sfreq := sfreq;
          Summary.duration := py_round t_end 2;
          Summary.time_plot := time_plot;
          Summary.psd_plot := psd_plot;
          Summary.bands := bands |}.

(** ** The aggregate pipeline (app.py, lines 79-111) *)

(** The loop of lines 85-90, over the loop variables [all_data],
    [ch_names] and [sfreq]. *)
Fixpoint load_all `{Libs} (filepaths : list string)
    (all_data : list Array2) (ch_names : list string) (sfreq : Q)
  : M (list Array2 * list string * Q) :=
  match filepaths with
  | [] => mret (all_data, ch_names, sfreq)
  | fp :: rest =>
      raw ← mne_io_read_raw_edf fp;
      raw ← lift (raw_filter 1 40 raw);
      d ← lift (mne.get_data raw (firstn 6 (mne.ch_names raw)));
      load_all rest (all_data ++ [np2.scale d 1000000])
               (firstn 6 (mne.ch_names raw)) (mne.sfreq raw)
  end.

(** Lines 92-93: [min_len] and [avg_data]. *)
Definition average_data (all_data : list Array2) : option Array2 :=
  min_len ← py.min (map ncols all_data);
  np2.mean_stack (map (np2.take_cols min_len) all_data).

Definition process_average `{Libs} (filepaths : list string) (timescale : Q)
  : M string :=
  '(all_data, ch_names, sfreq) ← load_all filepaths [] [] 0;
  avg_data ← lift (average_data all_data);
  let times := map (fun t => t / sfreq) (np.arange (ncols avg_data)) in
  let offsets := channel_offsets (length ch_names) in
  plotted ← lift (plot_channels times avg_data offsets (length ch_names));
  let fig := {| lines := plotted; log_y := false;
                yticks := offsets; yticklabels := ch_names;
                xlim := Some (0, timescale);
                title := "Grand Average EEG Signal";
                xlabel := "Time (s)";
                ylabel := "Channels (µV)" |} in
  now ← time_time;
  let avg_filename := ("average_" ++ py.str_of_int now ++ ".png")%string in
  _ ← savefig (os_path.join STATIC_FOLDER avg_filename) fig;
  mret avg_filename.

(** ** The request handlers (app.py, lines 117-143) *)

(** An uploaded part of the multipart form (werkzeug's FileStorage). *)
Record FileStorage := { file_filename : string; file_content : list Byte.byte }.

(** [file.save(path)]. *)
Definition file_save (file : FileStorage) (path : string) : M unit :=
  write_file path (Uploaded (file_content file)).

(** The arguments of [render_template("result.html", ...)]. *)
Record Page := {
  results : list Summary.t;
  filepaths : list string;
  timescale : Q;
  avg_plot : option string
}.

Inductive Response :=
| Text (body : string)            (* a returned string: status 200 *)
| Rendered (page : Page)          (* the rendered results page *)
| InternalServerError.            (* an unhandled exception: status 500 *)

(** Flask turns an unhandled exception of a view into a 500 response. *)
Definition respond (view : M Response) : World -> World * Response := fun w =>
  match view w with
  | (w', Some r) => (w', r)
  | (w', None) => (w', InternalServerError)
  end.

(** The loop of lines 126-130, from index [idx] on. *)
Fixpoint upload_loop `{Libs} (files : list FileStorage) (timescale : Q)
    (idx : nat) (results : list Summary.t) (filepaths : list string)
  : M (list Summary.t * list string) :=
  match files with
  | [] => mret (results, filepaths)
  | file :: rest =>
      let path := os_path.join UPLOAD_FOLDER (file_filename file) in
      _ ← file_save file path;
      let filepaths := filepaths ++ [path] in
      r ← process_file path timescale idx;
      upload_loop rest timescale (S idx) (results ++ [r]) filepaths
  end.

(** [process_average(filepaths, timescale) if len(filepaths) > 1 else None]. *)
Definition average_if_many `{Libs} (filepaths : list string) (timescale : Q)
  : M (option string) :=
  if (1 <? length filepaths)%nat
  then name ← process_average filepaths timescale; mret (Some name)
  else mret None.

(** POST /upload, the view function; [files] is
    [request.files.getlist("eegfiles")]. *)
Definition upload_view `{Libs} (files : list FileStorage) : M Response :=
  match files with
  | [] => mret (Text "No files selected")
  | first :: _ =>
      if String.eqb (file_filename first) ""
      then mret (Text "No files selected")
      else
        let timescale := 1 in
        '(results, filepaths) ← upload_loop files timescale 0 [] [];
        avg_plot ← average_if_many filepaths timescale;
        mret (Rendered {| results := results; filepaths := filepaths;
                          timescale := timescale; avg_plot := avg_plot |})
  end.

Definition upload `{Libs} (files : list FileStorage)
  : World -> World * Response :=
  respond (upload_view files).

(** The form of POST /update: the [timescale] field when present, and the
    repeated [filepaths] fields. *)
Record UpdateForm := {
  form_timescale : option string;
  form_filepaths : list string
}.

(** [enumerate(l)]. *)
Definition enumerate {A : Type} (l : list A) : list (nat * A) :=
  combine (seq 0 (length l)) l.

(** POST /update, the view function. *)
Definition update_view `{Libs} (form : UpdateForm) : M Response :=
  timescale ← lift (match form_timescale form with
                    | None => Some 1
                    | Some s => py_float s
                    end);
  let filepaths := form_filepaths form in
  results ← mapM (fun '(idx, fp) => process_file fp timescale idx)
                 (enumerate filepaths);
  avg_plot ← average_if_many filepaths timescale;
  mret (Rendered {| results := results; filepaths := filepaths;
                    timescale := timescale; avg_plot := avg_plot |}).

Definition update `{Libs} (form : UpdateForm) : World -> World * Response :=
  respond (update_view form).

(** ** Vocabulary of the properties *)

(** The recording both pipelines work on for the file at [path]: decoded
    by [read_raw_edf], then band-pass filtered to 1-40 Hz. *)
Definition load `{Libs} (w : World) (path : string) : option mne.Raw :=
  match fs w !! path with
  | Some (Uploaded content) =>
      raw ← read_raw_edf path content; raw_filter 1 40 raw
  | _ => None
  end.

(** The paths of the generated images. *)
Definition static_path (name : string) : string :=
  os_path.join STATIC_FOLDER name.

(** A path under the static directory, where the images are written. *)
Definition under_static (path : string) : bool :=
  String.prefix "static/" path.

(** Two worlds that hold the same files outside the static directory. *)
Definition agree (w1 w2 : World) : Prop :=
  forall path, under_static path = false -> fs w1 !! path = fs w2 !! path.

(** Two computations that, from agreeing worlds, reach agreeing worlds,
    both raise or both return, and return values related by [R]. *)
Definition related {A : Type} (R : A -> A -> Prop) (m1 m2 : M A) : Prop :=
  forall w1 w2, agree w1 w2 ->
    agree (fst (m1 w1)) (fst (m2 w2))
    /\ option_Forall2 R (snd (m1 w1)) (snd (m2 w2)).

(** A computation that leaves the clock and every file whose path
    satisfies [P] as they are. *)
Definition keeps (P : string -> Prop) {A : Type} (m : M A) : Prop :=
  forall w,
    (forall path, P path -> fs (fst (m w)) !! path = fs w !! path)
    /\ clock (fst (m w)) = clock w.

(** The stored uploads: every path outside the static directory. *)
Definition is_upload (path : string) : Prop := under_static path = false.

(** The paths of the aggregate images. *)
Definition is_average (path : string) : Prop :=
  exists s : string, path = static_path ("average_" ++ s).

(** The per-file summaries a response shows, if it is a results page. *)
Definition summaries_of (r : Response) : option (list Summary.t) :=
  match r with
  | Rendered page => Some (results page)
  | _ => None
  end.

Definition set_clock (t : Z) (w : World) : World :=
  {| fs := fs w; clock := t |}.

(** The five bands of the dict literal of [process_file]: label, lower
    and upper frequency. *)
Definition BANDS : list (string * Q * Q) :=
  [ ("Delta (0.5–4 Hz)"%string, 1 # 2, 4);
    ("Theta (4–8 Hz)"%string, 4, 8);
    ("Alpha (8–13 Hz)"%string, 8, 13);
    ("Beta (13–30 Hz)"%string, 13, 30);
    ("Gamma (30–40 Hz)"%string, 30, 40) ].

(** Every path of [paths] loads, to the recordings [raws] in order. *)
Definition loads `{Libs} (w : World) (paths : list string)
    (raws : list mne.Raw) : Prop :=
  Forall2 (fun path raw => load w path = Some raw) paths raws.

(** The image names the pipelines build (lines 47, 65 and 108). *)
Definition time_plot_name (idx : nat) : string :=
  ("time_" ++ py.str_of_nat idx ++ ".png")%string.

Definition psd_plot_name (idx : nat) : string :=
  ("psd_" ++ py.str_of_nat idx ++ ".png")%string.

Definition average_name (now : Z) : string :=
  ("average_" ++ py.str_of_int now ++ ".png")%string.

(** Where /upload stores a part. *)
Definition upload_path (file : FileStorage) : string :=
  os_path.join UPLOAD_FOLDER (file_filename file).

(** A filename that names one entry of a directory: not empty, without a
    separator, and neither [.] nor [..].  Distinct plain names joined to
    one directory are distinct files. *)
Definition plain_name (name : string) : bool :=
  negb (String.eqb name "")
  && negb (os_path.contains_sep name)
  && negb (String.eqb name ".")
  && negb (String.eqb name "..").

(** The summary of the per-file pipeline as a function of what the file
    system holds at [filepath]. *)
Definition summarize `{Libs} (filepath : string) (idx : nat)
    (file : option File) : option Summary.t :=
  snd (process_file filepath 0 idx
         {| fs := match file with
                  | Some f => {[ filepath := f ]}
                  | None => ∅
                  end;
            clock := 0 |}).

(** The summaries /upload computes for [files], numbered from [idx]: each
    part is summarized as stored. *)
Definition upload_summaries `{Libs} (idx : nat) (files : list FileStorage)
  : option (list Summary.t) :=
  mapM (fun '(i, file) =>
          summarize (upload_path file) i
                    (Some (Uploaded (file_content file))))
       (combine (seq idx (length files)) files).

(** The band powers of a summary are [band_power] on the two arrays
    unpacked from [welch], over the ranges of [BANDS], under their labels
    and in their order. *)
Definition bands_from (psd freqs : list Q) (bands : list (string * Q)) : Prop :=
  Forall2 (fun '(label, lo, hi) '(label', v) =>
             label = label' /\ band_power psd freqs lo hi = Some v)
          BANDS bands.

(** The sample matrix both pipelines plot: the first six rows, in
    microvolts. *)
Definition plotted_data (raw : mne.Raw) : Array2 :=
  np2.scale {| ncols := mne.n_times raw; rows := firstn 6 (mne.data raw) |}
            1000000.

(** Entry (c, t) of a matrix. *)
Definition entry (m : list (list Q)) (c t : nat) : Q := nth t (nth c m []) 0.

(** A rectangular array: every row has [ncols] entries. *)
Definition rectangular (a : Array2) : Prop :=
  Forall (fun row => length row = ncols a) (rows a).

(** A matrix of [n] rows of [k] entries each. *)
Definition shaped (n k : nat) (m : list (list Q)) : Prop :=
  length m = n /\ Forall (fun row => length row = k) m.

(** The sum over the arrays of their entries (c, t). *)
Definition sum_entries (arrays : list Array2) (c t : nat) : Q :=
  np.sum (map (fun a => entry (rows a) c t) arrays).

(** ** A small instance of the library interface

    A stand-in for MNE and SciPy on which the pipelines can be run: a
    recording file is a montage byte, a channel count (1 to 8), a sampling
    frequency in Hz and one byte per sample; channel c holds every sample
    plus c.  The filter refuses a pass band that reaches the Nyquist
    frequency, as MNE does, and otherwise leaves the samples alone. *)

Module Toy.

Definition montage_a : list string :=
  ["Fp1"; "Fp2"; "C3"; "C4"; "O1"; "O2"; "T3"; "T4"]%string.

Definition montage_b : list string :=
  ["F3"; "F4"; "P3"; "P4"; "F7"; "F8"; "T5"; "T6"]%string.

Definition num (b : Byte.byte) : Z := Z.of_N (Byte.to_N b).

Definition decode (content : list Byte.byte) : option mne.Raw :=
  match content with
  | m :: n :: f :: samples =>
      let nch := Z.to_nat (num n) in
      if ((1 <=? nch)%nat && (nch <=? 8)%nat)%bool
      then Some {| mne.ch_names :=
                     firstn nch (if (num m =? 0)%Z then montage_a
                                 else montage_b);
                   mne.sfreq := inject_Z (num f);
                   mne.n_times := length samples;
                   mne.data :=
                     map (fun c =>
                            map (fun b => inject_Z (num b + Z.of_nat c))
                                samples)
                         (seq 0 nch) |}
      else None
  | _ => None
  end.

Definition filter (l_freq h_freq : Q) (raw : mne.Raw) : option mne.Raw :=
  if Qle_bool (mne.sfreq raw / 2) h_freq then None else Some raw.

Definition spectrum (x : list Q) (fs : Q) (nperseg : nat)
  : list Q * list Q :=
  (np.arange (length x), map (fun v => v * v) x).

Definition float (s : string) : option Q :=
  option_map (fun d => inject_Z (Z.of_nat (Nat.of_uint d)))
             (NilEmpty.uint_of_string s).

#[local] Instance libs : Libs := {|
  read_raw_edf := fun _ content => decode content;
  raw_filter := filter;
  welch := spectrum;
  py_round := fun x _ => x;
  py_float := float
|}.

(** Recordings: seven channels; one and two channels; two montages at
    two sampling rates; ten and twelve seconds at 100 Hz, with one
    sample per second written out a hundred times. *)
Definition seven : list Byte.byte :=
  [Byte.x00; Byte.x07; Byte.x64; Byte.x01; Byte.x02; Byte.x03].

Definition one_channel : list Byte.byte :=
  [Byte.x00; Byte.x01; Byte.x64; Byte.x01; Byte.x02; Byte.x03].

Definition two_channels : list Byte.byte :=
  [Byte.x00; Byte.x02; Byte.x64; Byte.x05; Byte.x06; Byte.x07].

(** Four samples at 200 Hz: 0.02 s. *)
Definition fast_short : list Byte.byte :=
  [Byte.x00; Byte.x02; Byte.xc8; Byte.x01; Byte.x02; Byte.x03; Byte.x04].

(** Three samples at 100 Hz: 0.03 s. *)
Definition slow_long : list Byte.byte :=
  [Byte.x01; Byte.x02; Byte.x64; Byte.x09; Byte.x08; Byte.x07].

Definition empty_part : FileStorage :=
  {| file_filename := ""; file_content := [] |}.

Definition part (name : string) (content : list Byte.byte) : FileStorage :=
  {| file_filename := name; file_content := content |}.

(** A server that has stored nothing yet. *)
Definition fresh : World := {| fs := ∅; clock := 1700000000 |}.

(** A server after two uploads. *)
Definition stored (a b : list Byte.byte) : World :=
  {| fs := <["uploads/b.edf"%string := Uploaded b]>
             (<["uploads/a.edf"%string := Uploaded a]> ∅);
     clock := 1700000000 |}.

End Toy.

(** * Properties *)

(** ** Lemmas on the array operations *)

Section ArrayLemmas.

Lemma sum_from (l : list Q) (a : Q) : fold_left Qplus l a == a + np.sum l.
Proof.
  unfold np.sum. revert a.
  induction l as [| x l IH]; intros a; simpl.
  - ring.
  - rewrite (IH (a + x)), (IH (0 + x)). ring.
Qed.

Lemma sum_cons (x : Q) (l : list Q) : np.sum (x :: l) == x + np.sum l.
Proof. unfold np.sum at 1. simpl. rewrite sum_from. ring. Qed.

Lemma sum_nonneg (l : list Q) : Forall (fun v => 0 <= v) l -> 0 <= np.sum l.
Proof.
  induction 1 as [| x l Hx _ IH].
  - unfold np.sum; simpl. apply Qle_refl.
  - rewrite sum_cons. lra.
Qed.

Lemma band_mask_cons f freqs fmin fmax :
  band_mask (f :: freqs) fmin fmax
  = (Qle_bool fmin f && Qle_bool f fmax) :: band_mask freqs fmin fmax.
Proof. reflexivity. Qed.

Lemma band_mask_length freqs fmin fmax :
  length (band_mask freqs fmin fmax) = length freqs.
Proof.
  induction freqs as [| f freqs IH]; [reflexivity |].
  rewrite band_mask_cons. simpl. now rewrite IH.
Qed.

Lemma in_band_bool fmin fmax f :
  (if Spec.in_band_dec fmin fmax f then true else false)
  = Qle_bool fmin f && Qle_bool f fmax.
Proof.
  destruct (Spec.in_band_dec fmin fmax f) as [[H1 H2] | H].
  - apply Qle_bool_iff in H1, H2. now rewrite H1, H2.
  - destruct (Qle_bool fmin f) eqn:E1; [| reflexivity].
    destruct (Qle_bool f fmax) eqn:E2; [| reflexivity].
    exfalso. apply H. split; apply Qle_bool_iff; assumption.
Qed.

(** Selecting with the mask is restricting the bins. *)
Lemma select_freqs freqs psd fmin fmax :
  length psd = length freqs ->
  map fst (List.filter snd (combine freqs (band_mask freqs fmin fmax)))
  = map fst (Spec.restrict fmin fmax (Spec.bins psd freqs)).
Proof.
  revert psd. induction freqs as [| f freqs IH]; intros [| p psd] Hlen;
    try discriminate; [reflexivity |].
  rewrite band_mask_cons. unfold Spec.restrict, Spec.bins in *. simpl.
  rewrite in_band_bool.
  injection Hlen as Hlen.
  destruct (Qle_bool fmin f && Qle_bool f fmax); simpl;
    now rewrite (IH psd Hlen).
Qed.

Lemma select_psd freqs psd fmin fmax :
  length psd = length freqs ->
  map fst (List.filter snd (combine psd (band_mask freqs fmin fmax)))
  = map snd (Spec.restrict fmin fmax (Spec.bins psd freqs)).
Proof.
  revert psd. induction freqs as [| f freqs IH]; intros [| p psd] Hlen;
    try discriminate; [reflexivity |].
  rewrite band_mask_cons. unfold Spec.restrict, Spec.bins in *. simpl.
  rewrite in_band_bool.
  injection Hlen as Hlen.
  destruct (Qle_bool fmin f && Qle_bool f fmax); simpl;
    now rewrite (IH psd Hlen).
Qed.

Lemma trapz_terms_cons2 x0 y0 x1 y1 rest :
  trapz_terms ((x0, y0) :: (x1, y1) :: rest)
  = ((x1 - x0) * (y1 + y0) / 2) :: trapz_terms ((x1, y1) :: rest).
Proof. reflexivity. Qed.

Lemma trapz_pairs (pts : list (Q * Q)) :
  np.trapz (map snd pts) (map fst pts) = Some (np.sum (trapz_terms pts)).
Proof.
  unfold np.trapz. rewrite !length_map, Nat.eqb_refl. reflexivity.
Qed.

Lemma sum_trapz_terms (pts : list (Q * Q)) :
  np.sum (trapz_terms pts) == Spec.trapezoid pts.
Proof.
  induction pts as [| [x0 y0] [| [x1 y1] rest] IH].
  - reflexivity.
  - reflexivity.
  - rewrite trapz_terms_cons2, sum_cons, IH.
    change (Spec.trapezoid ((x0, y0) :: (x1, y1) :: rest))
      with ((x1 - x0) * (y0 + y1) / 2 + Spec.trapezoid ((x1, y1) :: rest)).
    field.
Qed.

(** [band_power] with arrays of equal length never raises, and sums the
    trapezoid terms of the restricted bins. *)
Lemma band_power_eq psd freqs fmin fmax :
  length psd = length freqs ->
  band_power psd freqs fmin fmax
  = Some (np.sum (trapz_terms
                    (Spec.restrict fmin fmax (Spec.bins psd freqs)))).
Proof.
  intros Hlen. unfold band_power.
  fold (band_mask freqs fmin fmax).
  unfold np.mask_index.
  rewrite band_mask_length, Hlen, Nat.eqb_refl. simpl.
  rewrite (select_psd freqs psd fmin fmax Hlen).
  rewrite (select_freqs freqs psd fmin fmax Hlen).
  apply trapz_pairs.
Qed.

Lemma band_power_raises psd freqs fmin fmax :
  length psd <> length freqs -> band_power psd freqs fmin fmax = None.
Proof.
  intros Hlen. unfold band_power. fold (band_mask freqs fmin fmax).
  unfold np.mask_index. rewrite band_mask_length.
  apply Nat.eqb_neq in Hlen. now rewrite Hlen.
Qed.

End ArrayLemmas.

(** ** Ascending arrays and the restricted bins *)

Section Ascending.

Lemma map_fst_combine {A B : Type} (l : list A) (k : list B) :
  length k = length l -> map fst (combine l k) = l.
Proof.
  revert k. induction l as [| a l IH]; intros [| b k] Hlen;
    try discriminate; [reflexivity |].
  injection Hlen as Hlen. simpl. now rewrite IH.
Qed.

Lemma ascending_cons (a : Q) (l : list Q) :
  ascending (a :: l) <-> Forall (fun b => a <= b) l /\ ascending l.
Proof.
  revert a. induction l as [| b l IH]; intros a.
  - simpl. split; [intros _; split; [constructor | exact I] | tauto].
  - change (ascending (a :: b :: l)) with (a <= b /\ ascending (b :: l)).
    split.
    + intros [Hab Hbl]. split; [| assumption].
      constructor; [assumption |].
      apply IH in Hbl as [Hb _].
      eapply List.Forall_impl; [| exact Hb].
      intros c Hc. simpl in Hc. lra.
    + intros [Hall Hbl]. split; [| assumption].
      now inversion Hall.
Qed.

Lemma ascending_tail (a : Q) (l : list Q) : ascending (a :: l) -> ascending l.
Proof. intros H. now apply ascending_cons in H. Qed.

Lemma ascending_le_last (l : list Q) (d : Q) :
  ascending l -> Forall (fun f => f <= List.last l d) l.
Proof.
  induction l as [| a l IH]; intros Hl; [constructor |].
  apply ascending_cons in Hl as [Ha Hl].
  destruct l as [| b l].
  - constructor; [simpl; lra | constructor].
  - specialize (IH Hl).
    change (List.last (a :: b :: l) d) with (List.last (b :: l) d).
    constructor; [| assumption].
    inversion Ha as [| ? ? Hab _]; subst.
    inversion IH as [| ? ? Hb _]; subst. lra.
Qed.

(** The frequencies of the restricted bins are still ascending. *)
Lemma restrict_ascending (pts : list (Q * Q)) fmin fmax :
  ascending (map fst pts) ->
  ascending (map fst (Spec.restrict fmin fmax pts)).
Proof.
  induction pts as [| [x y] pts IH]; intros Hasc; [exact I |].
  simpl in Hasc. apply ascending_cons in Hasc as [Hx Hasc].
  unfold Spec.restrict in *. simpl.
  destruct (Spec.in_band_dec fmin fmax x); [| now apply IH].
  simpl. apply ascending_cons. split; [| now apply IH].
  apply List.Forall_forall. intros b Hb.
  apply in_map_iff in Hb as [[x' y'] [<- Hin]].
  apply filter_In in Hin as [Hin _].
  rewrite List.Forall_forall in Hx. apply Hx.
  apply in_map_iff. now exists (x', y').
Qed.

Lemma restrict_In (pts : list (Q * Q)) fmin fmax (f p : Q) :
  In (f, p) (Spec.restrict fmin fmax pts)
  <-> In (f, p) pts /\ Spec.in_band fmin fmax f.
Proof.
  unfold Spec.restrict. rewrite filter_In. simpl.
  destruct (Spec.in_band_dec fmin fmax f); split; intros [H1 H2];
    try discriminate; try contradiction; split; auto.
Qed.

Lemma restrict_length psd freqs fmin fmax :
  length psd = length freqs ->
  length (Spec.restrict fmin fmax (Spec.bins psd freqs))
  = bins_in_band freqs fmin fmax.
Proof.
  unfold Spec.restrict, Spec.bins, bins_in_band.
  revert psd. induction freqs as [| f freqs IH]; intros [| p psd] Hlen;
    try discriminate; [reflexivity |].
  injection Hlen as Hlen. simpl.
  destruct (Spec.in_band_dec fmin fmax f); simpl; now rewrite (IH psd Hlen).
Qed.

Lemma bins_in_band_none freqs fmin fmax :
  (forall f, In f freqs -> ~ Spec.in_band fmin fmax f) ->
  bins_in_band freqs fmin fmax = 0%nat.
Proof.
  unfold bins_in_band.
  induction freqs as [| f freqs IH]; intros Hout; [reflexivity |].
  simpl. destruct (Spec.in_band_dec fmin fmax f) as [Hin | _].
  - exfalso. apply (Hout f); [now left | assumption].
  - apply IH. intros g Hg. apply Hout. now right.
Qed.

(** Ascending frequencies and non-negative values give non-negative
    trapezoid terms. *)
Lemma trapz_terms_nonneg (pts : list (Q * Q)) :
  ascending (map fst pts) ->
  Forall (fun v => 0 <= v) (map snd pts) ->
  Forall (fun v => 0 <= v) (trapz_terms pts).
Proof.
  induction pts as [| [x0 y0] [| [x1 y1] rest] IH]; intros Hasc Hpos.
  - constructor.
  - constructor.
  - rewrite trapz_terms_cons2.
    change (x0 <= x1 /\ ascending (map fst ((x1, y1) :: rest))) in Hasc.
    destruct Hasc as [Hx Hasc].
    inversion Hpos as [| ? ? Hy0 Hpos']; subst.
    constructor; [| now apply IH].
    inversion Hpos' as [| ? ? Hy1 _]; subst.
    unfold Qdiv. apply Qmult_le_0_compat; [| apply Qinv_le_0_compat; lra].
    apply Qmult_le_0_compat; lra.
Qed.

Lemma no_overlap_no_bin freqs fmin fmax :
  ascending freqs -> no_overlap freqs fmin fmax ->
  forall f, In f freqs -> ~ Spec.in_band fmin fmax f.
Proof.
  intros Hasc Hno f Hin Hband.
  destruct freqs as [| f0 freqs]; [contradiction |].
  unfold no_overlap, freq_range in Hno.
  apply (Hno f). split; [assumption |]. split.
  - destruct Hin as [<- | Hin]; [lra |].
    apply ascending_cons in Hasc as [Hall _].
    rewrite List.Forall_forall in Hall. now apply Hall.
  - pose proof (ascending_le_last (f0 :: freqs) f0 Hasc) as Hall.
    rewrite List.Forall_forall in Hall. now apply Hall.
Qed.

End Ascending.

(** ** The band power integrator: claims C1, C4 and C9 *)

(** C1. For a PSD array and a frequency array of equal length and every
    interval [fmin, fmax], [band_power] returns (never raises) the
    trapezoidal-rule integral of the bins whose frequency f satisfies
    fmin <= f <= fmax, both ends included; the selected bins are exactly
    those; and when no bin falls in the interval the result is the literal
    zero.  The ascending order of the claim is not needed for this. *)
Theorem band_power_is_trapezoid (psd freqs : list Q) (fmin fmax : Q) :
  length psd = length freqs ->
  exists r : Q,
    band_power psd freqs fmin fmax = Some r
    /\ r == Spec.band_integral psd freqs fmin fmax
    /\ (forall f p : Q,
          In (f, p) (Spec.restrict fmin fmax (Spec.bins psd freqs))
          <-> In (f, p) (Spec.bins psd freqs) /\ fmin <= f /\ f <= fmax)
    /\ ((forall f, In f freqs -> ~ (fmin <= f /\ f <= fmax)) -> r = 0).
Proof.
  intros Hlen. eexists. split; [apply (band_power_eq _ _ _ _ Hlen) |].
  split; [apply sum_trapz_terms |].
  split; [intros f p; apply restrict_In |].
  intros Hout.
  pose proof (restrict_length psd freqs fmin fmax Hlen) as Hn.
  rewrite (bins_in_band_none freqs fmin fmax Hout) in Hn.
  destruct (Spec.restrict fmin fmax (Spec.bins psd freqs)); [| discriminate].
  reflexivity.
Qed.

Lemma band_power_is_trapezoid_witness :
  exists r : Q,
    band_power [4; 6; 8; 2] [1; 2; 3; 4] 2 3 = Some r
    /\ r == 7
    /\ band_power [4; 6; 8; 2] [1; 2; 3; 4] 5 9 = Some 0.
Proof.
  destruct (band_power_is_trapezoid [4; 6; 8; 2] [1; 2; 3; 4] 2 3 eq_refl)
    as (r & Hr & Heq & _).
  exists r. split; [exact Hr |]. split; [rewrite Heq; reflexivity |].
  destruct (band_power_is_trapezoid [4; 6; 8; 2] [1; 2; 3; 4] 5 9 eq_refl)
    as (r' & Hr' & _ & _ & Hzero).
  rewrite Hr'. f_equal. apply Hzero.
  intros f Hin [Hlo Hhi].
  simpl in Hin.
  destruct Hin as [<- | [<- | [<- | [<- | []]]]]; lra.
Defined.

(** C4. For arrays of equal length with ascending frequencies: a
    non-negative PSD gives a non-negative band power, and an interval that
    has no point in common with the range of the frequency array gives
    exactly zero. *)
Theorem band_power_nonneg_and_zero (psd freqs : list Q) (fmin fmax : Q) :
  length psd = length freqs ->
  ascending freqs ->
  (Forall (fun v => 0 <= v) psd ->
   exists r, band_power psd freqs fmin fmax = Some r /\ 0 <= r)
  /\ (no_overlap freqs fmin fmax -> band_power psd freqs fmin fmax = Some 0).
Proof.
  intros Hlen Hasc. split.
  - intros Hpos. eexists. split; [apply (band_power_eq _ _ _ _ Hlen) |].
    apply sum_nonneg, trapz_terms_nonneg.
    + apply restrict_ascending. unfold Spec.bins.
      now rewrite map_fst_combine.
    + apply List.Forall_forall. intros v Hv.
      apply in_map_iff in Hv as [[f p] [<- Hin]].
      apply restrict_In in Hin as [Hin _].
      apply in_combine_r in Hin.
      rewrite List.Forall_forall in Hpos. now apply Hpos.
  - intros Hno.
    rewrite (band_power_eq _ _ _ _ Hlen).
    pose proof (restrict_length psd freqs fmin fmax Hlen) as Hn.
    rewrite (bins_in_band_none freqs fmin fmax
               (no_overlap_no_bin freqs fmin fmax Hasc Hno)) in Hn.
    destruct (Spec.restrict fmin fmax (Spec.bins psd freqs)); [| discriminate].
    reflexivity.
Qed.

Lemma band_power_nonneg_and_zero_witness :
  (exists r, band_power [4; 6; 8; 2] [1; 2; 3; 4] 2 3 = Some r /\ 0 <= r)
  /\ band_power [4; 6; 8; 2] [1; 2; 3; 4] 5 9 = Some 0.
Proof.
  destruct (band_power_nonneg_and_zero [4; 6; 8; 2] [1; 2; 3; 4] 2 3)
    as [Hpos _].
  { reflexivity. }
  { cbn. repeat split; lra. }
  destruct (band_power_nonneg_and_zero [4; 6; 8; 2] [1; 2; 3; 4] 5 9)
    as [_ Hzero].
  { reflexivity. }
  { cbn. repeat split; lra. }
  split.
  - apply Hpos. repeat constructor; lra.
  - apply Hzero. cbn. unfold Spec.in_band. intros f. lra.
Defined.

(** C9. For arrays of equal length, when exactly one frequency bin falls
    in [fmin, fmax] the result is exactly zero, as for an empty selection:
    one sample point spans no width. *)
Theorem band_power_single_bin (psd freqs : list Q) (fmin fmax : Q) :
  length psd = length freqs ->
  bins_in_band freqs fmin fmax = 1%nat ->
  band_power psd freqs fmin fmax = Some 0.
Proof.
  intros Hlen Hone.
  rewrite (band_power_eq _ _ _ _ Hlen).
  rewrite <- (restrict_length psd freqs fmin fmax Hlen) in Hone.
  destruct (Spec.restrict fmin fmax (Spec.bins psd freqs)) as [| [x y] [| q l]];
    try discriminate.
  reflexivity.
Qed.

Lemma band_power_single_bin_witness :
  bins_in_band [1; 2; 3; 4] 2 (5 # 2) = 1%nat
  /\ band_power [4; 6; 8; 2] [1; 2; 3; 4] 2 (5 # 2) = Some 0.
Proof.
  assert (bins_in_band [1; 2; 3; 4] 2 (5 # 2) = 1%nat) as Hone
    by reflexivity.
  split; [exact Hone |].
  now apply band_power_single_bin.
Defined.

(** ** Running the monad *)

Section Running.

Context `{L : Libs}.

Lemma bind_run {A B : Type} (m : M A) (k : A -> M B) (w : World) :
  (m ≫= k) w
  = match m w with
    | (w', Some a) => k a w'
    | (w', None) => (w', None)
    end.
Proof. reflexivity. Qed.

Lemma bind_lift {A B : Type} (o : option A) (k : A -> M B) (w : World) :
  (lift o ≫= k) w = match o with Some a => k a w | None => (w, None) end.
Proof. rewrite bind_run. unfold lift. now destruct o. Qed.

Lemma bind_Some {A B : Type} (m : M A) (k : A -> M B) (w w' : World) (a : A) :
  m w = (w', Some a) -> (m ≫= k) w = k a w'.
Proof. intros Hm. now rewrite bind_run, Hm. Qed.

Lemma bind_None {A B : Type} (m : M A) (k : A -> M B) (w w' : World) :
  m w = (w', None) -> (m ≫= k) w = (w', None).
Proof. intros Hm. now rewrite bind_run, Hm. Qed.

(** Decoding then filtering is [load]. *)
Lemma bind_load {B : Type} (path : string) (k : mne.Raw -> M B) (w : World) :
  (mne_io_read_raw_edf path ≫= fun raw =>
     lift (raw_filter 1 40 raw) ≫= k) w
  = match load w path with
    | Some raw => k raw w
    | None => (w, None)
    end.
Proof.
  rewrite bind_run. unfold mne_io_read_raw_edf, load.
  destruct (fs w !! path) as [[content | fig] |]; try reflexivity.
  destruct (read_raw_edf path content) as [raw |]; [| reflexivity].
  simpl. apply bind_lift.
Qed.

End Running.

(** ** Picking the first channels *)

Section Picks.

Lemma index_lookup (names : list string) (i : nat) (name : string) :
  NoDup names -> names !! i = Some name -> mne.index name names = Some i.
Proof.
  revert i. induction names as [| n names IH]; intros i Hnd Hi;
    [discriminate |].
  apply NoDup_cons in Hnd as [Hn Hnd].
  destruct i as [| i]; simpl in *.
  - injection Hi as ->. now rewrite String.eqb_refl.
  - destruct (String.eqb n name) eqn:E.
    + apply String.eqb_eq in E as ->.
      exfalso. apply Hn. eapply list_elem_of_lookup_2. exact Hi.
    + now rewrite (IH i Hnd Hi).
Qed.

(** Picking the first [k] channel names yields the first [k] rows. *)
Lemma get_data_firstn (raw : mne.Raw) (k : nat) :
  mne.wf raw ->
  mne.get_data raw (firstn k (mne.ch_names raw))
  = Some {| ncols := mne.n_times raw; rows := firstn k (mne.data raw) |}.
Proof.
  intros (_ & Hnd & Hlen & _). unfold mne.get_data.
  assert (mapM (fun name => i ← mne.index name (mne.ch_names raw);
                            mne.data raw !! i)
               (firstn k (mne.ch_names raw))
          = Some (firstn k (mne.data raw))) as ->; [| reflexivity].
  apply mapM_Some, Forall2_take.
  apply Forall2_same_length_lookup_2; [now symmetry |].
  intros i name row Hname Hrow.
  rewrite (index_lookup _ _ _ Hnd Hname). exact Hrow.
Qed.

Lemma plot_channels_lookup times data offsets n plotted :
  plot_channels times data offsets n = Some plotted ->
  length plotted = n
  /\ forall i, (i < n)%nat ->
       exists row off,
         rows data !! i = Some row /\ offsets !! i = Some off
         /\ plotted !! i = Some (times, map (fun v => v + off) row).
Proof.
  unfold plot_channels. intros Hp. apply mapM_Some in Hp.
  pose proof (Forall2_length _ _ _ Hp) as Hlen.
  rewrite length_seq in Hlen. split; [now symmetry |].
  intros i Hi.
  destruct (plotted !! i) as [p |] eqn:Hpi.
  2:{ apply lookup_ge_None in Hpi. lia. }
  pose proof (lookup_seq_lt 0 n i Hi) as Hseq.
  pose proof (Forall2_lookup_lr _ _ _ _ _ _ Hp Hseq Hpi) as Hf.
  simpl in Hf.
  destruct (rows data !! i) as [row |]; [| discriminate].
  destruct (offsets !! i) as [off |]; [| discriminate].
  simpl in Hf. injection Hf as <-. now exists row, off.
Qed.

Lemma plot_channels_Some times data offsets n :
  (n <= length (rows data))%nat -> (n <= length offsets)%nat ->
  exists plotted, plot_channels times data offsets n = Some plotted.
Proof.
  intros Hr Ho. unfold plot_channels.
  assert (Forall (fun i => (i < n)%nat) (seq 0 n)) as Hall.
  { apply List.Forall_forall. intros i Hi. apply in_seq in Hi. lia. }
  induction (seq 0 n) as [| i l IH].
  - now exists [].
  - inversion Hall as [| ? ? Hi Hall']; subst.
    destruct (IH Hall') as [rest Hrest].
    destruct (lookup_lt_is_Some_2 (rows data) i) as [row Hrow]; [lia |].
    destruct (lookup_lt_is_Some_2 offsets i) as [off Hoff]; [lia |].
    exists ((times, map (fun v => v + off) row) :: rest).
    apply mapM_Some. constructor.
    + now rewrite Hrow, Hoff.
    + now apply mapM_Some.
Qed.

Lemma channel_offsets_length n : length (channel_offsets n) = n.
Proof. unfold channel_offsets, np.arange. now rewrite !length_map, length_seq. Qed.

Lemma channel_offsets_lookup n i :
  (i < n)%nat ->
  channel_offsets n !! i = Some (inject_Z (Z.of_nat i) * 150).
Proof.
  intros Hi. unfold channel_offsets, np.arange.
  rewrite !list_lookup_fmap, (lookup_seq_lt 0 n i Hi). reflexivity.
Qed.

End Picks.

(** ** The per-file pipeline on a supported recording *)

Section PerFile.

Context `{L : Libs} `{!LibsOk L}.

Lemma load_wf (w : World) (path : string) (raw : mne.Raw) :
  load w path = Some raw -> mne.wf raw.
Proof.
  unfold load.
  destruct (fs w !! path) as [[content | fig] |]; try discriminate.
  destruct (read_raw_edf path content) as [raw0 |] eqn:Hread;
    [| discriminate].
  simpl. intros Hfilter.
  apply raw_filter_keeps in Hfilter as (_ & _ & _ & Hwf).
  apply Hwf. eapply read_raw_edf_wf. exact Hread.
Qed.

Lemma times_last (raw : mne.Raw) :
  (0 < mne.n_times raw)%nat ->
  last (mne.times raw)
  = Some (inject_Z (Z.of_nat (pred (mne.n_times raw))) / mne.sfreq raw).
Proof.
  intros Hn. rewrite last_lookup. unfold mne.times, np.arange.
  rewrite !length_map, length_seq, !list_lookup_fmap.
  rewrite lookup_seq_lt by lia. reflexivity.
Qed.

Lemma process_file_run (w : World) (filepath : string) (timescale : Q)
    (idx : nat) (raw : mne.Raw) :
  load w filepath = Some raw ->
  (0 < mne.n_times raw)%nat ->
  exists (fig psd_fig : Figure) (s : Summary.t),
    process_file filepath timescale idx w
    = ({| fs := <[static_path ("psd_" ++ py.str_of_nat idx ++ ".png")
                  := Image psd_fig]>
                  (<[static_path ("time_" ++ py.str_of_nat idx ++ ".png")
                     := Image fig]> (fs w));
          clock := clock w |}, Some s)
    /\ Summary.filename s = os_path.basename filepath
    /\ Summary.channels s = length (mne.ch_names raw)
    /\ Summary.sfreq s = mne.sfreq raw
    /\ Summary.time_plot s = ("time_" ++ py.str_of_nat idx ++ ".png")%string
    /\ Summary.psd_plot s = ("psd_" ++ py.str_of_nat idx ++ ".png")%string
    /\ (let '(psd, freqs) :=
          welch (np2.mean_axis0 (plotted_data raw)) (mne.sfreq raw) 2048 in
        bands_from psd freqs (Summary.bands s))
    /\ yticklabels fig = firstn 6 (mne.ch_names raw)
    /\ xlim fig = Some (0, timescale)
    /\ plot_channels
         (map (fun t => t / mne.sfreq raw) (np.arange (mne.n_times raw)))
         (plotted_data raw)
         (channel_offsets (length (firstn 6 (mne.ch_names raw))))
         (length (firstn 6 (mne.ch_names raw)))
       = Some (lines fig).
Proof.
  intros Hload Hn.
  pose proof (load_wf _ _ _ Hload) as Hwf.
  pose proof Hwf as (_ & _ & Hrows & _).
  unfold process_file.
  rewrite bind_load, Hload.
  rewrite bind_lift, (get_data_firstn raw 6 Hwf).
  cbv zeta. fold (plotted_data raw).
  change (ncols (plotted_data raw)) with (mne.n_times raw).
  destruct (plot_channels_Some
              (map (fun t => t / mne.sfreq raw) (np.arange (mne.n_times raw)))
              (plotted_data raw)
              (channel_offsets (length (firstn 6 (mne.ch_names raw))))
              (length (firstn 6 (mne.ch_names raw))))
    as [plotted Hplot].
  { unfold plotted_data. simpl. rewrite length_map, !length_take. lia. }
  { now rewrite channel_offsets_length. }
  rewrite bind_lift, Hplot.
  rewrite bind_run. unfold savefig at 1, write_file at 1.
  pose proof (welch_shapes (np2.mean_axis0 (plotted_data raw))
                           (mne.sfreq raw) 2048) as Hshape.
  destruct (welch (np2.mean_axis0 (plotted_data raw)) (mne.sfreq raw) 2048)
    as [psd freqs].
  simpl in Hshape.
  rewrite !bind_lift.
  rewrite (band_power_eq psd freqs (1 # 2) 4 Hshape).
  rewrite bind_lift, (band_power_eq psd freqs 4 8 Hshape).
  rewrite bind_lift, (band_power_eq psd freqs 8 13 Hshape).
  rewrite bind_lift, (band_power_eq psd freqs 13 30 Hshape).
  rewrite bind_lift, (band_power_eq psd freqs 30 40 Hshape).
  rewrite bind_run. unfold savefig, write_file. cbn [fs clock].
  rewrite bind_lift, (times_last raw Hn).
  eexists _, _, _. split; [reflexivity |].
  cbn [Summary.filename Summary.channels Summary.sfreq Summary.time_plot
       Summary.psd_plot Summary.bands yticklabels xlim lines].
  repeat split; try reflexivity; try assumption.
  unfold bands_from, BANDS.
  repeat constructor; apply (band_power_eq _ _ _ _ Hshape).
Qed.

End PerFile.

(** ** What a pipeline reads and what it writes *)

Section Noninterference.

Context `{L : Libs}.

Lemma agree_refl w : agree w w.
Proof. intros p _. reflexivity. Qed.

Lemma agree_sym w1 w2 : agree w1 w2 -> agree w2 w1.
Proof. intros H p Hp. symmetry. now apply H. Qed.

Lemma agree_trans w1 w2 w3 : agree w1 w2 -> agree w2 w3 -> agree w1 w3.
Proof. intros H1 H2 p Hp. now rewrite (H1 p Hp), (H2 p Hp). Qed.

Lemma agree_set_clock t w : agree w (set_clock t w).
Proof. intros p _. reflexivity. Qed.

Lemma related_ret {A} (R : A -> A -> Prop) (a b : A) :
  R a b -> related R (mret a) (mret b).
Proof. intros HR w1 w2 Hw. split; [exact Hw | now constructor]. Qed.

Lemma related_bind {A B} (R : A -> A -> Prop) (S : B -> B -> Prop)
    (m1 m2 : M A) (k1 k2 : A -> M B) :
  related R m1 m2 ->
  (forall a b, R a b -> related S (k1 a) (k2 b)) ->
  related S (m1 ≫= k1) (m2 ≫= k2).
Proof.
  intros Hm Hk w1 w2 Hw. rewrite !bind_run.
  destruct (Hm w1 w2 Hw) as [Hw' Hr].
  destruct (m1 w1) as [w1' [a |]], (m2 w2) as [w2' [b |]];
    simpl in *; inversion Hr; subst.
  - now apply Hk.
  - split; [assumption | constructor].
Qed.

Lemma related_lift {A} (o : option A) : related eq (lift o) (lift o).
Proof.
  intros w1 w2 Hw. split; [exact Hw |].
  unfold lift. simpl. destruct o; now constructor.
Qed.

Lemma related_read (path : string) :
  under_static path = false ->
  related eq (mne_io_read_raw_edf path) (mne_io_read_raw_edf path).
Proof.
  intros Hp w1 w2 Hw. split; [exact Hw |].
  unfold mne_io_read_raw_edf. simpl. rewrite (Hw path Hp).
  destruct (match fs w2 !! path with
            | Some (Uploaded content) => read_raw_edf path content
            | _ => None
            end); now constructor.
Qed.

Lemma agree_insert w1 w2 p1 p2 f1 f2 :
  under_static p1 = true -> under_static p2 = true -> agree w1 w2 ->
  agree {| fs := <[p1 := f1]> (fs w1); clock := clock w1 |}
        {| fs := <[p2 := f2]> (fs w2); clock := clock w2 |}.
Proof.
  intros Hp1 Hp2 Hw q Hq. simpl.
  assert (p1 <> q) by (intros ->; congruence).
  assert (p2 <> q) by (intros ->; congruence).
  rewrite !lookup_insert_ne by assumption. now apply Hw.
Qed.

(** Saving figures touches the static directory only. *)
Lemma related_savefig2 (p1 p2 : string) (f1 f2 : Figure) :
  under_static p1 = true -> under_static p2 = true ->
  related eq (savefig p1 f1) (savefig p2 f2).
Proof.
  intros Hp1 Hp2 w1 w2 Hw. split; [| now constructor].
  now apply agree_insert.
Qed.

Lemma related_savefig (path : string) (f1 f2 : Figure) :
  under_static path = true ->
  related eq (savefig path f1) (savefig path f2).
Proof. intros Hp. now apply related_savefig2. Qed.

Lemma related_time : related (fun _ _ => True) time_time time_time.
Proof. intros w1 w2 Hw. split; [exact Hw | now constructor]. Qed.

Lemma related_weaken {A} (R S : A -> A -> Prop) (m1 m2 : M A) :
  (forall a b, R a b -> S a b) -> related R m1 m2 -> related S m1 m2.
Proof.
  intros HRS Hm w1 w2 Hw. destruct (Hm w1 w2 Hw) as [Hw' Hr].
  split; [assumption |].
  destruct Hr; constructor. now apply HRS.
Qed.

Lemma keeps_ret P {A} (a : A) : keeps P (mret a : M A).
Proof. intros w. now split. Qed.

Lemma keeps_bind P {A B} (m : M A) (k : A -> M B) :
  keeps P m -> (forall a, keeps P (k a)) -> keeps P (m ≫= k).
Proof.
  intros Hm Hk w. rewrite bind_run.
  destruct (Hm w) as [Hw Hc].
  destruct (m w) as [w' [a |]]; simpl in *.
  - destruct (Hk a w') as [Hw' Hc'].
    split; [| congruence].
    intros path Hpath. now rewrite Hw', Hw.
  - now split.
Qed.

Lemma keeps_lift P {A} (o : option A) : keeps P (lift o).
Proof. intros w. now split. Qed.

Lemma keeps_read P (path : string) : keeps P (mne_io_read_raw_edf path).
Proof. intros w. now split. Qed.

Lemma keeps_write (P : string -> Prop) (path : string) (f : File) :
  ~ P path -> keeps P (write_file path f).
Proof.
  intros Hp w. split; [| reflexivity].
  intros q Hq. simpl.
  assert (path <> q) by (intros ->; contradiction).
  now rewrite lookup_insert_ne.
Qed.

Lemma keeps_savefig (P : string -> Prop) (path : string) (fig : Figure) :
  ~ P path -> keeps P (savefig path fig).
Proof. apply keeps_write. Qed.

Lemma keeps_time P : keeps P time_time.
Proof. intros w. now split. Qed.

Lemma keeps_agree {A} (m : M A) (w : World) :
  keeps is_upload m -> agree w (fst (m w)).
Proof. intros Hm path Hpath. symmetry. now apply (Hm w). Qed.

Lemma static_not_upload (path : string) :
  under_static path = true -> ~ is_upload path.
Proof. unfold is_upload. congruence. Qed.

Lemma time_plot_not_average (s : string) :
  ~ is_average (static_path ("time_" ++ s)).
Proof. intros [s' Hs]. discriminate Hs. Qed.

Lemma psd_plot_not_average (s : string) :
  ~ is_average (static_path ("psd_" ++ s)).
Proof. intros [s' Hs]. discriminate Hs. Qed.

(** Every image name the code builds lands under the static directory. *)
Lemma time_plot_under_static (s : string) :
  under_static (os_path.join STATIC_FOLDER ("time_" ++ s)) = true.
Proof. reflexivity. Qed.

Lemma psd_plot_under_static (s : string) :
  under_static (os_path.join STATIC_FOLDER ("psd_" ++ s)) = true.
Proof. reflexivity. Qed.

Lemma average_under_static (s : string) :
  under_static (os_path.join STATIC_FOLDER ("average_" ++ s)) = true.
Proof. reflexivity. Qed.

End Noninterference.

Create HintDb pipeline.

#[local] Hint Resolve related_lift related_read related_savefig related_time
  keeps_lift keeps_read keeps_savefig keeps_time keeps_ret
  time_plot_under_static psd_plot_under_static average_under_static
  static_not_upload time_plot_not_average psd_plot_not_average
  : pipeline.

(** One step of a proof by [related_bind] / [keeps_bind]. *)
Ltac related_step :=
  first
    [ apply related_ret
    | eapply related_bind;
      [ solve [eauto with pipeline] | intros ? ? <- ] ].

Ltac keeps_step :=
  first
    [ apply keeps_ret
    | apply keeps_bind; [ solve [eauto with pipeline] | intros ? ] ].

Section PipelinesRelated.

Context `{L : Libs}.

(** The summary of [process_file] depends on the file at [filepath]
    only: not on the display limit, not on the images or the clock. *)
Lemma process_file_related (filepath : string) (t1 t2 : Q) (idx : nat) :
  under_static filepath = false ->
  related eq (process_file filepath t1 idx) (process_file filepath t2 idx).
Proof.
  intros Hp. unfold process_file. cbv zeta.
  do 4 related_step.
  eapply related_bind; [apply related_savefig, time_plot_under_static |].
  intros _ _ _.
  destruct (welch _ _ _) as [psd freqs].
  do 5 related_step.
  eapply related_bind; [apply related_savefig, psd_plot_under_static |].
  intros _ _ _.
  related_step. related_step. reflexivity.
Qed.

(** The per-file pipeline writes its two images and nothing else. *)
Lemma process_file_keeps (P : string -> Prop) (filepath : string) (t : Q)
    (idx : nat) :
  (forall s, ~ P (static_path ("time_" ++ s))) ->
  (forall s, ~ P (static_path ("psd_" ++ s))) ->
  keeps P (process_file filepath t idx).
Proof.
  intros Htime Hpsd. unfold process_file. cbv zeta.
  do 4 keeps_step.
  apply keeps_bind; [apply keeps_savefig, Htime | intros _].
  destruct (welch _ _ _) as [psd freqs].
  do 5 keeps_step.
  apply keeps_bind; [apply keeps_savefig, Hpsd | intros _].
  keeps_step. keeps_step.
Qed.

Lemma process_file_keeps_uploads (filepath : string) (t : Q) (idx : nat) :
  keeps is_upload (process_file filepath t idx).
Proof.
  apply process_file_keeps; intros s;
    apply static_not_upload; reflexivity.
Qed.

Lemma process_file_keeps_averages (filepath : string) (t : Q) (idx : nat) :
  keeps is_average (process_file filepath t idx).
Proof.
  apply process_file_keeps;
    [apply time_plot_not_average | apply psd_plot_not_average].
Qed.

End PipelinesRelated.

(** ** Averaging matrices *)

Section Averaging.

Lemma entry_lookup (m : list (list Q)) (c t : nat) (row : list Q) (v : Q) :
  m !! c = Some row -> row !! t = Some v -> entry m c t = v.
Proof.
  intros Hc Ht. unfold entry.
  rewrite (nth_lookup_Some _ _ _ _ Hc). now apply nth_lookup_Some.
Qed.

Lemma shaped_lookup n k m c t :
  shaped n k m -> (c < n)%nat -> (t < k)%nat ->
  exists row v, m !! c = Some row /\ row !! t = Some v.
Proof.
  intros [Hn Hk] Hc Ht.
  destruct (lookup_lt_is_Some_2 m c) as [row Hrow]; [lia |].
  rewrite List.Forall_forall in Hk.
  assert (length row = k) as Hlen.
  { apply Hk. apply list_elem_of_In. eapply list_elem_of_lookup_2. exact Hrow. }
  destruct (lookup_lt_is_Some_2 row t) as [v Hv]; [lia |].
  now exists row, v.
Qed.

Lemma add_shaped n k x y :
  shaped n k x -> shaped n k y -> shaped n k (np2.add x y).
Proof.
  intros [Hx Hxk] [Hy Hyk]. unfold np2.add. split.
  - rewrite length_zip_with. lia.
  - apply List.Forall_forall. intros row Hrow.
    apply list_elem_of_In, list_elem_of_lookup in Hrow as [i Hi].
    apply lookup_zip_with_Some in Hi as (rx & ry & -> & Hrx & Hry).
    rewrite List.Forall_forall in Hxk, Hyk.
    rewrite length_zip_with.
    rewrite (Hxk rx), (Hyk ry); [lia | |];
      apply list_elem_of_In; eapply list_elem_of_lookup_2; eassumption.
Qed.

Lemma add_entry n k x y c t :
  shaped n k x -> shaped n k y -> (c < n)%nat -> (t < k)%nat ->
  entry (np2.add x y) c t = entry x c t + entry y c t.
Proof.
  intros Hx Hy Hc Ht.
  destruct (shaped_lookup _ _ _ _ _ Hx Hc Ht) as (rx & vx & Hrx & Hvx).
  destruct (shaped_lookup _ _ _ _ _ Hy Hc Ht) as (ry & vy & Hry & Hvy).
  rewrite (entry_lookup _ _ _ _ _ Hrx Hvx), (entry_lookup _ _ _ _ _ Hry Hvy).
  apply (entry_lookup _ _ _ (zip_with Qplus rx ry)).
  - unfold np2.add. rewrite lookup_zip_with, Hrx, Hry. reflexivity.
  - rewrite lookup_zip_with, Hvx, Hvy. reflexivity.
Qed.

Lemma fold_add_shaped n k ms m0 :
  shaped n k m0 -> Forall (shaped n k) ms ->
  shaped n k (fold_left np2.add ms m0).
Proof.
  intros H0 Hms. revert m0 H0.
  induction Hms as [| m ms Hm _ IH]; intros m0 H0; [exact H0 |].
  simpl. apply IH. now apply add_shaped.
Qed.

Lemma fold_add_entry n k ms m0 c t :
  shaped n k m0 -> Forall (shaped n k) ms -> (c < n)%nat -> (t < k)%nat ->
  entry (fold_left np2.add ms m0) c t
  == entry m0 c t + np.sum (map (fun m => entry m c t) ms).
Proof.
  intros H0 Hms Hc Ht. revert m0 H0.
  induction Hms as [| m ms Hm _ IH]; intros m0 H0.
  - simpl. unfold np.sum. simpl. ring.
  - simpl. rewrite (IH _ (add_shaped _ _ _ _ H0 Hm)).
    rewrite (add_entry n k) by assumption.
    rewrite sum_cons. ring.
Qed.

Lemma div_entry n k m (d : Q) c t :
  shaped n k m -> (c < n)%nat -> (t < k)%nat ->
  entry (map (map (fun v => v / d)) m) c t = entry m c t / d.
Proof.
  intros Hm Hc Ht.
  destruct (shaped_lookup _ _ _ _ _ Hm Hc Ht) as (row & v & Hrow & Hv).
  rewrite (entry_lookup _ _ _ _ _ Hrow Hv).
  apply (entry_lookup _ _ _ (map (fun v => v / d) row)).
  - now rewrite list_lookup_fmap, Hrow.
  - now rewrite list_lookup_fmap, Hv.
Qed.

Lemma div_shaped n k m (d : Q) :
  shaped n k m -> shaped n k (map (map (fun v => v / d)) m).
Proof.
  intros [Hn Hk]. split; [now rewrite length_map |].
  apply Forall_map. eapply List.Forall_impl; [| exact Hk].
  intros row Hrow. simpl. now rewrite length_map.
Qed.

Lemma take_cols_shaped n k (a : Array2) :
  length (rows a) = n -> rectangular a -> (k <= ncols a)%nat ->
  shaped n k (rows (np2.take_cols k a)).
Proof.
  intros Hn Hrect Hk. split; simpl; [now rewrite length_map |].
  apply Forall_map. eapply List.Forall_impl; [| exact Hrect].
  intros row Hrow. cbv beta in *. rewrite length_take. lia.
Qed.

Lemma take_cols_entry n k (a : Array2) c t :
  length (rows a) = n -> rectangular a -> (k <= ncols a)%nat ->
  (c < n)%nat -> (t < k)%nat ->
  entry (rows (np2.take_cols k a)) c t = entry (rows a) c t.
Proof.
  intros Hn Hrect Hk Hc Ht.
  assert (shaped n (ncols a) (rows a)) as Ha by (split; assumption).
  destruct (shaped_lookup _ _ _ _ _ Ha Hc (Nat.lt_le_trans _ _ _ Ht Hk))
    as (row & v & Hrow & Hv).
  rewrite (entry_lookup _ _ _ _ _ Hrow Hv).
  apply (entry_lookup _ _ _ (firstn k row)).
  - simpl. now rewrite list_lookup_fmap, Hrow.
  - now rewrite lookup_take_lt.
Qed.

Lemma fold_min_le (l : list nat) (x : nat) :
  (fold_left Nat.min l x <= x)%nat
  /\ Forall (fun y => (fold_left Nat.min l x <= y)%nat) l.
Proof.
  revert x. induction l as [| y l IH]; intros x; simpl.
  - split; [lia | constructor].
  - destruct (IH (Nat.min x y)) as [H1 H2]. split; [lia |].
    constructor; [lia | assumption].
Qed.

Lemma py_min_le (l : list nat) (m : nat) :
  py.min l = Some m -> Forall (fun y => (m <= y)%nat) l.
Proof.
  destruct l as [| x l]; [discriminate |]. simpl. intros [= <-].
  destruct (fold_min_le l x). now constructor.
Qed.

(** Lines 92-93 on rectangular arrays with one row count: the result
    has the smallest column count, and each of its entries is the mean
    of the entries of the arrays at that place. *)
Lemma average_data_spec (arrays : list Array2) (n : nat) :
  arrays <> [] ->
  Forall rectangular arrays ->
  Forall (fun a => length (rows a) = n) arrays ->
  exists avg,
    average_data arrays = Some avg
    /\ py.min (map ncols arrays) = Some (ncols avg)
    /\ shaped n (ncols avg) (rows avg)
    /\ forall c t, (c < n)%nat -> (t < ncols avg)%nat ->
         entry (rows avg) c t
         == sum_entries arrays c t
            / inject_Z (Z.of_nat (length arrays)).
Proof.
  intros Hne Hrect Hrows.
  destruct arrays as [| a rest]; [contradiction |].
  unfold average_data.
  destruct (py.min (map ncols (a :: rest))) as [k |] eqn:Hmin;
    [| discriminate].
  pose proof (py_min_le _ _ Hmin) as Hle.
  cbn [mbind option_bind map]. unfold np2.mean_stack.
  assert (Forall (fun d => shaped n k (rows (np2.take_cols k d))) (a :: rest))
    as Hshaped.
  { apply List.Forall_forall. intros d Hd.
    rewrite List.Forall_forall in Hrect, Hrows, Hle.
    apply take_cols_shaped; [now apply Hrows | now apply Hrect |].
    apply Hle. now apply in_map. }
  assert (Forall (fun d => ncols (np2.take_cols k d) = k) (a :: rest))
    as Hcols.
  { apply List.Forall_forall. intros d Hd.
    rewrite List.Forall_forall in Hle. simpl.
    specialize (Hle (ncols d) (in_map ncols _ _ Hd)). lia. }
  inversion Hshaped as [| ? ? Ha Hrest]; subst.
  inversion Hcols as [| ? ? Hca Hcrest]; subst.
  assert (forallb (np2.same_shape (np2.take_cols k a))
                  (map (np2.take_cols k) rest) = true) as ->.
  { apply forallb_forall. intros d' Hd'.
    apply in_map_iff in Hd' as (d & <- & Hd).
    rewrite List.Forall_forall in Hrest, Hcrest.
    unfold np2.same_shape.
    destruct Ha as [Han _]. destruct (Hrest d Hd) as [Hdn _].
    rewrite Han, Hdn, Hca, (Hcrest d Hd), !Nat.eqb_refl. reflexivity. }
  assert (Forall (shaped n k) (map rows (map (np2.take_cols k) rest)))
    as Hms.
  { rewrite map_map. apply Forall_map. exact Hrest. }
  eexists. split; [reflexivity |].
  cbn [ncols rows]. rewrite Hca.
  split; [reflexivity |].
  split; [apply div_shaped, fold_add_shaped; assumption |].
  intros c t Hc Ht.
  rewrite (div_entry n k) by (try apply fold_add_shaped; assumption).
  rewrite (fold_add_entry n k) by assumption.
  unfold sum_entries. cbn [map]. rewrite sum_cons.
  cbn [length]. rewrite !length_map.
  rewrite List.Forall_forall in Hrect, Hrows, Hle.
  rewrite (take_cols_entry n k a) by
    (first [ apply Hrows | apply Hrect | apply Hle | idtac ];
     first [ now left | assumption | idtac ]).
  assert (map (fun m => entry m c t) (map rows (map (np2.take_cols k) rest))
          = map (fun d => entry (rows d) c t) rest) as ->.
  { rewrite !map_map. apply map_ext_in. intros d Hd.
    apply (take_cols_entry n k); try assumption.
    - apply Hrows. now right.
    - apply Hrect. now right.
    - apply Hle. apply in_map. now right. }
  reflexivity.
Qed.

End Averaging.

(** ** The aggregate pipeline *)

Section Aggregate.

Context `{L : Libs}.

Lemma load_all_related (paths : list string) :
  Forall (fun p => under_static p = false) paths ->
  forall all_data ch_names sfreq,
    related eq (load_all paths all_data ch_names sfreq)
               (load_all paths all_data ch_names sfreq).
Proof.
  induction 1 as [| fp rest Hfp _ IH]; intros all_data ch_names sfreq.
  - now apply related_ret.
  - cbn [load_all]. do 3 related_step. apply IH.
Qed.

Lemma load_all_keeps P (paths : list string) all_data ch_names sfreq :
  keeps P (load_all paths all_data ch_names sfreq).
Proof.
  revert all_data ch_names sfreq.
  induction paths as [| fp rest IH]; intros all_data ch_names sfreq.
  - apply keeps_ret.
  - cbn [load_all]. do 3 keeps_step. apply IH.
Qed.

(** The aggregate pipeline depends on the files at [paths] and on the
    clock (for the name of its image) only. *)
Lemma process_average_related (paths : list string) (t1 t2 : Q) :
  Forall (fun p => under_static p = false) paths ->
  related (fun _ _ => True)
          (process_average paths t1) (process_average paths t2).
Proof.
  intros Hp. unfold process_average.
  eapply related_bind; [apply load_all_related, Hp |].
  intros [[all_data ch_names] sfreq] ? <-. cbv zeta.
  do 2 related_step.
  eapply related_bind; [apply related_time |]. intros now1 now2 _.
  eapply related_bind;
    [apply related_savefig2; apply average_under_static |].
  intros _ _ _. now apply related_ret.
Qed.

Lemma process_average_keeps (paths : list string) (t : Q) :
  keeps is_upload (process_average paths t).
Proof.
  unfold process_average.
  apply keeps_bind; [apply load_all_keeps |].
  intros [[all_data ch_names] sfreq]. cbv zeta.
  do 3 keeps_step.
  apply keeps_bind;
    [apply keeps_savefig, static_not_upload; reflexivity | intros _].
  apply keeps_ret.
Qed.

Lemma average_if_many_related (paths : list string) (t1 t2 : Q) :
  Forall (fun p => under_static p = false) paths ->
  related (fun _ _ => True)
          (average_if_many paths t1) (average_if_many paths t2).
Proof.
  intros Hp. unfold average_if_many.
  destruct (1 <? length paths)%nat; [| now apply related_ret].
  eapply related_bind; [apply process_average_related, Hp |].
  intros ? ? _. now apply related_ret.
Qed.

Lemma average_if_many_keeps (paths : list string) (t : Q) :
  keeps is_upload (average_if_many paths t).
Proof.
  unfold average_if_many.
  destruct (1 <? length paths)%nat; [| apply keeps_ret].
  apply keeps_bind; [apply process_average_keeps |].
  intros ?. apply keeps_ret.
Qed.

Context `{!LibsOk L}.

(** The loop of lines 85-90 over files that load: the matrices are
    collected in order, and [ch_names] and [sfreq] are those of the
    file loaded last. *)
Lemma load_all_run (w : World) (paths : list string) (raws : list mne.Raw) :
  loads w paths raws ->
  forall all_data ch_names sfreq,
    load_all paths all_data ch_names sfreq w
    = (w, Some (all_data ++ map plotted_data raws,
                from_option (fun r => firstn 6 (mne.ch_names r))
                            ch_names (last raws),
                from_option mne.sfreq sfreq (last raws))).
Proof.
  induction 1 as [| fp raw paths raws Hload _ IH];
    intros all_data ch_names sfreq.
  - cbn. now rewrite app_nil_r.
  - cbn [load_all]. rewrite bind_load, Hload.
    rewrite bind_lift, (get_data_firstn raw 6 (load_wf _ _ _ Hload)).
    fold (plotted_data raw). rewrite IH.
    rewrite <- app_assoc. cbn [app map].
    destruct raws as [| raw' raws]; [reflexivity |].
    change (last (raw :: raw' :: raws)) with (last (raw' :: raws)).
    destruct (last_is_Some (raw' :: raws)) as [_ [r ->]];
      [discriminate | reflexivity].
Qed.

Lemma plotted_data_rectangular (raw : mne.Raw) :
  mne.wf raw -> rectangular (plotted_data raw).
Proof.
  intros (_ & _ & _ & Hrows). unfold rectangular, plotted_data. simpl.
  apply Forall_map, Forall_take.
  eapply List.Forall_impl; [| exact Hrows].
  intros row Hrow. simpl. now rewrite length_map.
Qed.

Lemma plotted_data_rows (raw : mne.Raw) :
  mne.wf raw ->
  length (rows (plotted_data raw)) = length (firstn 6 (mne.ch_names raw)).
Proof.
  intros (_ & _ & Hlen & _). unfold plotted_data. simpl.
  now rewrite length_map, !length_take, Hlen.
Qed.

(** The aggregate pipeline over files that load, in terms of lines
    92-93: it raises where [average_data] does, and otherwise saves one
    figure, labelled and time-scaled by the recording loaded last. *)
Lemma process_average_run (w : World) (paths : list string)
    (raws : list mne.Raw) (last_raw : mne.Raw) (timescale : Q) :
  loads w paths raws ->
  last raws = Some last_raw ->
  match average_data (map plotted_data raws) with
  | None => snd (process_average paths timescale w) = None
  | Some avg =>
      length (rows avg) = length (firstn 6 (mne.ch_names last_raw)) ->
      exists fig,
        process_average paths timescale w
        = ({| fs := <[static_path
                        ("average_" ++ py.str_of_int (clock w) ++ ".png")
                      := Image fig]> (fs w);
              clock := clock w |},
           Some ("average_" ++ py.str_of_int (clock w) ++ ".png")%string)
        /\ yticklabels fig = firstn 6 (mne.ch_names last_raw)
        /\ xlim fig = Some (0, timescale)
        /\ plot_channels
             (map (fun t => t / mne.sfreq last_raw) (np.arange (ncols avg)))
             avg
             (channel_offsets (length (firstn 6 (mne.ch_names last_raw))))
             (length (firstn 6 (mne.ch_names last_raw)))
           = Some (lines fig)
  end.
Proof.
  intros Hloads Hlast. unfold process_average.
  rewrite bind_run, (load_all_run w paths raws Hloads). cbn [app].
  rewrite Hlast. cbn [from_option]. cbv zeta.
  rewrite bind_lift.
  destruct (average_data (map plotted_data raws)) as [avg |];
    [| reflexivity].
  intros Hrows.
  destruct (plot_channels_Some
              (map (fun t => t / mne.sfreq last_raw) (np.arange (ncols avg)))
              avg
              (channel_offsets (length (firstn 6 (mne.ch_names last_raw))))
              (length (firstn 6 (mne.ch_names last_raw))))
    as [plotted Hplot].
  { lia. }
  { now rewrite channel_offsets_length. }
  rewrite bind_lift, Hplot.
  eexists. split; [reflexivity |].
  cbn [yticklabels xlim lines]. now repeat split.
Qed.

End Aggregate.

(** ** The small instance satisfies the assumptions *)

Section ToyOk.

Lemma toy_decode_wf (content : list Byte.byte) (raw : mne.Raw) :
  Toy.decode content = Some raw -> mne.wf raw.
Proof.
  unfold Toy.decode.
  destruct content as [| m [| n [| f samples]]]; try discriminate.
  set (nch := Z.to_nat (Toy.num n)).
  destruct ((1 <=? nch)%nat && (nch <=? 8)%nat)%bool eqn:Hn;
    [| discriminate].
  apply andb_prop in Hn as [H1 H8].
  apply Nat.leb_le in H1, H8.
  intros [= <-]. unfold mne.wf. cbn [mne.ch_names mne.data mne.n_times].
  assert (length (if (Toy.num m =? 0)%Z then Toy.montage_a
                  else Toy.montage_b) = 8%nat) as Hlen
    by (destruct (Toy.num m =? 0)%Z; reflexivity).
  repeat split.
  - intros Hnil. apply (f_equal length) in Hnil.
    rewrite length_take, Hlen in Hnil. simpl in Hnil. lia.
  - eapply sublist_NoDup; [| apply sublist_take].
    destruct (Toy.num m =? 0)%Z; apply NoDup_ListNoDup;
      repeat constructor; simpl; intuition discriminate.
  - rewrite length_map, length_seq, length_take, Hlen. lia.
  - apply Forall_map. apply List.Forall_forall. intros c _.
    simpl. now rewrite length_map.
Qed.

#[local] Instance toy_ok : LibsOk Toy.libs.
Proof.
  split.
  - intros path content raw. apply toy_decode_wf.
  - intros l h raw raw'. cbn. unfold Toy.filter.
    destruct (Qle_bool (mne.sfreq raw / 2) h); [discriminate |].
    intros [= <-]. auto.
  - intros x fs n. cbn. unfold np.arange.
    now rewrite !length_map, length_seq.
Qed.

End ToyOk.

(** ** The per-file pipeline: claims C3 and C7 *)

(** C3. For every supported recording (a stored file that MNE decodes and
    filters, with at least one sample), the per-file pipeline returns a
    summary whose "channels" field is the full channel count of the file,
    and saves a time-domain figure that shows exactly the first
    min(6, channels) channels: their names as tick labels, and one line per
    channel, in file order, holding that channel's samples in microvolts
    shifted by 150 per channel. *)
Theorem process_file_first_six_channels `{L : Libs} `{!LibsOk L}
    (w : World) (filepath : string) (timescale : Q) (idx : nat)
    (content : list Byte.byte) (raw0 raw : mne.Raw) :
  fs w !! filepath = Some (Uploaded content) ->
  read_raw_edf filepath content = Some raw0 ->
  raw_filter 1 40 raw0 = Some raw ->
  (0 < mne.n_times raw0)%nat ->
  exists (w' : World) (s : Summary.t) (fig : Figure),
    process_file filepath timescale idx w = (w', Some s)
    /\ Summary.channels s = length (mne.ch_names raw0)
    /\ fs w' !! static_path (Summary.time_plot s) = Some (Image fig)
    /\ yticklabels fig = firstn 6 (mne.ch_names raw0)
    /\ length (lines fig) = Nat.min 6 (length (mne.ch_names raw0))
    /\ forall i, (i < Nat.min 6 (length (mne.ch_names raw0)))%nat ->
         exists row,
           mne.data raw !! i = Some row
           /\ lines fig !! i
              = Some (map (fun t => t / mne.sfreq raw)
                          (np.arange (mne.n_times raw)),
                      map (fun v => v * 1000000
                                    + inject_Z (Z.of_nat i) * 150) row).
Proof.
  intros Hfile Hread Hfilter Hn.
  assert (load w filepath = Some raw) as Hload.
  { unfold load. rewrite Hfile, Hread. exact Hfilter. }
  destruct (raw_filter_keeps _ _ _ _ Hfilter) as (Hnames & _ & Htimes & _).
  rewrite <- Hnames, <- Htimes in *.
  destruct (process_file_run w filepath timescale idx raw Hload Hn)
    as (fig & psd_fig & s & Hrun & _ & Hch & _ & Htp & _ & _ & Hlab & _ & Hplot).
  eexists _, s, fig. split; [exact Hrun |].
  split; [exact Hch |].
  split.
  { cbn [fs]. rewrite Htp.
    rewrite lookup_insert_ne by discriminate.
    apply lookup_insert_eq. }
  split; [exact Hlab |].
  apply plot_channels_lookup in Hplot as [Hlen Hlines].
  rewrite length_take in Hlen, Hlines.
  split; [exact Hlen |].
  intros i Hi.
  destruct (Hlines i Hi) as (row & off & Hrow & Hoff & Hline).
  rewrite channel_offsets_lookup in Hoff by lia.
  injection Hoff as <-.
  unfold plotted_data in Hrow. cbn [rows np2.scale] in Hrow.
  rewrite list_lookup_fmap in Hrow.
  destruct (firstn 6 (mne.data raw) !! i) as [row0 |] eqn:Hrow0;
    [| discriminate].
  injection Hrow as <-.
  exists row0. split.
  - rewrite lookup_take_lt in Hrow0 by lia. exact Hrow0.
  - rewrite Hline. f_equal. f_equal. now rewrite map_map.
Qed.

Lemma process_file_first_six_channels_witness :
  exists (w' : World) (s : Summary.t) (fig : Figure),
    @process_file Toy.libs "uploads/a.edf" 1 0
                  (Toy.stored Toy.seven Toy.one_channel) = (w', Some s)
    /\ Summary.channels s = 7%nat
    /\ fs w' !! "static/time_0.png"%string = Some (Image fig)
    /\ yticklabels fig = ["Fp1"; "Fp2"; "C3"; "C4"; "O1"; "O2"]%string
    /\ length (lines fig) = 6%nat.
Proof.
  edestruct (@process_file_first_six_channels Toy.libs toy_ok
               (Toy.stored Toy.seven Toy.one_channel) "uploads/a.edf" 1 0
               Toy.seven)
    as (w' & s & fig & Hrun & Hch & Hfile & Hlab & Hlen & _);
    [reflexivity | reflexivity | reflexivity | cbn; lia |].
  exists w', s, fig. split; [exact Hrun |].
  assert (Summary.time_plot s = "time_0.png"%string) as Htp.
  { vm_compute in Hrun. now injection Hrun as _ <-. }
  rewrite Htp in Hfile.
  repeat split; assumption.
Defined.

Section Bands.

Context `{L : Libs}.

(** Whenever the per-file pipeline returns, the band powers of its
    summary are [band_power] over the ranges of [BANDS] on the pair of
    arrays that [welch] returned for the channel mean of the plotted
    data of the file. *)
Lemma process_file_bands filepath timescale idx w w' s :
  process_file filepath timescale idx w = (w', Some s) ->
  exists raw data,
    load w filepath = Some raw
    /\ mne.get_data raw (firstn 6 (mne.ch_names raw)) = Some data
    /\ let spectrum := welch (np2.mean_axis0 (np2.scale data 1000000))
                             (mne.sfreq raw) 2048 in
       bands_from (fst spectrum) (snd spectrum) (Summary.bands s).
Proof.
  unfold process_file. rewrite bind_load.
  destruct (load w filepath) as [raw |] eqn:Hload; [| discriminate].
  rewrite bind_lift.
  destruct (mne.get_data raw (firstn 6 (mne.ch_names raw))) as [data |]
    eqn:Hdata; [| discriminate].
  cbv zeta. rewrite bind_lift.
  destruct (plot_channels _ _ _ _) as [plotted |]; [| discriminate].
  rewrite bind_run. unfold savefig at 1, write_file at 1.
  destruct (welch _ _ _) as [psd freqs] eqn:Hwelch.
  rewrite bind_lift.
  destruct (band_power psd freqs (1 # 2) 4) as [delta |] eqn:Hdelta;
    [| discriminate].
  rewrite bind_lift.
  destruct (band_power psd freqs 4 8) as [theta |] eqn:Htheta;
    [| discriminate].
  rewrite bind_lift.
  destruct (band_power psd freqs 8 13) as [alpha |] eqn:Halpha;
    [| discriminate].
  rewrite bind_lift.
  destruct (band_power psd freqs 13 30) as [beta |] eqn:Hbeta;
    [| discriminate].
  rewrite bind_lift.
  destruct (band_power psd freqs 30 40) as [gamma |] eqn:Hgamma;
    [| discriminate].
  rewrite bind_run. unfold savefig, write_file. rewrite bind_lift.
  destruct (last (mne.times raw)) as [t_end |]; [| discriminate].
  intros [= _ <-]. cbn [Summary.bands].
  exists raw, data. split; [reflexivity |]. split; [exact Hdata |].
  cbv zeta. rewrite Hwelch. cbn [fst snd]. unfold bands_from, BANDS.
  repeat constructor; assumption.
Qed.

End Bands.

(** C7. Every summary the per-file pipeline returns carries five band
    powers, each the value of [band_power] on the pair of arrays that
    [welch] returned for the channel mean of the file's plotted data, over
    five fixed ranges: Delta 0.5-4, Theta 4-8, Alpha 8-13, Beta 13-30 and
    Gamma 30-40, whatever the file, the display limit and the index.  Two
    of these ranges have a frequency in common only when they are
    neighbours, and then only their shared boundary; together they cover
    exactly 0.5 to 40. *)
Theorem band_ranges_fixed `{L : Libs} :
  (forall filepath timescale idx w w' s,
      process_file filepath timescale idx w = (w', Some s) ->
      exists raw data,
        load w filepath = Some raw
        /\ mne.get_data raw (firstn 6 (mne.ch_names raw)) = Some data
        /\ let spectrum := welch (np2.mean_axis0 (np2.scale data 1000000))
                                 (mne.sfreq raw) 2048 in
           let psd := fst spectrum in
           let freqs := snd spectrum in
           Summary.bands s
           = map (fun '(label, lo, hi) =>
                    (label, default 0 (band_power psd freqs lo hi))) BANDS
           /\ bands_from psd freqs (Summary.bands s))
  /\ BANDS
     = [ ("Delta (0.5–4 Hz)"%string, 1 # 2, 4);
         ("Theta (4–8 Hz)"%string, 4, 8);
         ("Alpha (8–13 Hz)"%string, 8, 13);
         ("Beta (13–30 Hz)"%string, 13, 30);
         ("Gamma (30–40 Hz)"%string, 30, 40) ]
  /\ (forall i j label1 lo1 hi1 label2 lo2 hi2,
        (i < j)%nat ->
        BANDS !! i = Some (label1, lo1, hi1) ->
        BANDS !! j = Some (label2, lo2, hi2) ->
        forall f : Q,
          Spec.in_band lo1 hi1 f -> Spec.in_band lo2 hi2 f ->
          j = S i /\ f == hi1 /\ f == lo2)
  /\ (forall f : Q,
        (1 # 2) <= f /\ f <= 40
        <-> Exists (fun '(label, lo, hi) => Spec.in_band lo hi f) BANDS).
Proof.
  split.
  { intros filepath timescale idx w w' s Hrun.
    destruct (process_file_bands _ _ _ _ _ _ Hrun)
      as (raw & data & Hload & Hdata & Hfrom).
    exists raw, data. split; [exact Hload |]. split; [exact Hdata |].
    cbv zeta in *. split; [| exact Hfrom].
    unfold bands_from, BANDS in Hfrom.
    repeat match goal with
           | H : Forall2 _ (_ :: _) _ |- _ => inversion H; clear H; subst
           | H : Forall2 _ [] _ |- _ => inversion H; clear H; subst
           | p : (string * Q)%type |- _ => destruct p
           | H : _ /\ _ |- _ => destruct H
           end.
    subst. unfold BANDS. cbn [map].
    repeat match goal with
           | H : band_power _ _ _ _ = Some _ |- _ => rewrite H; clear H
           end.
    reflexivity. }
  split; [reflexivity |].
  split.
  - intros i j label1 lo1 hi1 label2 lo2 hi2 Hij H1 H2 f [Ha Hb] [Hc Hd].
    destruct i as [| [| [| [| [| i]]]]];
      destruct j as [| [| [| [| [| j]]]]];
      try lia; try discriminate;
      cbn in H1, H2;
      injection H1 as <- <- <-; injection H2 as <- <- <-;
      first [ split; [reflexivity | split; lra] | exfalso; lra ].
  - intros f. unfold BANDS, Spec.in_band. split.
    + intros [Hlo Hhi].
      destruct (Qlt_le_dec f 4); [left; lra | right].
      destruct (Qlt_le_dec f 8); [left; lra | right].
      destruct (Qlt_le_dec f 13); [left; lra | right].
      destruct (Qlt_le_dec f 30); [left; lra | right].
      left. lra.
    + intros H.
      repeat match goal with
             | H : Exists _ (_ :: _) |- _ => inversion H; clear H; subst
             | H : Exists _ [] |- _ => inversion H
             end; lra.
Qed.

Lemma band_ranges_fixed_witness :
  exists w' s raw data,
    @process_file Toy.libs "uploads/a.edf" 1 0
                  (Toy.stored Toy.seven Toy.one_channel) = (w', Some s)
    /\ @load Toy.libs (Toy.stored Toy.seven Toy.one_channel) "uploads/a.edf"
       = Some raw
    /\ mne.get_data raw (firstn 6 (mne.ch_names raw)) = Some data
    /\ @bands_from
         (fst (@welch Toy.libs (np2.mean_axis0 (np2.scale data 1000000))
                      (mne.sfreq raw) 2048))
         (snd (@welch Toy.libs (np2.mean_axis0 (np2.scale data 1000000))
                      (mne.sfreq raw) 2048))
         (Summary.bands s)
    /\ map fst (Summary.bands s)
       = ["Delta (0.5–4 Hz)"; "Theta (4–8 Hz)"; "Alpha (8–13 Hz)";
          "Beta (13–30 Hz)"; "Gamma (30–40 Hz)"]%string
    /\ Exists (fun '(label, lo, hi) => Spec.in_band lo hi 4) BANDS.
Proof.
  destruct (@band_ranges_fixed Toy.libs) as (Hbands & _ & _ & Hspan).
  destruct (@process_file Toy.libs "uploads/a.edf" 1 0
              (Toy.stored Toy.seven Toy.one_channel)) as [w' [s |]] eqn:Hrun;
    [| vm_compute in Hrun; discriminate].
  destruct (Hbands _ _ _ _ _ _ Hrun)
    as (raw & data & Hload & Hdata & _ & Hfrom).
  exists w', s, raw, data.
  split; [reflexivity |]. split; [exact Hload |]. split; [exact Hdata |].
  split; [exact Hfrom |].
  split.
  - vm_compute in Hrun. injection Hrun as _ <-. reflexivity.
  - apply Hspan. split; lra.
Defined.

(** ** Determinism of the summaries: claim C5 *)

Section Determinism.

Context `{L : Libs}.

Lemma mapM_cons {A B : Type} (f : A -> M B) (x : A) (l : list A) :
  mapM f (x :: l) = (y ← f x; k ← mapM f l; mret (y :: k)).
Proof. reflexivity. Qed.

Lemma mapM_related {A B : Type} (f1 f2 : A -> M B) (l : list A) :
  Forall (fun x => related eq (f1 x) (f2 x)) l ->
  related eq (mapM f1 l) (mapM f2 l).
Proof.
  induction 1 as [| x l Hx _ IH].
  - now apply related_ret.
  - rewrite !mapM_cons.
    eapply related_bind; [exact Hx |]. intros y ? <-.
    eapply related_bind; [exact IH |]. intros k ? <-.
    now apply related_ret.
Qed.

Lemma mapM_keeps P {A B : Type} (f : A -> M B) (l : list A) :
  (forall x, keeps P (f x)) -> keeps P (mapM f l).
Proof.
  intros Hf. induction l as [| x l IH].
  - apply keeps_ret.
  - rewrite mapM_cons.
    apply keeps_bind; [apply Hf |]. intros y.
    apply keeps_bind; [exact IH |]. intros k. apply keeps_ret.
Qed.

Lemma respond_fst (view : M Response) (w : World) :
  fst (respond view w) = fst (view w).
Proof. unfold respond. now destruct (view w) as [w' [r |]]. Qed.

Lemma respond_snd (view : M Response) (w : World) :
  snd (respond view w)
  = match snd (view w) with Some r => r | None => InternalServerError end.
Proof. unfold respond. now destruct (view w) as [w' [r |]]. Qed.

Lemma enumerate_In {A : Type} (l : list A) (i : nat) (x : A) :
  In (i, x) (enumerate l) -> In x l.
Proof. unfold enumerate. apply in_combine_r. Qed.

Lemma update_view_related (form : UpdateForm) :
  Forall (fun p => under_static p = false) (form_filepaths form) ->
  related (fun r1 r2 => summaries_of r1 = summaries_of r2)
          (update_view form) (update_view form).
Proof.
  intros Hp. unfold update_view.
  eapply related_bind; [apply related_lift |]. intros timescale ? <-.
  cbv zeta.
  eapply related_bind.
  { apply mapM_related. apply List.Forall_forall. intros [idx fp] Hin.
    apply process_file_related.
    rewrite List.Forall_forall in Hp. apply Hp.
    eapply enumerate_In. exact Hin. }
  intros results ? <-.
  eapply related_bind; [apply average_if_many_related, Hp |].
  intros avg1 avg2 _. now apply related_ret.
Qed.

Lemma update_view_keeps (form : UpdateForm) :
  keeps is_upload (update_view form).
Proof.
  unfold update_view.
  keeps_step. cbv zeta.
  apply keeps_bind.
  { apply mapM_keeps. intros [idx fp]. apply process_file_keeps_uploads. }
  intros results.
  apply keeps_bind; [apply average_if_many_keeps |].
  intros avg. apply keeps_ret.
Qed.

(** The summary does not depend on the display limit. *)
Lemma process_file_timescale filepath (t1 t2 : Q) idx w :
  snd (process_file filepath t1 idx w) = snd (process_file filepath t2 idx w).
Proof.
  unfold process_file. rewrite !bind_load.
  destruct (load w filepath) as [raw |]; [| reflexivity].
  rewrite !bind_lift.
  destruct (mne.get_data raw (firstn 6 (mne.ch_names raw))) as [data |];
    [| reflexivity].
  cbv zeta. rewrite !bind_lift.
  destruct (plot_channels _ _ _ _) as [plotted |]; [| reflexivity].
  rewrite !bind_run. unfold savefig, write_file. cbn beta iota.
  destruct (welch _ _ _) as [psd freqs].
  rewrite !bind_lift.
  destruct (band_power psd freqs (1 # 2) 4); [| reflexivity].
  rewrite !bind_lift.
  destruct (band_power psd freqs 4 8); [| reflexivity].
  rewrite !bind_lift.
  destruct (band_power psd freqs 8 13); [| reflexivity].
  rewrite !bind_lift.
  destruct (band_power psd freqs 13 30); [| reflexivity].
  rewrite !bind_lift.
  destruct (band_power psd freqs 30 40); [| reflexivity].
  rewrite !bind_run. cbv beta iota. unfold lift.
  destruct (last (mne.times raw)); reflexivity.
Qed.

End Determinism.

(** C5. The per-file summary is a function of the stored file alone.
    Processing a stored upload again, in the world the first run left,
    gives the same summary, band powers included; the summary does not
    depend on the display limit; and a /update request repeated at any
    later time, for stored uploads, shows the same per-file summaries (or
    fails again, if it failed). *)
Theorem summaries_deterministic `{L : Libs} :
  (forall filepath timescale idx w,
      under_static filepath = false ->
      snd (process_file filepath timescale idx
                        (fst (process_file filepath timescale idx w)))
      = snd (process_file filepath timescale idx w))
  /\ (forall filepath t1 t2 idx w,
        snd (process_file filepath t1 idx w)
        = snd (process_file filepath t2 idx w))
  /\ (forall form w later,
        Forall (fun p => under_static p = false) (form_filepaths form) ->
        summaries_of (snd (update form (set_clock later (fst (update form w)))))
        = summaries_of (snd (update form w))).
Proof.
  split; [| split].
  - intros filepath timescale idx w Hp.
    pose proof (process_file_related filepath timescale timescale idx Hp
                  (fst (process_file filepath timescale idx w)) w) as [_ Hr].
    { apply agree_sym, keeps_agree, process_file_keeps_uploads. }
    destruct Hr; congruence.
  - intros filepath t1 t2 idx w. apply process_file_timescale.
  - intros form w later Hp.
    unfold update. rewrite !respond_snd, respond_fst.
    pose proof (update_view_related form Hp
                  (set_clock later (fst (update_view form w))) w) as [_ Hr].
    { apply agree_sym.
      eapply agree_trans; [| apply agree_set_clock].
      apply keeps_agree, update_view_keeps. }
    destruct Hr as [r1 r2 Hr |]; [exact Hr | reflexivity].
Qed.

Lemma summaries_deterministic_witness :
  let form := {| form_timescale := Some "2"%string;
                 form_filepaths := ["uploads/a.edf"; "uploads/b.edf"]%string |} in
  let w := Toy.stored Toy.fast_short Toy.slow_long in
  summaries_of (snd (@update Toy.libs form
                       (set_clock 1700000600 (fst (@update Toy.libs form w)))))
  = summaries_of (snd (@update Toy.libs form w))
  /\ is_Some (summaries_of (snd (@update Toy.libs form w)))
  /\ snd (@process_file Toy.libs "uploads/a.edf" 5 0
            (fst (@process_file Toy.libs "uploads/a.edf" 5 0 w)))
     = snd (@process_file Toy.libs "uploads/a.edf" 5 0 w).
Proof.
  intros form w.
  destruct (@summaries_deterministic Toy.libs) as (Htwice & _ & Hupdate).
  split; [| split].
  - apply Hupdate. repeat constructor.
  - vm_compute. eexists. reflexivity.
  - apply Htwice. reflexivity.
Defined.

(** ** The upload guard: claim C6 *)

(** C6, as the code has it.  A POST /upload whose file list is empty, or
    whose first file carries an empty filename, is answered with the plain
    text "No files selected" (a normal response, not an error and not a
    results page), and the world is left as it was: no file is saved and
    no pipeline runs. *)
Theorem upload_nothing_selected `{L : Libs} (files : list FileStorage)
    (w : World) :
  files = []
  \/ (exists first rest, files = first :: rest /\ file_filename first = ""%string) ->
  upload files w = (w, Text "No files selected").
Proof.
  intros [-> | (first & rest & -> & Hname)]; [reflexivity |].
  unfold upload, upload_view. now rewrite Hname.
Qed.

Lemma upload_nothing_selected_witness :
  @upload Toy.libs [] Toy.fresh = (Toy.fresh, Text "No files selected")
  /\ @upload Toy.libs [Toy.empty_part; Toy.part "b.edf" Toy.seven] Toy.fresh
     = (Toy.fresh, Text "No files selected").
Proof.
  split.
  - apply (@upload_nothing_selected Toy.libs). now left.
  - apply (@upload_nothing_selected Toy.libs). right.
    now exists Toy.empty_part, [Toy.part "b.edf" Toy.seven].
Defined.

(** An upload that carries an empty filename after a named first file
    passes the guard: the first file is saved and processed. *)
Lemma upload_empty_filename_not_first :
  let files := [Toy.part "a.edf" Toy.seven; Toy.empty_part] in
  Exists (fun f => file_filename f = ""%string) files
  /\ snd (@upload Toy.libs files Toy.fresh) <> Text "No files selected"
  /\ fs (fst (@upload Toy.libs files Toy.fresh)) !! "uploads/a.edf"%string
     = Some (Uploaded Toy.seven)
  /\ is_Some (fs (fst (@upload Toy.libs files Toy.fresh))
              !! "static/time_0.png"%string)
  /\ fst (@upload Toy.libs files Toy.fresh) <> Toy.fresh.
Proof.
  intros files. split; [right; now left |].
  split; [vm_compute; discriminate |].
  split; [vm_compute; reflexivity |].
  split; [vm_compute; eexists; reflexivity |].
  intros Heq.
  assert (fs (fst (@upload Toy.libs files Toy.fresh)) !! "uploads/a.edf"%string
          = fs Toy.fresh !! "uploads/a.edf"%string) as Hfs by now rewrite Heq.
  vm_compute in Hfs. discriminate.
Qed.

(** ** When the aggregate pipeline runs: claim C8 *)

Section AggregateGuard.

Context `{L : Libs}.

Lemma upload_path_not_static (name : string) :
  under_static (os_path.join UPLOAD_FOLDER name) = false.
Proof.
  unfold os_path.join. destruct name as [| c name]; [reflexivity |].
  cbn [os_path.startswith_sep].
  destruct (Ascii.eqb c os_path.sep) eqn:Hc; [| reflexivity].
  apply Ascii.eqb_eq in Hc as ->. reflexivity.
Qed.

Lemma average_is_static (path : string) :
  is_average path -> under_static path = true.
Proof. intros [s ->]. reflexivity. Qed.

Lemma upload_path_not_average (name : string) :
  ~ is_average (os_path.join UPLOAD_FOLDER name).
Proof.
  intros Havg. apply average_is_static in Havg.
  rewrite upload_path_not_static in Havg. discriminate.
Qed.

(** The loop of /upload appends one stored path per file. *)
Lemma upload_loop_paths files timescale idx results0 fps0 w w' results fps :
  upload_loop files timescale idx results0 fps0 w = (w', Some (results, fps)) ->
  fps = fps0
        ++ map (fun f => os_path.join UPLOAD_FOLDER (file_filename f)) files.
Proof.
  revert idx results0 fps0 w.
  induction files as [| file files IH]; intros idx results0 fps0 w.
  - cbn. intros [= _ _ <-]. now rewrite app_nil_r.
  - cbn [upload_loop]. cbv zeta. rewrite bind_run.
    unfold file_save at 1, write_file at 1. rewrite bind_run.
    destruct (process_file _ _ _ _) as [w1 [r |]]; [| discriminate].
    intros Hrest. apply IH in Hrest. subst fps.
    rewrite <- app_assoc. reflexivity.
Qed.

Lemma upload_loop_keeps_averages files timescale idx results0 fps0 :
  keeps is_average (upload_loop files timescale idx results0 fps0).
Proof.
  revert idx results0 fps0.
  induction files as [| file files IH]; intros idx results0 fps0.
  - apply keeps_ret.
  - cbn [upload_loop]. cbv zeta.
    apply keeps_bind;
      [apply keeps_write, upload_path_not_average | intros _].
    apply keeps_bind; [apply process_file_keeps_averages | intros r].
    apply IH.
Qed.

(** A returning aggregate pipeline has saved its figure under the name
    it returns. *)
Lemma process_average_saved paths timescale w w' name :
  process_average paths timescale w = (w', Some name) ->
  exists fig,
    fs w' !! static_path name = Some (Image fig)
    /\ title fig = "Grand Average EEG Signal"%string.
Proof.
  unfold process_average. rewrite bind_run.
  destruct (load_all paths [] [] 0 w)
    as [w1 [[[all_data ch_names] sfreq] |]]; [| discriminate].
  cbv zeta. rewrite bind_lift.
  destruct (average_data all_data) as [avg |]; [| discriminate].
  rewrite bind_lift.
  destruct (plot_channels _ _ _ _) as [plotted |]; [| discriminate].
  rewrite bind_run. unfold time_time at 1. rewrite bind_run.
  unfold savefig, write_file. cbv beta iota.
  intros [= <- <-]. eexists. split; [apply lookup_insert_eq | reflexivity].
Qed.

(** The guard both handlers put before the aggregate pipeline. *)
Lemma average_if_many_guard paths timescale w w' avg_plot :
  average_if_many paths timescale w = (w', Some avg_plot) ->
  (is_Some avg_plot <-> (1 < length paths)%nat)
  /\ forall name, avg_plot = Some name ->
       exists fig,
         fs w' !! static_path name = Some (Image fig)
         /\ title fig = "Grand Average EEG Signal"%string.
Proof.
  unfold average_if_many.
  destruct (1 <? length paths)%nat eqn:Hmany.
  - apply Nat.ltb_lt in Hmany. rewrite bind_run.
    destruct (process_average paths timescale w) as [w1 [name |]] eqn:Havg;
      [| discriminate].
    intros [= <- <-]. split; [split; eauto |].
    intros name' [= <-]. eapply process_average_saved. exact Havg.
  - apply Nat.ltb_ge in Hmany. intros [= <- <-].
    split; [| discriminate].
    split; [intros [? [=]] | lia].
Qed.

Lemma average_if_many_skipped paths timescale :
  (length paths <= 1)%nat -> average_if_many paths timescale = mret None.
Proof.
  intros Hfew. unfold average_if_many.
  apply Nat.ltb_ge in Hfew. now rewrite Hfew.
Qed.

Lemma upload_view_rendered files w w' page :
  upload_view files w = (w', Some (Rendered page)) ->
  filepaths page
  = map (fun f => os_path.join UPLOAD_FOLDER (file_filename f)) files
  /\ (is_Some (avg_plot page) <-> (1 < length files)%nat)
  /\ forall name, avg_plot page = Some name ->
       exists fig,
         fs w' !! static_path name = Some (Image fig)
         /\ title fig = "Grand Average EEG Signal"%string.
Proof.
  unfold upload_view.
  destruct files as [| first rest]; [discriminate |].
  destruct (String.eqb (file_filename first) ""); [discriminate |].
  cbv zeta. rewrite bind_run.
  destruct (upload_loop (first :: rest) 1 0 [] [] w)
    as [w1 [[results fps] |]] eqn:Hloop; [| discriminate].
  apply upload_loop_paths in Hloop. cbn [app] in Hloop. subst fps.
  rewrite bind_run.
  destruct (average_if_many _ 1 w1) as [w2 [avg |]] eqn:Havg;
    [| discriminate].
  intros [= <- <-]. cbn [filepaths avg_plot].
  apply average_if_many_guard in Havg as [Hiff Hsaved].
  rewrite length_map in Hiff. auto.
Qed.

Lemma upload_view_keeps_averages files :
  (length files <= 1)%nat -> keeps is_average (upload_view files).
Proof.
  intros Hfew. unfold upload_view.
  destruct files as [| first rest]; [apply keeps_ret |].
  destruct (String.eqb (file_filename first) ""); [apply keeps_ret |].
  cbv zeta. intros w. rewrite bind_run.
  pose proof (upload_loop_keeps_averages (first :: rest) 1 0 [] [] w)
    as Hkeeps.
  destruct (upload_loop (first :: rest) 1 0 [] [] w)
    as [w1 [[results fps] |]] eqn:Hloop; [| exact Hkeeps].
  apply upload_loop_paths in Hloop. cbn [app] in Hloop.
  rewrite average_if_many_skipped
    by (subst fps; now rewrite length_map).
  exact Hkeeps.
Qed.

Lemma update_view_rendered form w w' page :
  update_view form w = (w', Some (Rendered page)) ->
  filepaths page = form_filepaths form
  /\ (is_Some (avg_plot page) <-> (1 < length (form_filepaths form))%nat)
  /\ forall name, avg_plot page = Some name ->
       exists fig,
         fs w' !! static_path name = Some (Image fig)
         /\ title fig = "Grand Average EEG Signal"%string.
Proof.
  unfold update_view. rewrite bind_lift.
  destruct (match form_timescale form with
            | Some s => py_float s
            | None => Some 1
            end) as [timescale |]; [| discriminate].
  cbv zeta. rewrite bind_run.
  destruct (@mapM M _ _ _ _ _ _ w) as [w1 [results |]]; [| discriminate].
  rewrite bind_run.
  destruct (average_if_many _ timescale w1) as [w2 [avg |]] eqn:Havg;
    [| discriminate].
  intros [= <- <-]. cbn [filepaths avg_plot].
  apply average_if_many_guard in Havg as [Hiff Hsaved]. auto.
Qed.

Lemma update_view_keeps_averages form :
  (length (form_filepaths form) <= 1)%nat ->
  keeps is_average (update_view form).
Proof.
  intros Hfew. unfold update_view.
  apply keeps_bind; [apply keeps_lift | intros timescale].
  cbv zeta.
  apply keeps_bind.
  { apply mapM_keeps. intros [idx fp]. apply process_file_keeps_averages. }
  intros results. rewrite (average_if_many_skipped _ _ Hfew).
  apply keeps_bind; [apply keeps_ret | intros avg; apply keeps_ret].
Qed.

End AggregateGuard.



(** ** The aggregate pipeline: claims C2 and C10 *)

Section AggregateClaims.

Context `{L : Libs} `{!LibsOk L}.

Lemma loads_wf w paths raws : loads w paths raws -> Forall mne.wf raws.
Proof.
  induction 1 as [| path raw paths raws Hload _ IH]; constructor;
    [eapply load_wf; exact Hload | exact IH].
Qed.

Lemma plot_channels_times times data offsets n plotted :
  plot_channels times data offsets n = Some plotted ->
  Forall (fun line => fst line = times) plotted.
Proof.
  unfold plot_channels. intros Hp. apply mapM_Some in Hp.
  induction Hp as [| i line l plotted Hline _ IH]; constructor;
    [| exact IH].
  destruct (rows data !! i) as [row |]; [| discriminate].
  destruct (offsets !! i) as [off |]; [| discriminate].
  simpl in Hline. now injection Hline as <-.
Qed.

(** Averaging succeeds only on arrays with one row count. *)
Lemma average_data_Some_rows (arrays : list Array2) (avg : Array2) :
  average_data arrays = Some avg ->
  exists n, Forall (fun a => length (rows a) = n) arrays.
Proof.
  unfold average_data.
  destruct (py.min (map ncols arrays)) as [k |]; [| discriminate].
  cbn [mbind option_bind]. unfold np2.mean_stack.
  destruct arrays as [| a rest]; [discriminate |]. cbn [map].
  destruct (forallb _ _) eqn:Hall; [| discriminate]. intros _.
  exists (length (rows a)). constructor; [reflexivity |].
  apply List.Forall_forall. intros d Hd.
  rewrite forallb_forall in Hall.
  specialize (Hall (np2.take_cols k d) (in_map _ _ _ Hd)).
  unfold np2.same_shape in Hall. apply andb_prop in Hall as [Hrows _].
  apply Nat.eqb_eq in Hrows. cbn [rows np2.take_cols] in Hrows.
  rewrite !length_map in Hrows. now symmetry.
Qed.

Lemma average_of_loaded raws n :
  raws <> [] -> Forall mne.wf raws ->
  Forall (fun r => length (firstn 6 (mne.ch_names r)) = n) raws ->
  exists avg,
    average_data (map plotted_data raws) = Some avg
    /\ py.min (map mne.n_times raws) = Some (ncols avg)
    /\ shaped n (ncols avg) (rows avg)
    /\ forall c t, (c < n)%nat -> (t < ncols avg)%nat ->
         entry (rows avg) c t
         == sum_entries (map plotted_data raws) c t
            / inject_Z (Z.of_nat (length raws)).
Proof.
  intros Hne Hwf Hcount.
  destruct (average_data_spec (map plotted_data raws) n)
    as (avg & Havg & Hmin & Hshape & Hmean).
  - destruct raws; [contradiction | discriminate].
  - apply Forall_map. eapply List.Forall_impl; [| exact Hwf].
    apply plotted_data_rectangular.
  - apply Forall_map. apply List.Forall_forall. intros r Hr.
    rewrite List.Forall_forall in Hwf, Hcount. cbv beta.
    rewrite plotted_data_rows by now apply Hwf. now apply Hcount.
  - exists avg. rewrite map_map in Hmin. rewrite length_map in Hmean.
    auto.
Qed.

Lemma average_rows_last raws last_raw avg :
  Forall mne.wf raws -> last raws = Some last_raw ->
  average_data (map plotted_data raws) = Some avg ->
  length (rows avg) = length (firstn 6 (mne.ch_names last_raw)).
Proof.
  intros Hwf Hlast Havg.
  destruct (average_data_Some_rows _ _ Havg) as [n Hn].
  assert (In last_raw raws) as Hin.
  { apply last_Some in Hlast as [l' ->]. apply in_or_app. right. now left. }
  assert (Forall (fun r => length (firstn 6 (mne.ch_names r)) = n) raws)
    as Hcount.
  { apply List.Forall_forall. intros r Hr.
    rewrite List.Forall_forall in Hwf, Hn.
    rewrite <- plotted_data_rows by now apply Hwf.
    apply Hn. now apply in_map. }
  destruct (average_of_loaded raws n) as (avg' & Havg' & _ & [Hrows _] & _);
    [intros ->; contradiction | assumption | assumption |].
  rewrite Havg in Havg'. injection Havg' as <-.
  rewrite List.Forall_forall in Hcount. now rewrite (Hcount _ Hin).
Qed.

End AggregateClaims.



(** C2, as the code has it.  For a non-empty list (so also for two or
    more) of files that load and agree on the number n of plotted channels,
    the aggregate pipeline truncates every per-file matrix to the smallest
    sample count among the files and takes the element-wise mean across
    the files; the figure it saves draws each of the n averaged channels.
    At one sampling rate the smallest sample count is the shortest
    duration: a 10-second and a 12-second recording at the same rate are
    averaged over the first 10 seconds of each. *)
Theorem average_truncates_to_fewest_samples `{L : Libs} `{!LibsOk L}
    (w : World) (paths : list string) (raws : list mne.Raw)
    (last_raw : mne.Raw) (timescale : Q) (n : nat) :
  loads w paths raws ->
  last raws = Some last_raw ->
  Forall (fun r => Nat.min 6 (length (mne.ch_names r)) = n) raws ->
  exists (avg : Array2) (fig : Figure) (w' : World) (name : string),
    average_data (map plotted_data raws) = Some avg
    /\ py.min (map mne.n_times raws) = Some (ncols avg)
    /\ shaped n (ncols avg) (rows avg)
    /\ (forall c t, (c < n)%nat -> (t < ncols avg)%nat ->
          entry (rows avg) c t
          == sum_entries (map plotted_data raws) c t
             / inject_Z (Z.of_nat (length raws)))
    /\ process_average paths timescale w = (w', Some name)
    /\ fs w' !! static_path name = Some (Image fig)
    /\ length (lines fig) = n
    /\ (forall c, (c < n)%nat ->
          exists row,
            rows avg !! c = Some row
            /\ lines fig !! c
               = Some (map (fun t => t / mne.sfreq last_raw)
                           (np.arange (ncols avg)),
                       map (fun v => v + inject_Z (Z.of_nat c) * 150) row))
    /\ (forall r1 r2 (samples_per_second : nat),
          raws = [r1; r2] ->
          mne.n_times r1 = (10 * samples_per_second)%nat ->
          mne.n_times r2 = (12 * samples_per_second)%nat ->
          ncols avg = (10 * samples_per_second)%nat).
Proof.
  intros Hloads Hlast Hcount.
  pose proof (loads_wf _ _ _ Hloads) as Hwf.
  assert (Forall (fun r => length (firstn 6 (mne.ch_names r)) = n) raws)
    as Hcount'.
  { eapply List.Forall_impl; [| exact Hcount].
    intros r Hr. cbv beta in *. now rewrite length_take. }
  assert (In last_raw raws) as Hin.
  { apply last_Some in Hlast as [l' ->]. apply in_or_app. right. now left. }
  assert (length (firstn 6 (mne.ch_names last_raw)) = n) as Hlastn.
  { rewrite List.Forall_forall in Hcount'. now apply Hcount'. }
  destruct (average_of_loaded raws n)
    as (avg & Hdata & Hmin & Hshape & Hmean);
    [intros ->; contradiction | exact Hwf | exact Hcount' |].
  pose proof (process_average_run w paths raws last_raw timescale Hloads Hlast)
    as Hrun.
  rewrite Hdata in Hrun.
  destruct Hrun as (fig & Heq & _ & _ & Hplot).
  { destruct Hshape as [Hrows _]. now rewrite Hrows, Hlastn. }
  rewrite Hlastn in Hplot.
  apply plot_channels_lookup in Hplot as [Hlen Hlines].
  exists avg, fig. eexists _, _.
  split; [exact Hdata |]. split; [exact Hmin |]. split; [exact Hshape |].
  split; [exact Hmean |]. split; [exact Heq |].
  split; [apply lookup_insert_eq |]. split; [exact Hlen |].
  split.
  - intros c Hc.
    destruct (Hlines c Hc) as (row & off & Hrow & Hoff & Hline).
    rewrite channel_offsets_lookup in Hoff by assumption.
    injection Hoff as <-. now exists row.
  - intros r1 r2 k -> H1 H2. cbn in Hmin. rewrite H1, H2 in Hmin.
    injection Hmin as <-. lia.
Qed.

Lemma average_truncates_to_fewest_samples_witness :
  let w := Toy.stored Toy.fast_short Toy.slow_long in
  let paths := ["uploads/a.edf"; "uploads/b.edf"]%string in
  exists avg fig w' name,
    @process_average Toy.libs paths 1 w = (w', Some name)
    /\ fs w' !! static_path name = Some (Image fig)
    /\ ncols avg = 3%nat
    /\ length (lines fig) = 2%nat
    /\ entry (rows avg) 1 2 == ((3 + 1) * 1000000 + (7 + 1) * 1000000) / 2.
Proof.
  intros w paths.
  destruct (@load Toy.libs w "uploads/a.edf") as [ra |] eqn:Ha;
    [| vm_compute in Ha; discriminate].
  destruct (@load Toy.libs w "uploads/b.edf") as [rb |] eqn:Hb;
    [| vm_compute in Hb; discriminate].
  destruct (@average_truncates_to_fewest_samples Toy.libs toy_ok
              w paths [ra; rb] rb 1 2)
    as (avg & fig & w' & name & Hdata & Hmin & _ & Hmean & Hrun & Hfile
        & Hlen & _).
  { repeat constructor; assumption. }
  { reflexivity. }
  { vm_compute in Ha, Hb. injection Ha as <-. injection Hb as <-.
    repeat constructor. }
  exists avg, fig, w', name.
  split; [exact Hrun |]. split; [exact Hfile |].
  vm_compute in Ha, Hb. injection Ha as <-. injection Hb as <-.
  split; [cbn in Hmin; now injection Hmin as <- |].
  split; [exact Hlen |].
  rewrite Hmean; [reflexivity | lia |].
  cbn in Hmin. injection Hmin as <-. lia.
Defined.

(** Two files that load but differ in their number of plotted channels
    make the aggregate pipeline raise; and with two sampling rates the
    matrices are cut to the smallest sample count, here that of the
    recording that lasts longer, which is averaged in full. *)
Lemma average_raises_on_channel_mismatch :
  let paths := ["uploads/a.edf"; "uploads/b.edf"]%string in
  (let w := Toy.stored Toy.one_channel Toy.two_channels in
   is_Some (@load Toy.libs w "uploads/a.edf")
   /\ is_Some (@load Toy.libs w "uploads/b.edf")
   /\ snd (@process_average Toy.libs paths 1 w) = None)
  /\ (let w := Toy.stored Toy.fast_short Toy.slow_long in
      exists ra rb avg,
        @load Toy.libs w "uploads/a.edf" = Some ra
        /\ @load Toy.libs w "uploads/b.edf" = Some rb
        /\ inject_Z (Z.of_nat (mne.n_times ra)) / mne.sfreq ra
           < inject_Z (Z.of_nat (mne.n_times rb)) / mne.sfreq rb
        /\ average_data [plotted_data ra; plotted_data rb] = Some avg
        /\ ncols avg = mne.n_times rb
        /\ (ncols avg < mne.n_times ra)%nat).
Proof.
  intros paths. split.
  - cbv zeta. split; [vm_compute; eexists; reflexivity |].
    split; [vm_compute; eexists; reflexivity |].
    vm_compute. reflexivity.
  - cbv zeta.
    destruct (@load Toy.libs (Toy.stored Toy.fast_short Toy.slow_long)
                    "uploads/a.edf") as [ra |] eqn:Ha;
      [| vm_compute in Ha; discriminate].
    destruct (@load Toy.libs (Toy.stored Toy.fast_short Toy.slow_long)
                    "uploads/b.edf") as [rb |] eqn:Hb;
      [| vm_compute in Hb; discriminate].
    vm_compute in Ha, Hb. injection Ha as <-. injection Hb as <-.
    eexists _, _, _. split; [reflexivity |]. split; [reflexivity |].
    split; [vm_compute; reflexivity |].
    split; [vm_compute; reflexivity |].
    split; [reflexivity | cbn; lia].
Qed.

(** * Further properties of the code *)

(** ** The band power integrator *)

Section BandPowerAlgebra.

Lemma trapezoid_cons (p : Q * Q) (l : list (Q * Q)) :
  Spec.trapezoid (p :: l) == trapezoid_gap [p] l + Spec.trapezoid l.
Proof.
  destruct p as [x0 y0]. destruct l as [| [x1 y1] l].
  - cbn. ring.
  - change (Spec.trapezoid ((x0, y0) :: (x1, y1) :: l))
      with ((x1 - x0) * (y0 + y1) / 2 + Spec.trapezoid ((x1, y1) :: l)).
    unfold trapezoid_gap, trapezoid_between. cbn. ring.
Qed.

(** Integrating a concatenation: the two parts and the gap between them. *)
Lemma trapezoid_app (l1 l2 : list (Q * Q)) :
  Spec.trapezoid (l1 ++ l2)
  == Spec.trapezoid l1 + trapezoid_gap l1 l2 + Spec.trapezoid l2.
Proof.
  induction l1 as [| p l1 IH].
  - cbn. unfold trapezoid_gap. cbn. ring.
  - destruct l1 as [| q l1].
    + cbn [app]. rewrite trapezoid_cons.
      assert (Spec.trapezoid [p] = 0) as -> by (destruct p; reflexivity).
      ring.
    + change ((p :: q :: l1) ++ l2) with (p :: ((q :: l1) ++ l2)).
      rewrite trapezoid_cons, IH, (trapezoid_cons p (q :: l1)).
      assert (trapezoid_gap [p] ((q :: l1) ++ l2) = trapezoid_gap [p] (q :: l1))
        as -> by reflexivity.
      assert (trapezoid_gap (p :: q :: l1) l2 = trapezoid_gap (q :: l1) l2)
        as -> by reflexivity.
      ring.
Qed.

Lemma trapezoid_gap_nonneg (l1 l2 : list (Q * Q)) :
  ascending (map fst (l1 ++ l2)) ->
  Forall (fun v => 0 <= v) (map snd (l1 ++ l2)) ->
  0 <= trapezoid_gap l1 l2.
Proof.
  intros Hasc Hpos. unfold trapezoid_gap.
  destruct (last l1) as [p |] eqn:Hlast; [| apply Qle_refl].
  destruct l2 as [| q l2]; [apply Qle_refl |]. cbn [head].
  apply last_Some in Hlast as [l1' ->].
  rewrite <- app_assoc, !map_app in Hasc, Hpos. cbn [app map] in Hasc, Hpos.
  assert (fst p <= fst q) as Hx.
  { clear Hpos. induction (map fst l1') as [| a l IH].
    - cbn in Hasc. tauto.
    - apply IH. eapply ascending_tail. exact Hasc. }
  apply Forall_app in Hpos as [_ Hpos].
  inversion Hpos as [| ? ? Hp Hpos']; subst.
  inversion Hpos' as [| ? ? Hq _]; subst.
  unfold trapezoid_between, Qdiv.
  apply Qmult_le_0_compat; [| apply Qinv_le_0_compat; lra].
  apply Qmult_le_0_compat; lra.
Qed.

(** Points at one frequency span no area. *)
Lemma trapezoid_flat (b : Q) (l : list (Q * Q)) :
  Forall (fun p => fst p == b) l -> Spec.trapezoid l == 0.
Proof.
  induction 1 as [| p l Hp Hl IH]; [reflexivity |].
  rewrite trapezoid_cons, IH.
  destruct l as [| q l]; [cbn; ring |].
  inversion Hl as [| ? ? Hq _]; subst.
  unfold trapezoid_gap, trapezoid_between. cbn.
  rewrite Hp, Hq. field.
Qed.

Lemma trapezoid_nonneg (pts : list (Q * Q)) :
  ascending (map fst pts) -> Forall (fun v => 0 <= v) (map snd pts) ->
  0 <= Spec.trapezoid pts.
Proof.
  intros Hasc Hpos. rewrite <- sum_trapz_terms.
  now apply sum_nonneg, trapz_terms_nonneg.
Qed.

Lemma filter_filter_ext {A : Type} (f g h : A -> bool) (l : list A) :
  (forall x, f x = g x && h x) ->
  List.filter f l = List.filter h (List.filter g l).
Proof.
  intros Hf. induction l as [| x l IH]; [reflexivity |].
  cbn. rewrite Hf. destruct (g x); cbn; [| exact IH].
  destruct (h x); now rewrite IH.
Qed.

(** An ascending list splits at any threshold into the points below it
    followed by the points from it on. *)
Lemma ascending_split (b : Q) (l : list (Q * Q)) :
  ascending (map fst l) ->
  l = List.filter (fun p => negb (Qle_bool b (fst p))) l
      ++ List.filter (fun p => Qle_bool b (fst p)) l.
Proof.
  induction l as [| p l IH]; intros Hasc; [reflexivity |].
  cbn [map] in Hasc. apply ascending_cons in Hasc as [Hall Hasc].
  cbn [List.filter].
  destruct (Qle_bool b (fst p)) eqn:Hb; cbn [negb].
  - apply Qle_bool_iff in Hb.
    assert (List.filter (fun p => negb (Qle_bool b (fst p))) l = []) as ->.
    { clear IH Hasc. induction l as [| q l IHl]; [reflexivity |].
      cbn [map] in Hall. inversion Hall as [| ? ? Hq Hall']; subst.
      cbn [List.filter].
      assert (Qle_bool b (fst q) = true) as ->
        by (apply Qle_bool_iff; lra).
      cbn. now apply IHl. }
    assert (List.filter (fun p => Qle_bool b (fst p)) l = l) as ->; [| reflexivity].
    { clear IH Hasc. induction l as [| q l IHl]; [reflexivity |].
      cbn [map] in Hall. inversion Hall as [| ? ? Hq Hall']; subst.
      cbn [List.filter].
      assert (Qle_bool b (fst q) = true) as ->
        by (apply Qle_bool_iff; lra).
      now rewrite IHl. }
  - cbn [app]. f_equal. now apply IH.
Qed.

Lemma filter_ascending (f : Q * Q -> bool) (pts : list (Q * Q)) :
  ascending (map fst pts) -> ascending (map fst (List.filter f pts)).
Proof.
  induction pts as [| p pts IH]; intros Hasc; [exact I |].
  cbn [map] in Hasc. apply ascending_cons in Hasc as [Hx Hasc].
  cbn [List.filter]. destruct (f p); [| now apply IH].
  cbn [map]. apply ascending_cons. split; [| now apply IH].
  apply List.Forall_forall. intros b Hb.
  apply in_map_iff in Hb as (q & <- & Hin).
  apply filter_In in Hin as [Hin _].
  rewrite List.Forall_forall in Hx. apply Hx. now apply in_map.
Qed.

Lemma filter_nonneg (f : Q * Q -> bool) (pts : list (Q * Q)) :
  Forall (fun v => 0 <= v) (map snd pts) ->
  Forall (fun v => 0 <= v) (map snd (List.filter f pts)).
Proof.
  intros Hpos. apply List.Forall_forall. intros v Hv.
  apply in_map_iff in Hv as (q & <- & Hin).
  apply filter_In in Hin as [Hin _].
  rewrite List.Forall_forall in Hpos. apply Hpos. now apply in_map.
Qed.

(** The bins of [a, c], for a <= b <= c, are those below b, those at b
    and those above b, in this order; [a, b] and [b, c] share the bins
    at b. *)
Lemma restrict_three_parts (a b c : Q) (pts : list (Q * Q)) :
  a <= b -> b <= c -> ascending (map fst pts) ->
  exists below at_b above,
    Spec.restrict a c pts = below ++ at_b ++ above
    /\ Spec.restrict a b pts = below ++ at_b
    /\ Spec.restrict b c pts = at_b ++ above
    /\ Forall (fun p => fst p == b) at_b
    /\ (forall p, In p pts -> fst p == b -> at_b <> []).
Proof.
  intros Hab Hbc Hasc.
  set (L := Spec.restrict a c pts).
  assert (ascending (map fst L)) as HL by now apply filter_ascending.
  set (below := List.filter (fun p => negb (Qle_bool b (fst p))) L).
  set (rest := List.filter (fun p => Qle_bool b (fst p)) L).
  assert (ascending (map fst rest)) as Hrest by now apply filter_ascending.
  set (above := List.filter (fun p => Qle_bool (fst p) b) rest).
  set (at_b := List.filter (fun p => Qle_bool (fst p) b) rest).
  clear above.
  set (above := List.filter (fun p => negb (Qle_bool (fst p) b)) rest).
  exists below, at_b, above.
  assert (L = below ++ rest) as HLsplit by now apply ascending_split.
  assert (forall p, In p rest -> b <= fst p) as Hrest_ge.
  { intros p Hp. apply filter_In in Hp as [_ Hp]. now apply Qle_bool_iff. }
  assert (forall p, In p below -> fst p < b) as Hbelow_lt.
  { intros p Hp. apply filter_In in Hp as [_ Hp].
    destruct (Qle_bool b (fst p)) eqn:E; [discriminate |].
    apply Qnot_le_lt. intros Hle. apply Qle_bool_iff in Hle. congruence. }
  assert (rest = at_b ++ above) as Hrsplit.
  { (* the points at b come first: they are the points not above b *)
    subst at_b above. clear HLsplit Hbelow_lt.
    induction rest as [| p r IH]; [reflexivity |].
    cbn [map] in Hrest. apply ascending_cons in Hrest as [Hall Hrest].
    cbn [List.filter].
    destruct (Qle_bool (fst p) b) eqn:Hp; cbn [negb app].
    - f_equal. apply IH; [assumption |].
      intros q Hq. apply Hrest_ge. now right.
    - assert (b < fst p) as Hlt.
      { apply Qnot_le_lt. intros Hle. apply Qle_bool_iff in Hle. congruence. }
      assert (List.filter (fun p => Qle_bool (fst p) b) r = []) as ->.
      { clear IH Hrest Hrest_ge. induction r as [| q r IHr]; [reflexivity |].
        cbn [map] in Hall. inversion Hall as [| ? ? Hq Hall']; subst.
        cbn [List.filter].
        destruct (Qle_bool (fst q) b) eqn:E.
        - apply Qle_bool_iff in E. lra.
        - now apply IHr. }
      cbn [app]. f_equal.
      clear IH Hrest Hrest_ge. induction r as [| q r IHr]; [reflexivity |].
      cbn [map] in Hall. inversion Hall as [| ? ? Hq Hall']; subst.
      cbn [List.filter].
      destruct (Qle_bool (fst q) b) eqn:E.
      + apply Qle_bool_iff in E. lra.
      + cbn. f_equal. now apply IHr. }
  assert (forall p, In p at_b -> fst p == b) as Hat.
  { intros p Hp. apply filter_In in Hp as [Hin Hp].
    apply Qle_bool_iff in Hp. specialize (Hrest_ge p Hin). lra. }
  split; [now rewrite HLsplit, Hrsplit |].
  split.
  { (* [a, b] keeps, of the bins of [a, c], those not above b *)
    assert (Spec.restrict a b pts
            = List.filter (fun p => Qle_bool (fst p) b) L) as ->.
    { unfold L, Spec.restrict. apply filter_filter_ext. intros p.
      rewrite !in_band_bool.
      destruct (Qle_bool a (fst p)) eqn:E1; [| reflexivity]. cbn.
      destruct (Qle_bool (fst p) b) eqn:E2.
      - apply Qle_bool_iff in E2.
        assert (Qle_bool (fst p) c = true) as ->
          by (apply Qle_bool_iff; lra). reflexivity.
      - now rewrite andb_false_r. }
    rewrite HLsplit, List.filter_app. fold at_b. f_equal.
    apply forallb_filter_id, forallb_forall. intros p Hp.
    apply Qle_bool_iff. specialize (Hbelow_lt p Hp). lra. }
  split.
  { assert (Spec.restrict b c pts = rest) as ->; [| exact Hrsplit].
    unfold rest, L, Spec.restrict. apply filter_filter_ext. intros p.
    rewrite !in_band_bool.
    destruct (Qle_bool b (fst p)) eqn:E1.
    - apply Qle_bool_iff in E1.
      assert (Qle_bool a (fst p) = true) as ->
        by (apply Qle_bool_iff; lra).
      cbn. now rewrite andb_true_r.
    - cbn. now rewrite andb_false_r. }
  split; [now apply List.Forall_forall |].
  intros [f v] Hin Hp Hnil. cbn [fst] in Hp.
  assert (In (f, v) at_b) as Hpat; [| rewrite Hnil in Hpat; contradiction].
  apply filter_In. split; [| apply Qle_bool_iff; cbn; lra].
  apply filter_In. split; [| apply Qle_bool_iff; cbn; lra].
  apply restrict_In. split; [assumption |]. split; lra.
Qed.

End BandPowerAlgebra.

Section BandPowerSplit.

Lemma bins_ascending (psd freqs : list Q) :
  length psd = length freqs -> ascending freqs ->
  ascending (map fst (Spec.bins psd freqs)).
Proof. intros Hlen Hasc. unfold Spec.bins. now rewrite map_fst_combine. Qed.

Lemma bins_nonneg (psd freqs : list Q) :
  Forall (fun v => 0 <= v) psd ->
  Forall (fun v => 0 <= v) (map snd (Spec.bins psd freqs)).
Proof.
  intros Hpos. apply List.Forall_forall. intros v Hv.
  apply in_map_iff in Hv as ([f p] & <- & Hin).
  apply in_combine_r in Hin.
  rewrite List.Forall_forall in Hpos. now apply Hpos.
Qed.

Lemma bins_In (psd freqs : list Q) (f : Q) :
  length psd = length freqs -> In f freqs ->
  exists p, In (f, p) (Spec.bins psd freqs).
Proof.
  unfold Spec.bins. revert psd.
  induction freqs as [| g freqs IH]; intros [| p psd] Hlen Hin;
    try discriminate; try contradiction.
  injection Hlen as Hlen. destruct Hin as [-> | Hin].
  - exists p. now left.
  - destruct (IH psd Hlen Hin) as [q Hq]. exists q. now right.
Qed.

(** The integrals over [a, b] and [b, c] add up to at most the integral
    over [a, c]; to exactly that when some point lies at b. *)
Lemma trapezoid_split (a b c : Q) (pts : list (Q * Q)) :
  a <= b -> b <= c ->
  ascending (map fst pts) -> Forall (fun v => 0 <= v) (map snd pts) ->
  Spec.trapezoid (Spec.restrict a b pts) + Spec.trapezoid (Spec.restrict b c pts)
  <= Spec.trapezoid (Spec.restrict a c pts)
  /\ ((exists p, In p pts /\ fst p == b) ->
      Spec.trapezoid (Spec.restrict a b pts)
      + Spec.trapezoid (Spec.restrict b c pts)
      == Spec.trapezoid (Spec.restrict a c pts)).
Proof.
  intros Hab Hbc Hasc Hpos.
  destruct (restrict_three_parts a b c pts Hab Hbc Hasc)
    as (below & at_b & above & Hac & Hab' & Hbc' & Hflat & Hbin).
  assert (0 <= trapezoid_gap below (at_b ++ above)) as Hgap.
  { apply trapezoid_gap_nonneg; rewrite <- Hac.
    - now apply filter_ascending.
    - now apply filter_nonneg. }
  rewrite Hac, Hab', Hbc'.
  rewrite (trapezoid_app below (at_b ++ above)).
  rewrite (trapezoid_app below at_b), (trapezoid_flat b at_b Hflat).
  destruct at_b as [| p at_b].
  - assert (trapezoid_gap below [] = 0) as ->
      by (unfold trapezoid_gap; destruct (last below); reflexivity).
    cbn [app] in *. split; [lra |].
    intros (p & Hp & Hpb). exfalso. now apply (Hbin p Hp Hpb).
  - assert (trapezoid_gap below ((p :: at_b) ++ above)
            = trapezoid_gap below (p :: at_b)) as Heq by reflexivity.
    rewrite Heq in *. split; [lra |]. intros _. ring.
Qed.

(** What the integral over [a, c] has beyond those over [a, b] and
    [b, c]: the trapezoid between the last point of [a, b] and the first
    of [b, c], which is flat when a point lies at b. *)
Lemma trapezoid_split_gap (a b c : Q) (pts : list (Q * Q)) :
  a <= b -> b <= c -> ascending (map fst pts) ->
  Spec.trapezoid (Spec.restrict a c pts)
  == Spec.trapezoid (Spec.restrict a b pts)
     + Spec.trapezoid (Spec.restrict b c pts)
     + trapezoid_gap (Spec.restrict a b pts) (Spec.restrict b c pts)
  /\ ((exists p, In p pts /\ fst p == b) ->
      trapezoid_gap (Spec.restrict a b pts) (Spec.restrict b c pts) == 0).
Proof.
  intros Hab Hbc Hasc.
  destruct (restrict_three_parts a b c pts Hab Hbc Hasc)
    as (below & at_b & above & Hac & Hab' & Hbc' & Hflat & Hbin).
  rewrite Hac, Hab', Hbc'.
  destruct at_b as [| p at_b].
  - cbn [app]. rewrite app_nil_r. split.
    + rewrite (trapezoid_app below above). ring.
    + intros (p & Hp & Hpb). exfalso. now apply (Hbin p Hp Hpb).
  - assert (trapezoid_gap (below ++ p :: at_b) ((p :: at_b) ++ above) == 0)
      as Hzero.
    { unfold trapezoid_gap. rewrite last_app. cbn [app head].
      destruct (last (p :: at_b)) as [q |] eqn:Hlast;
        [| now apply last_None in Hlast].
      apply last_Some in Hlast as [l' Hl'].
      assert (fst q == b) as Hq.
      { rewrite List.Forall_forall in Hflat. apply Hflat.
        rewrite Hl'. apply in_or_app. right. now left. }
      assert (fst p == b) as Hp by now inversion Hflat.
      unfold trapezoid_between. rewrite Hp, Hq. field. }
    split; [| intros _; exact Hzero].
    rewrite Hzero.
    rewrite (trapezoid_app below ((p :: at_b) ++ above)).
    rewrite (trapezoid_app below (p :: at_b)),
      (trapezoid_flat b (p :: at_b) Hflat).
    assert (trapezoid_gap below ((p :: at_b) ++ above)
            = trapezoid_gap below (p :: at_b)) as -> by reflexivity.
    ring.
Qed.

(** A band whose upper end lies below its lower end selects no bin. *)
Lemma restrict_empty_band (a b : Q) (pts : list (Q * Q)) :
  b < a -> Spec.restrict a b pts = [].
Proof.
  intros Hempty. unfold Spec.restrict.
  induction pts as [| p l IH]; [reflexivity |].
  cbn [List.filter].
  destruct (Spec.in_band_dec a b (fst p)) as [[H1 H2] | _]; [lra | exact IH].
Qed.

End BandPowerSplit.

(** X1. For arrays of equal length with ascending frequencies and a
    non-negative PSD, the band powers of two adjacent bands [a, b] and
    [b, c] add up to at most the band power of [a, c]: what is lost is the
    trapezoid that spans the boundary, between the last bin of [a, b] and
    the first bin of [b, c].  When some frequency bin lies at b that
    trapezoid is flat, nothing is lost and the two add up to the band
    power of [a, c]. *)
Theorem band_power_adjacent_bands (psd freqs : list Q) (a b c : Q) :
  length psd = length freqs ->
  ascending freqs ->
  Forall (fun v => 0 <= v) psd ->
  a <= b -> b <= c ->
  exists r1 r2 r,
    band_power psd freqs a b = Some r1
    /\ band_power psd freqs b c = Some r2
    /\ band_power psd freqs a c = Some r
    /\ r1 + r2 <= r
    /\ ((exists f, In f freqs /\ f == b) -> r1 + r2 == r)
    /\ let lost :=
         trapezoid_gap (Spec.restrict a b (Spec.bins psd freqs))
                       (Spec.restrict b c (Spec.bins psd freqs)) in
       r == r1 + r2 + lost
       /\ 0 <= lost
       /\ ((exists f, In f freqs /\ f == b) -> lost == 0).
Proof.
  intros Hlen Hasc Hpos Hab Hbc.
  rewrite !(band_power_eq _ _ _ _ Hlen).
  eexists _, _, _. do 3 (split; [reflexivity |]).
  cbv zeta. rewrite !sum_trapz_terms.
  destruct (trapezoid_split a b c (Spec.bins psd freqs) Hab Hbc
              (bins_ascending _ _ Hlen Hasc) (bins_nonneg _ freqs Hpos))
    as [Hle Heq].
  destruct (trapezoid_split_gap a b c (Spec.bins psd freqs) Hab Hbc
              (bins_ascending _ _ Hlen Hasc))
    as [Hsplit Hflat].
  assert (forall f, In f freqs -> f == b ->
                    exists p, In p (Spec.bins psd freqs) /\ fst p == b)
    as Hbin.
  { intros f Hin Hf. destruct (bins_In psd freqs f Hlen Hin) as [p Hp].
    now exists (f, p). }
  split; [exact Hle |].
  split; [intros (f & Hin & Hf); apply Heq; eauto |].
  split; [exact Hsplit |].
  split; [lra |].
  intros (f & Hin & Hf). apply Hflat. eauto.
Qed.

Lemma band_power_adjacent_bands_witness :
  (exists r1 r2 r,
      band_power [4; 6; 8; 2] [1; 2; 3; 4] 1 2 = Some r1
      /\ band_power [4; 6; 8; 2] [1; 2; 3; 4] 2 4 = Some r2
      /\ band_power [4; 6; 8; 2] [1; 2; 3; 4] 1 4 = Some r
      /\ r1 + r2 == r)
  /\ (exists r1 r2 r,
        band_power [4; 6; 8; 2] [1; 2; 3; 4] 1 (5 # 2) = Some r1
        /\ band_power [4; 6; 8; 2] [1; 2; 3; 4] (5 # 2) 4 = Some r2
        /\ band_power [4; 6; 8; 2] [1; 2; 3; 4] 1 4 = Some r
        /\ r1 + r2 <= r /\ ~ r1 + r2 == r
        /\ r == r1 + r2 + trapezoid_between (2, 6) (3, 8)).
Proof.
  split.
  - destruct (band_power_adjacent_bands [4; 6; 8; 2] [1; 2; 3; 4] 1 2 4)
      as (r1 & r2 & r & H1 & H2 & H & _ & Heq & _);
      [reflexivity | cbn; repeat split; lra | repeat constructor; lra
      | lra | lra |].
    exists r1, r2, r. repeat split; try assumption.
    apply Heq. exists 2. split; [cbn; tauto | reflexivity].
  - destruct (band_power_adjacent_bands [4; 6; 8; 2] [1; 2; 3; 4] 1 (5 # 2) 4)
      as (r1 & r2 & r & H1 & H2 & H & Hle & _ & Hlost & _);
      [reflexivity | cbn; repeat split; lra | repeat constructor; lra
      | lra | lra |].
    exists r1, r2, r.
    do 4 (split; [assumption |]). split; [| exact Hlost].
    vm_compute in H1, H2, H.
    injection H1 as <-. injection H2 as <-. injection H as <-.
    intros Habs. vm_compute in Habs. discriminate.
Defined.

(** X2. For arrays of equal length with ascending frequencies and a
    non-negative PSD, widening the band never lowers the band power. *)
Theorem band_power_monotone_in_band (psd freqs : list Q) (a b a' b' : Q) :
  length psd = length freqs ->
  ascending freqs ->
  Forall (fun v => 0 <= v) psd ->
  a' <= a -> b <= b' ->
  exists r r',
    band_power psd freqs a b = Some r
    /\ band_power psd freqs a' b' = Some r'
    /\ r <= r'.
Proof.
  intros Hlen Hasc Hpos Ha Hb.
  rewrite !(band_power_eq _ _ _ _ Hlen).
  eexists _, _. do 2 (split; [reflexivity |]).
  rewrite !sum_trapz_terms.
  pose proof (bins_ascending _ _ Hlen Hasc) as Hasc'.
  pose proof (bins_nonneg _ freqs Hpos) as Hpos'.
  assert (forall lo hi,
             0 <= Spec.trapezoid (Spec.restrict lo hi (Spec.bins psd freqs)))
    as Hnn.
  { intros lo hi. apply trapezoid_nonneg;
      [now apply filter_ascending | now apply filter_nonneg]. }
  destruct (Qlt_le_dec b a) as [Hempty | Hab].
  - (* an empty band selects nothing *)
    rewrite (restrict_empty_band a b _ Hempty). apply Hnn.
  - destruct (trapezoid_split a' a b' (Spec.bins psd freqs)) as [H1 _];
      [lra | lra | assumption | assumption |].
    destruct (trapezoid_split a b b' (Spec.bins psd freqs)) as [H2 _];
      [lra | lra | assumption | assumption |].
    pose proof (Hnn a' a). pose proof (Hnn b b'). lra.
Qed.

Lemma band_power_monotone_in_band_witness :
  exists r r',
    band_power [4; 6; 8; 2] [1; 2; 3; 4] 2 3 = Some r
    /\ band_power [4; 6; 8; 2] [1; 2; 3; 4] 1 4 = Some r'
    /\ r <= r'.
Proof.
  apply band_power_monotone_in_band;
    [reflexivity | cbn; repeat split; lra | repeat constructor; lra
    | lra | lra].
Defined.

(** X3. The integrator returns exactly when the two arrays have the same
    length; otherwise the boolean mask does not fit the PSD array and the
    indexing raises, whatever the band. *)
Theorem band_power_returns_iff_same_length (psd freqs : list Q)
    (fmin fmax : Q) :
  is_Some (band_power psd freqs fmin fmax) <-> length psd = length freqs.
Proof.
  split.
  - intros [r Hr].
    destruct (Nat.eq_dec (length psd) (length freqs)) as [Heq | Hne];
      [exact Heq |].
    rewrite (band_power_raises _ _ _ _ Hne) in Hr. discriminate.
  - intros Hlen. rewrite (band_power_eq _ _ _ _ Hlen). eauto.
Qed.

Lemma band_power_returns_iff_same_length_witness :
  is_Some (band_power [4; 6; 8; 2] [1; 2; 3; 4] 2 3)
  /\ band_power [4; 6; 8] [1; 2; 3; 4] 2 3 = None.
Proof.
  split.
  - now apply band_power_returns_iff_same_length.
  - destruct (band_power [4; 6; 8] [1; 2; 3; 4] 2 3) as [r |] eqn:Hr;
      [| reflexivity].
    assert (is_Some (band_power [4; 6; 8] [1; 2; 3; 4] 2 3)) as Hsome
      by (rewrite Hr; eauto).
    apply band_power_returns_iff_same_length in Hsome. discriminate.
Defined.

Section BandPowerScaling.

Lemma restrict_scaled (c a b : Q) (psd freqs : list Q) :
  Spec.restrict a b (Spec.bins (map (Qmult c) psd) freqs)
  = map (fun p => (fst p, c * snd p)) (Spec.restrict a b (Spec.bins psd freqs)).
Proof.
  unfold Spec.restrict, Spec.bins. revert psd.
  induction freqs as [| f freqs IH]; intros [| p psd]; try reflexivity.
  cbn [map combine List.filter fst].
  destruct (Spec.in_band_dec a b f); cbn [map fst snd]; now rewrite IH.
Qed.

Lemma trapezoid_scaled (c : Q) (pts : list (Q * Q)) :
  Spec.trapezoid (map (fun p => (fst p, c * snd p)) pts)
  == c * Spec.trapezoid pts.
Proof.
  induction pts as [| [x0 y0] [| [x1 y1] rest] IH].
  - cbn. ring.
  - cbn. ring.
  - change (Spec.trapezoid
              (map (fun p => (fst p, c * snd p)) ((x0, y0) :: (x1, y1) :: rest)))
      with ((x1 - x0) * (c * y0 + c * y1) / 2
            + Spec.trapezoid
                (map (fun p => (fst p, c * snd p)) ((x1, y1) :: rest))).
    rewrite IH.
    change (Spec.trapezoid ((x0, y0) :: (x1, y1) :: rest))
      with ((x1 - x0) * (y0 + y1) / 2 + Spec.trapezoid ((x1, y1) :: rest)).
    field.
Qed.

Lemma trapezoid_of_zeros (pts : list (Q * Q)) :
  Forall (fun p => snd p == 0) pts -> Spec.trapezoid pts == 0.
Proof.
  induction 1 as [| p l Hp Hl IH]; [reflexivity |].
  rewrite trapezoid_cons, IH.
  destruct l as [| q l]; [cbn; ring |].
  inversion Hl as [| ? ? Hq _]; subst.
  unfold trapezoid_gap, trapezoid_between. cbn.
  rewrite Hp, Hq. field.
Qed.

End BandPowerScaling.

(** X4. The band power is homogeneous in the PSD: scaling every PSD value
    by c (a change of amplitude unit, say) scales the band power by c.
    In particular a PSD that is zero at every bin has band power zero in
    every band. *)
Theorem band_power_scales_with_psd (psd freqs : list Q) (c fmin fmax : Q) :
  length psd = length freqs ->
  exists r r',
    band_power psd freqs fmin fmax = Some r
    /\ band_power (map (Qmult c) psd) freqs fmin fmax = Some r'
    /\ r' == c * r
    /\ (Forall (fun v => v == 0) psd -> r == 0).
Proof.
  intros Hlen.
  rewrite (band_power_eq _ _ _ _ Hlen).
  rewrite (band_power_eq (map (Qmult c) psd) freqs fmin fmax)
    by now rewrite length_map.
  eexists _, _. do 2 (split; [reflexivity |]).
  rewrite !sum_trapz_terms. split.
  - rewrite restrict_scaled. apply trapezoid_scaled.
  - intros Hzero. apply trapezoid_of_zeros.
    apply List.Forall_forall. intros [f p] Hin.
    apply restrict_In in Hin as [Hin _]. apply in_combine_r in Hin.
    rewrite List.Forall_forall in Hzero. now apply Hzero.
Qed.

Lemma band_power_scales_with_psd_witness :
  exists r r',
    band_power [4; 6; 8; 2] [1; 2; 3; 4] 2 3 = Some r
    /\ band_power [12; 18; 24; 6] [1; 2; 3; 4] 2 3 = Some r'
    /\ r' == 3 * r.
Proof.
  destruct (band_power_scales_with_psd [4; 6; 8; 2] [1; 2; 3; 4] 3 2 3 eq_refl)
    as (r & r' & Hr & Hr' & Hscale & _).
  exists r, r'. split; [exact Hr |]. split; [| exact Hscale].
  rewrite <- Hr'. vm_compute. reflexivity.
Defined.

(** ** Image names *)

Section Names.

Lemma append_length (s t : string) :
  String.length (s ++ t) = (String.length s + String.length t)%nat.
Proof.
  induction s as [| c s IH]; [reflexivity |].
  change (S (String.length (s ++ t)) = S (String.length s + String.length t)).
  now rewrite IH.
Qed.

Lemma append_inv_tail (s1 s2 t : string) :
  (s1 ++ t = s2 ++ t)%string -> s1 = s2.
Proof.
  revert s2. induction s1 as [| a s1 IH]; intros [| b s2] Heq.
  - reflexivity.
  - apply (f_equal String.length) in Heq.
    rewrite !append_length in Heq. cbn [String.length] in Heq. lia.
  - apply (f_equal String.length) in Heq.
    rewrite !append_length in Heq. cbn [String.length] in Heq. lia.
  - change (String a (s1 ++ t) = String b (s2 ++ t))%string in Heq.
    injection Heq as -> Heq. f_equal. now apply IH.
Qed.

Lemma str_of_nat_inj (i j : nat) : py.str_of_nat i = py.str_of_nat j -> i = j.
Proof.
  unfold py.str_of_nat. intros Heq.
  apply (f_equal NilEmpty.uint_of_string) in Heq.
  rewrite !NilEmpty.usu in Heq. injection Heq as Heq.
  apply (f_equal Nat.of_uint) in Heq.
  now rewrite !DecimalNat.Unsigned.of_to in Heq.
Qed.

Lemma str_of_int_inj (x y : Z) : py.str_of_int x = py.str_of_int y -> x = y.
Proof.
  unfold py.str_of_int. intros Heq.
  apply (f_equal NilEmpty.int_of_string) in Heq.
  rewrite !NilEmpty.isi in Heq. injection Heq as Heq.
  apply (f_equal Z.of_int) in Heq.
  now rewrite !DecimalZ.of_to in Heq.
Qed.

Lemma time_plot_name_inj (i j : nat) :
  static_path (time_plot_name i) = static_path (time_plot_name j) -> i = j.
Proof.
  intros Heq. cbn in Heq. injection Heq as Heq.
  change (py.str_of_nat i ++ ".png" = py.str_of_nat j ++ ".png")%string in Heq.
  now apply append_inv_tail, str_of_nat_inj in Heq.
Qed.

Lemma psd_plot_name_inj (i j : nat) :
  static_path (psd_plot_name i) = static_path (psd_plot_name j) -> i = j.
Proof.
  intros Heq. cbn in Heq. injection Heq as Heq.
  change (py.str_of_nat i ++ ".png" = py.str_of_nat j ++ ".png")%string in Heq.
  now apply append_inv_tail, str_of_nat_inj in Heq.
Qed.

Lemma time_not_psd (i j : nat) :
  static_path (time_plot_name i) <> static_path (psd_plot_name j).
Proof. discriminate. Qed.

End Names.

(** X5. The images of one request never overwrite one another: the time
    plots of two file indices share a path only if the indices are equal,
    likewise the PSD plots, and likewise the aggregate plots of two clock
    values; a time plot, a PSD plot and an aggregate plot never share a
    path; and all of them lie under the static directory. *)
Theorem image_paths_distinct :
  (forall i j,
      static_path (time_plot_name i) = static_path (time_plot_name j) -> i = j)
  /\ (forall i j,
        static_path (psd_plot_name i) = static_path (psd_plot_name j) -> i = j)
  /\ (forall s t,
        static_path (average_name s) = static_path (average_name t) -> s = t)
  /\ (forall i j t,
        static_path (time_plot_name i) <> static_path (psd_plot_name j)
        /\ static_path (time_plot_name i) <> static_path (average_name t)
        /\ static_path (psd_plot_name j) <> static_path (average_name t))
  /\ (forall i t,
        under_static (static_path (time_plot_name i)) = true
        /\ under_static (static_path (psd_plot_name i)) = true
        /\ under_static (static_path (average_name t)) = true).
Proof.
  split; [exact time_plot_name_inj |].
  split; [exact psd_plot_name_inj |].
  split.
  { intros s t Heq. cbn in Heq. injection Heq as Heq.
    change (py.str_of_int s ++ ".png" = py.str_of_int t ++ ".png")%string
      in Heq.
    now apply append_inv_tail, str_of_int_inj in Heq. }
  split; [intros i j t; repeat split; discriminate |].
  intros i t. repeat split; reflexivity.
Qed.

Lemma image_paths_distinct_witness :
  static_path (time_plot_name 10) <> static_path (time_plot_name 1)
  /\ static_path (average_name 1700000000)
     <> static_path (average_name 1700000001).
Proof.
  destruct image_paths_distinct as (Htime & _ & Havg & _).
  split; intros Heq; [apply Htime in Heq | apply Havg in Heq]; discriminate.
Defined.

(** ** The per-file pipeline: what it needs and what it leaves behind *)

Section PerFileEffects.

Context `{L : Libs}.

Lemma process_file_load_fails filepath timescale idx w :
  load w filepath = None ->
  process_file filepath timescale idx w = (w, None).
Proof. intros Hload. unfold process_file. now rewrite bind_load, Hload. Qed.

(** Everything a returning run of the per-file pipeline did. *)
Lemma process_file_saved filepath timescale idx w w' s :
  process_file filepath timescale idx w = (w', Some s) ->
  exists raw fig psd_fig,
    load w filepath = Some raw
    /\ (0 < mne.n_times raw)%nat
    /\ w' = {| fs := <[static_path (psd_plot_name idx) := Image psd_fig]>
                       (<[static_path (time_plot_name idx) := Image fig]>
                          (fs w));
               clock := clock w |}
    /\ title fig = ("EEG Signal – " ++ os_path.basename filepath)%string
    /\ xlim fig = Some (0, timescale)
    /\ log_y psd_fig = true
    /\ Summary.filename s = os_path.basename filepath
    /\ Summary.channels s = length (mne.ch_names raw)
    /\ Summary.time_plot s = time_plot_name idx
    /\ Summary.psd_plot s = psd_plot_name idx.
Proof.
  unfold process_file. rewrite bind_load.
  destruct (load w filepath) as [raw |]; [| discriminate].
  rewrite bind_lift.
  destruct (mne.get_data raw (firstn 6 (mne.ch_names raw))) as [data |];
    [| discriminate].
  cbv zeta. rewrite bind_lift.
  destruct (plot_channels _ _ _ _) as [plotted |]; [| discriminate].
  rewrite bind_run. unfold savefig at 1, write_file at 1.
  destruct (welch _ _ _) as [psd freqs].
  rewrite bind_lift.
  destruct (band_power psd freqs (1 # 2) 4); [| discriminate].
  rewrite bind_lift.
  destruct (band_power psd freqs 4 8); [| discriminate].
  rewrite bind_lift.
  destruct (band_power psd freqs 8 13); [| discriminate].
  rewrite bind_lift.
  destruct (band_power psd freqs 13 30); [| discriminate].
  rewrite bind_lift.
  destruct (band_power psd freqs 30 40); [| discriminate].
  rewrite bind_run. unfold savefig, write_file. rewrite bind_lift.
  destruct (last (mne.times raw)) as [t_end |] eqn:Hlast; [| discriminate].
  intros [= <- <-].
  exists raw. eexists _, _. split; [reflexivity |].
  split.
  { destruct (mne.n_times raw) eqn:Hn; [| lia].
    unfold mne.times, np.arange in Hlast. rewrite Hn in Hlast. discriminate. }
  split; [reflexivity |]. cbn. repeat split; reflexivity.
Qed.

(** The summary depends on the world through the file at [filepath]
    only. *)
Lemma process_file_depends filepath (t1 t2 : Q) idx w1 w2 :
  fs w1 !! filepath = fs w2 !! filepath ->
  snd (process_file filepath t1 idx w1) = snd (process_file filepath t2 idx w2).
Proof.
  intros Hfile.
  assert (load w1 filepath = load w2 filepath) as Hload
    by (unfold load; now rewrite Hfile).
  unfold process_file. rewrite !bind_load, Hload.
  destruct (load w2 filepath) as [raw |]; [| reflexivity].
  rewrite !bind_lift.
  destruct (mne.get_data raw (firstn 6 (mne.ch_names raw))) as [data |];
    [| reflexivity].
  cbv zeta. rewrite !bind_lift.
  destruct (plot_channels _ _ _ _) as [plotted |]; [| reflexivity].
  rewrite !bind_run. unfold savefig, write_file. cbn beta iota.
  destruct (welch _ _ _) as [psd freqs].
  rewrite !bind_lift.
  destruct (band_power psd freqs (1 # 2) 4); [| reflexivity].
  rewrite !bind_lift.
  destruct (band_power psd freqs 4 8); [| reflexivity].
  rewrite !bind_lift.
  destruct (band_power psd freqs 8 13); [| reflexivity].
  rewrite !bind_lift.
  destruct (band_power psd freqs 13 30); [| reflexivity].
  rewrite !bind_lift.
  destruct (band_power psd freqs 30 40); [| reflexivity].
  rewrite !bind_run. cbv beta iota. unfold lift.
  destruct (last (mne.times raw)); reflexivity.
Qed.

Lemma process_file_summarize filepath timescale idx w :
  snd (process_file filepath timescale idx w)
  = summarize filepath idx (fs w !! filepath).
Proof.
  unfold summarize. apply process_file_depends. cbn [fs].
  destruct (fs w !! filepath) as [f |].
  - now rewrite lookup_singleton_eq.
  - now rewrite lookup_empty.
Qed.

End PerFileEffects.



(** ** The handlers, file by file *)

Section HandlerRuns.

Context `{L : Libs}.

Lemma keeps_weaken (P Q : string -> Prop) {A : Type} (m : M A) :
  (forall path, P path -> Q path) -> keeps Q m -> keeps P m.
Proof.
  intros HPQ Hm w. destruct (Hm w) as [Hfs Hclock].
  split; [| exact Hclock]. intros path Hpath. now apply Hfs, HPQ.
Qed.

Lemma load_depends (w1 w2 : World) (path : string) :
  fs w1 !! path = fs w2 !! path -> load w1 path = load w2 path.
Proof. intros Hfile. unfold load. now rewrite Hfile. Qed.

(** The list comprehension of /update over the paths [l], numbered from
    [k]: it returns the summaries of the files as they were stored before
    it ran, or raises at a file that has none. *)
Lemma mapM_files (timescale : Q) (l : list string) :
  Forall is_upload l ->
  forall (k : nat) (w : World),
    match mapM (fun '(idx, fp) => process_file fp timescale idx)
               (combine (seq k (length l)) l) w with
    | (w', Some rs) =>
        length rs = length l
        /\ forall i fp s,
             l !! i = Some fp -> rs !! i = Some s ->
             summarize fp (k + i) (fs w !! fp) = Some s
    | (w', None) =>
        exists i fp,
          l !! i = Some fp /\ summarize fp (k + i) (fs w !! fp) = None
    end.
Proof.
  induction 1 as [| fp l Hfp Hl IH]; intros k w.
  - cbn. split; [reflexivity |]. intros i fp s Hi. discriminate.
  - cbn [length seq combine]. rewrite mapM_cons, bind_run.
    pose proof (process_file_summarize fp timescale k w) as Hsum.
    pose proof (process_file_keeps_uploads fp timescale k w) as [Hkeep _].
    destruct (process_file fp timescale k w) as [w1 [s |]]; cbn [fst snd] in *.
    + rewrite bind_run. specialize (IH (S k) w1).
      assert (forall fp', fp' ∈ l -> fs w1 !! fp' = fs w !! fp') as Hsame.
      { intros fp' Hin. apply Hkeep.
        rewrite List.Forall_forall in Hl. apply Hl. now apply list_elem_of_In. }
      destruct (@mapM M _ _ _ _ _ _ w1) as [w2 [rs |]].
      * destruct IH as [Hlen IH]. cbn. split; [now rewrite Hlen |].
        intros [| i] fp' s' Hi Hs; cbn in Hi, Hs.
        -- injection Hi as <-. injection Hs as <-.
           now rewrite Nat.add_0_r.
        -- rewrite <- (Hsame fp') by (eapply list_elem_of_lookup_2; exact Hi).
           replace (k + S i)%nat with (S k + i)%nat by lia.
           now apply IH.
      * destruct IH as (i & fp' & Hi & Hnone).
        exists (S i), fp'. split; [exact Hi |].
        rewrite <- (Hsame fp') by (eapply list_elem_of_lookup_2; exact Hi).
        now replace (k + S i)%nat with (S k + i)%nat by lia.
    + exists 0%nat, fp. split; [reflexivity |].
      now rewrite Nat.add_0_r.
Qed.

Lemma basename_upload_path (file : FileStorage) :
  os_path.basename (upload_path file) = os_path.basename (file_filename file).
Proof.
  unfold upload_path, os_path.join.
  destruct (file_filename file) as [| c name]; [reflexivity |].
  destruct (os_path.startswith_sep (String c name)); reflexivity.
Qed.

(** The loop of /upload over [files], numbered from [idx]. *)
Lemma upload_loop_results (timescale : Q) (files : list FileStorage) :
  forall idx results0 fps0 w w' results fps,
    upload_loop files timescale idx results0 fps0 w
    = (w', Some (results, fps)) ->
    exists new,
      results = results0 ++ new
      /\ length new = length files
      /\ forall i file s,
           files !! i = Some file -> new !! i = Some s ->
           Summary.filename s = os_path.basename (file_filename file)
           /\ Summary.time_plot s = time_plot_name (idx + i)
           /\ Summary.psd_plot s = psd_plot_name (idx + i)
           /\ summarize (upload_path file) (idx + i)
                        (Some (Uploaded (file_content file))) = Some s.
Proof.
  induction files as [| file files IH];
    intros idx results0 fps0 w w' results fps.
  - cbn. intros [= _ <- _]. exists []. rewrite app_nil_r.
    split; [reflexivity |]. split; [reflexivity |].
    intros i file s Hi. discriminate.
  - cbn [upload_loop]. cbv zeta. rewrite bind_run.
    unfold file_save at 1, write_file at 1. rewrite bind_run.
    fold (upload_path file).
    set (w0 := {| fs := <[upload_path file := Uploaded (file_content file)]>
                          (fs w);
                  clock := clock w |}).
    pose proof (process_file_summarize (upload_path file) timescale idx w0)
      as Hsum.
    destruct (process_file (upload_path file) timescale idx w0)
      as [w1 [s |]] eqn:Hrun; [| discriminate].
    cbn [snd] in Hsum. unfold w0 in Hsum. cbn [fs] in Hsum.
    rewrite lookup_insert_eq in Hsum.
    apply process_file_saved in Hrun
      as (raw & fig & psd_fig & _ & _ & _ & _ & _ & _ & Hname & _ & Htime & Hpsd).
    intros Hrest. apply IH in Hrest as (new & -> & Hlen & Hnew).
    exists (s :: new). rewrite <- app_assoc. split; [reflexivity |].
    split; [cbn; now rewrite Hlen |].
    intros [| i] file' s' Hi Hs; cbn in Hi, Hs.
    + injection Hi as Hi. injection Hs as Hs. subst file' s'.
      rewrite Nat.add_0_r, Hname, basename_upload_path. auto.
    + replace (idx + S i)%nat with (S idx + i)%nat by lia. now apply Hnew.
Qed.

(** The loop of /upload leaves alone every stored upload it does not
    itself save. *)
Lemma upload_loop_keeps (timescale : Q) (files : list FileStorage) :
  forall idx results0 fps0,
    keeps (fun path => is_upload path
                       /\ ~ In path (map upload_path files))
          (upload_loop files timescale idx results0 fps0).
Proof.
  induction files as [| file files IH]; intros idx results0 fps0.
  - apply keeps_ret.
  - cbn [upload_loop]. cbv zeta.
    apply keeps_bind.
    { apply keeps_write. intros [_ Hnot]. apply Hnot. now left. }
    intros _. apply keeps_bind.
    { eapply keeps_weaken; [| apply process_file_keeps_uploads].
      now intros path [Hup _]. }
    intros r. eapply keeps_weaken; [| apply IH].
    intros path [Hup Hnot]. split; [exact Hup |].
    intros Hin. apply Hnot. now right.
Qed.

(** After the loop of /upload over parts with pairwise distinct paths,
    every part is stored under its path. *)
Lemma upload_loop_stored (timescale : Q) (files : list FileStorage) :
  List.NoDup (map upload_path files) ->
  forall idx results0 fps0 w w' r,
    upload_loop files timescale idx results0 fps0 w = (w', r) ->
    is_Some r ->
    forall file, In file files ->
      fs w' !! upload_path file = Some (Uploaded (file_content file)).
Proof.
  induction files as [| file files IH];
    intros Hnd idx results0 fps0 w w' r Hrun Hr file' Hin; [contradiction |].
  cbn [map] in Hnd. apply List.NoDup_cons_iff in Hnd as [Hfresh Hnd].
  cbn [upload_loop] in Hrun. cbv zeta in Hrun. rewrite bind_run in Hrun.
  unfold file_save at 1, write_file at 1 in Hrun. rewrite bind_run in Hrun.
  fold (upload_path file) in Hrun.
  set (w0 := {| fs := <[upload_path file := Uploaded (file_content file)]>
                        (fs w);
                clock := clock w |}) in Hrun.
  pose proof (process_file_keeps_uploads (upload_path file) timescale idx w0)
    as [Hkeep _].
  destruct (process_file (upload_path file) timescale idx w0) as [w1 [s |]].
  2:{ injection Hrun as _ <-. destruct Hr as [? [=]]. }
  cbn [fst] in Hkeep.
  destruct Hin as [<- | Hin].
  - pose proof (upload_loop_keeps timescale files (S idx) (results0 ++ [s])
                  (fps0 ++ [upload_path file]) w1) as [Hrest _].
    rewrite Hrun in Hrest. cbn [fst] in Hrest.
    rewrite Hrest by (split; [apply upload_path_not_static | exact Hfresh]).
    rewrite Hkeep by apply upload_path_not_static.
    apply lookup_insert_eq.
  - eapply IH; eassumption.
Qed.

End HandlerRuns.

Section BatchAbort.

Context `{L : Libs} `{!LibsOk L}.

Lemma load_after_images (w : World) (p1 p2 path : string) (f1 f2 : Figure) :
  load w path = None ->
  load {| fs := <[p2 := Image f2]> (<[p1 := Image f1]> (fs w));
          clock := clock w |} path = None.
Proof.
  unfold load. cbn [fs]. intros Hload.
  destruct (decide (p2 = path)) as [-> | Hne2];
    [now rewrite lookup_insert_eq |].
  rewrite lookup_insert_ne by assumption.
  destruct (decide (p1 = path)) as [-> | Hne1];
    [now rewrite lookup_insert_eq |].
  now rewrite lookup_insert_ne.
Qed.

Lemma static_path_not_upload (name path : string) :
  under_static (static_path name) = true -> is_upload path ->
  static_path name <> path.
Proof.
  unfold is_upload. intros Hs Hu Heq. rewrite Heq in Hs. congruence.
Qed.

(** A batch whose first files [good] process and whose next file [bad]
    does not load: the comprehension raises at [bad], and has by then
    saved the images of the files before it and touched nothing else. *)
Lemma mapM_files_abort (timescale : Q) (bad : string) (rest : list string) :
  forall (good : list string) (k : nat) (w : World),
    Forall (fun p => is_upload p
                     /\ exists raw, load w p = Some raw
                                    /\ (0 < mne.n_times raw)%nat) good ->
    load w bad = None ->
    exists w',
      mapM (fun '(idx, fp) => process_file fp timescale idx)
           (combine (seq k (length (good ++ bad :: rest)))
                    (good ++ bad :: rest)) w
      = (w', None)
      /\ clock w' = clock w
      /\ (forall i p, good !! i = Some p ->
            exists fig,
              fs w' !! static_path (time_plot_name (k + i)) = Some (Image fig)
              /\ title fig = ("EEG Signal – " ++ os_path.basename p)%string)
      /\ (forall path,
            (forall i, (i < length good)%nat ->
                       path <> static_path (time_plot_name (k + i))
                       /\ path <> static_path (psd_plot_name (k + i))) ->
            fs w' !! path = fs w !! path).
Proof.
  induction good as [| p good IH]; intros k w Hgood Hbad.
  - exists w. cbn [app length seq combine]. rewrite mapM_cons, bind_run.
    rewrite (process_file_load_fails bad timescale k w Hbad).
    split; [reflexivity |]. split; [reflexivity |].
    split; [intros i p Hi; discriminate | reflexivity].
  - inversion Hgood as [| ? ? (Hup & raw & Hload & Hn) Hgood']; subst.
    destruct (process_file_run w p timescale k raw Hload Hn)
      as (fig0 & psd0 & s & Hrun & _).
    pose proof Hrun as Hsaved.
    apply process_file_saved in Hsaved
      as (raw' & fig & psd_fig & _ & _ & Hw1 & Htitle & _).
    injection Hw1 as Hfs. apply (f_equal (fun m => m)) in Hfs.
    set (w1 := {| fs := <[static_path (psd_plot_name k) := Image psd0]>
                          (<[static_path (time_plot_name k) := Image fig0]>
                             (fs w));
                  clock := clock w |}) in *.
    destruct (IH (S k) w1) as (w' & Hmap & Hclock & Himg & Hframe).
    { eapply List.Forall_impl; [| exact Hgood'].
      intros q (Hq & rawq & Hloadq & Hnq). split; [exact Hq |].
      exists rawq. split; [| exact Hnq].
      rewrite <- Hloadq. apply load_depends. unfold w1. cbn [fs].
      rewrite !lookup_insert_ne
        by (apply static_path_not_upload; [reflexivity | exact Hq]).
      reflexivity. }
    { now apply load_after_images. }
    exists w'. cbn [app length seq combine]. rewrite mapM_cons, bind_run, Hrun.
    rewrite bind_run.
    unfold w1, psd_plot_name, time_plot_name in Hmap.
    rewrite Hmap. split; [reflexivity |]. split; [exact Hclock |].
    split.
    + intros [| i] q Hi; cbn in Hi.
      * injection Hi as <-. rewrite Nat.add_0_r.
        exists fig0. split.
        -- rewrite Hframe.
           ++ unfold w1. cbn [fs].
              rewrite lookup_insert_ne by discriminate.
              apply lookup_insert_eq.
           ++ intros i _. split.
              ** intros Heq. apply time_plot_name_inj in Heq. lia.
              ** discriminate.
        -- assert (Image fig0 = Image fig) as Hfig.
           { apply (f_equal (fun m => m !! static_path (time_plot_name k)))
               in Hfs.
             rewrite !(lookup_insert_ne _ (static_path (psd_plot_name k)))
               in Hfs by discriminate.
             rewrite !lookup_insert_eq in Hfs. congruence. }
           injection Hfig as ->. exact Htitle.
      * replace (k + S i)%nat with (S k + i)%nat by lia. now apply Himg.
    + intros path Hpath. rewrite Hframe.
      * unfold w1. cbn [fs].
        destruct (Hpath 0%nat) as [Ht Hp]; [cbn; lia |].
        rewrite Nat.add_0_r in Ht, Hp.
        now rewrite !lookup_insert_ne by congruence.
      * intros i Hi. replace (S k + i)%nat with (k + S i)%nat by lia.
        apply Hpath. cbn. lia.
Qed.

End BatchAbort.

(** X7. A batch is not isolated from a bad file and is not rolled back.
    When the first files of a /update request process and the next one
    does not load, the request ends in an internal server error; the time
    plots of the files before the bad one have been saved and stay (each
    titled with its own file name); no image of a later index and no
    aggregate image is written. *)
Theorem update_aborts_without_rollback `{L : Libs} `{!LibsOk L}
    (form : UpdateForm) (w : World) (good rest : list string) (bad : string)
    (timescale : Q) :
  form_filepaths form = good ++ bad :: rest ->
  match form_timescale form with
  | None => Some 1
  | Some s => py_float s
  end = Some timescale ->
  Forall (fun p => under_static p = false
                   /\ exists raw, load w p = Some raw
                                  /\ (0 < mne.n_times raw)%nat) good ->
  load w bad = None ->
  snd (update form w) = InternalServerError
  /\ (forall i p, good !! i = Some p ->
        exists fig,
          fs (fst (update form w)) !! static_path (time_plot_name i)
          = Some (Image fig)
          /\ title fig = ("EEG Signal – " ++ os_path.basename p)%string)
  /\ (forall i, (length good <= i)%nat ->
        fs (fst (update form w)) !! static_path (time_plot_name i)
        = fs w !! static_path (time_plot_name i)
        /\ fs (fst (update form w)) !! static_path (psd_plot_name i)
           = fs w !! static_path (psd_plot_name i))
  /\ (forall path, is_average path ->
        fs (fst (update form w)) !! path = fs w !! path).
Proof.
  intros Hpaths Hts Hgood Hbad.
  destruct (mapM_files_abort timescale bad rest good 0 w Hgood Hbad)
    as (w' & Hmap & _ & Himg & Hframe).
  assert (update form w = (w', InternalServerError)) as Hupdate.
  { unfold update, respond, update_view. rewrite bind_lift, Hts.
    cbv zeta. rewrite bind_run. unfold enumerate. rewrite Hpaths.
    now rewrite Hmap. }
  rewrite Hupdate. cbn [fst snd].
  split; [reflexivity |]. split; [exact Himg |]. split.
  - intros i Hi. split; apply Hframe; intros j Hj; cbn [Nat.add]; split;
      try discriminate; intros Heq;
      [apply time_plot_name_inj in Heq | apply psd_plot_name_inj in Heq]; lia.
  - intros path [s ->]. apply Hframe. intros j _. split; discriminate.
Qed.

Lemma update_aborts_without_rollback_witness :
  let w := Toy.stored Toy.seven Toy.one_channel in
  let form := {| form_timescale := None;
                 form_filepaths := ["uploads/a.edf"; "uploads/missing.edf";
                                    "uploads/b.edf"]%string |} in
  snd (@update Toy.libs form w) = InternalServerError
  /\ (exists fig,
        fs (fst (@update Toy.libs form w)) !! "static/time_0.png"%string
        = Some (Image fig)
        /\ title fig = "EEG Signal – a.edf"%string)
  /\ fs (fst (@update Toy.libs form w)) !! "static/time_2.png"%string = None.
Proof.
  intros w form.
  destruct (@load Toy.libs w "uploads/a.edf") as [raw |] eqn:Hload;
    [| vm_compute in Hload; discriminate].
  destruct (@update_aborts_without_rollback Toy.libs toy_ok form w
              ["uploads/a.edf"%string] ["uploads/b.edf"%string]
              "uploads/missing.edf" 1)
    as (Herr & Himg & Hlater & _).
  { reflexivity. }
  { reflexivity. }
  { constructor; [| constructor]. split; [reflexivity |].
    exists raw. split; [exact Hload |].
    vm_compute in Hload. injection Hload as <-. cbn. lia. }
  { reflexivity. }
  split; [exact Herr |]. split.
  - exact (Himg 0%nat "uploads/a.edf"%string eq_refl).
  - destruct (Hlater 2%nat) as [Htime _]; [cbn; lia |].
    exact Htime.
Defined.

Section StoredUploads.

Context `{L : Libs}.

Lemma upload_view_keeps (files : list FileStorage) :
  keeps (fun path => is_upload path /\ ~ In path (map upload_path files))
        (upload_view files).
Proof.
  unfold upload_view.
  destruct files as [| first rest]; [apply keeps_ret |].
  destruct (String.eqb (file_filename first) ""); [apply keeps_ret |].
  cbv zeta.
  apply keeps_bind; [apply upload_loop_keeps |].
  intros [results fps].
  apply keeps_bind.
  { eapply keeps_weaken; [| apply average_if_many_keeps].
    now intros path [Hup _]. }
  intros avg. apply keeps_ret.
Qed.

End StoredUploads.



Section UploadPage.

Context `{L : Libs}.

(** The steps behind a rendered /upload. *)
Lemma upload_rendered_inv (files : list FileStorage) (w : World) (page : Page) :
  snd (upload files w) = Rendered page ->
  exists w1 results avg,
    upload_loop files 1 0 [] [] w
    = (w1, Some (results, map upload_path files))
    /\ average_if_many (map upload_path files) 1 w1
       = (fst (upload files w), Some avg)
    /\ page = {| results := results; filepaths := map upload_path files;
                 timescale := 1; avg_plot := avg |}.
Proof.
  unfold upload. rewrite respond_snd, respond_fst. unfold upload_view.
  destruct files as [| first rest]; [discriminate |].
  destruct (String.eqb (file_filename first) ""); [discriminate |].
  cbv zeta. rewrite bind_run.
  destruct (upload_loop (first :: rest) 1 0 [] [] w)
    as [w1 [[results fps] |]] eqn:Hloop; [| discriminate].
  pose proof (upload_loop_paths _ _ _ _ _ _ _ _ _ Hloop) as Hfps.
  cbn [app] in Hfps. fold upload_path in Hfps.
  change (map (fun f => os_path.join UPLOAD_FOLDER (file_filename f))
              (first :: rest))
    with (map upload_path (first :: rest)) in Hfps.
  subst fps. rewrite bind_run.
  destruct (average_if_many _ 1 w1) as [w2 [avg |]] eqn:Havg;
    [| discriminate].
  cbn [fst snd]. intros [= <-]. exists w1, results, avg. auto.
Qed.

End UploadPage.

(** X9. The results page of /upload lists the files in upload order with
    the default display limit 1: it has one summary and one stored path
    per uploaded part; summary i carries the base name of the i-th part's
    filename and the image names time_i.png and psd_i.png, which depend
    on the position in the request only. *)
Theorem upload_page_lists_files_in_order `{L : Libs}
    (files : list FileStorage) (w : World) (page : Page) :
  snd (upload files w) = Rendered page ->
  timescale page = 1
  /\ filepaths page = map upload_path files
  /\ length (results page) = length files
  /\ forall i file s,
       files !! i = Some file -> results page !! i = Some s ->
       Summary.filename s = os_path.basename (file_filename file)
       /\ Summary.time_plot s = time_plot_name i
       /\ Summary.psd_plot s = psd_plot_name i.
Proof.
  intros Hpage.
  apply upload_rendered_inv in Hpage as (w1 & rs & avg & Hloop & _ & ->).
  cbn [timescale filepaths results].
  apply upload_loop_results in Hloop as (new & -> & Hlen & Hnew).
  cbn [app]. split; [reflexivity |]. split; [reflexivity |].
  split; [exact Hlen |].
  intros i file s Hi Hs.
  destruct (Hnew i file s Hi Hs) as (Hname & Htime & Hpsd & _). auto.
Qed.

Lemma upload_page_lists_files_in_order_witness :
  let files := [Toy.part "x/a.edf" Toy.fast_short;
                Toy.part "b.edf" Toy.slow_long] in
  exists page s,
    snd (@upload Toy.libs files Toy.fresh) = Rendered page
    /\ filepaths page = ["uploads/x/a.edf"; "uploads/b.edf"]%string
    /\ results page !! 0%nat = Some s
    /\ Summary.filename s = "a.edf"%string
    /\ Summary.time_plot s = "time_0.png"%string.
Proof.
  intros files.
  destruct (snd (@upload Toy.libs files Toy.fresh)) as [| page |] eqn:Hresp;
    try (vm_compute in Hresp; discriminate).
  destruct (@upload_page_lists_files_in_order Toy.libs files Toy.fresh page
              Hresp) as (_ & Hpaths & Hlen & Hfiles).
  destruct (results page) as [| s rs] eqn:Hres; [discriminate |].
  exists page, s. split; [reflexivity |]. split; [exact Hpaths |].
  split; [now rewrite Hres |].
  destruct (Hfiles 0%nat (Toy.part "x/a.edf" Toy.fast_short) s eq_refl eq_refl)
    as (Hname & Htime & _).
  split; [exact Hname | exact Htime].
Defined.

Section PlainNames.

(** A plain name is stored directly under the upload directory. *)
Lemma plain_upload_path (file : FileStorage) :
  plain_name (file_filename file) = true ->
  upload_path file = ("uploads/" ++ file_filename file)%string.
Proof.
  unfold plain_name. intros Hplain.
  assert (os_path.contains_sep (file_filename file) = false) as Hsep.
  { destruct (os_path.contains_sep (file_filename file)); [| reflexivity].
    rewrite !andb_false_r in Hplain. cbn in Hplain. discriminate. }
  unfold upload_path, os_path.join.
  destruct (file_filename file) as [| c name]; [reflexivity |].
  cbn [os_path.contains_sep] in Hsep.
  apply orb_false_iff in Hsep as [Hc _].
  cbn [os_path.startswith_sep]. now rewrite Hc.
Qed.

(** Parts with pairwise distinct plain names are stored under pairwise
    distinct paths. *)
Lemma plain_upload_paths_NoDup (files : list FileStorage) :
  Forall (fun file => plain_name (file_filename file) = true) files ->
  List.NoDup (map file_filename files) ->
  List.NoDup (map upload_path files).
Proof.
  induction files as [| file files IH]; intros Hplain Hnd;
    [constructor |].
  inversion Hplain as [| ? ? Hfile Hfiles]; subst.
  cbn [map] in *. apply List.NoDup_cons_iff in Hnd as [Hfresh Hnd].
  constructor; [| now apply IH].
  intros Hin. apply Hfresh.
  apply in_map_iff in Hin as (file' & Hpath & Hin').
  apply in_map_iff. exists file'. split; [| exact Hin'].
  rewrite List.Forall_forall in Hfiles.
  rewrite (plain_upload_path file' (Hfiles file' Hin')) in Hpath.
  rewrite (plain_upload_path file Hfile) in Hpath.
  now injection Hpath.
Qed.

End PlainNames.

(** X10. /upload does not sanitise filenames: the path it saves part i
    under, and lists on the page, is uploads/ followed by the filename,
    and the filename itself, outside the upload directory, when the
    filename starts with a separator.  After a rendered upload whose
    filenames are plain names, pairwise distinct, every part is stored
    under uploads/ and its name with its own content. *)
Theorem upload_stores_parts_unsanitised `{L : Libs}
    (files : list FileStorage) (w : World) (page : Page) :
  snd (upload files w) = Rendered page ->
  (forall i file,
      files !! i = Some file ->
      exists path,
        filepaths page !! i = Some path
        /\ (os_path.startswith_sep (file_filename file) = true ->
            path = file_filename file)
        /\ (os_path.startswith_sep (file_filename file) = false ->
            path = ("uploads/" ++ file_filename file)%string))
  /\ (Forall (fun file => plain_name (file_filename file) = true) files ->
      List.NoDup (map file_filename files) ->
      forall file, In file files ->
        fs (fst (upload files w)) !! ("uploads/" ++ file_filename file)%string
        = Some (Uploaded (file_content file))).
Proof.
  intros Hpage.
  apply upload_rendered_inv in Hpage
    as (w1 & results & avg & Hloop & Havg & ->).
  cbn [filepaths]. split.
  - intros i file Hfile. exists (upload_path file).
    split; [now rewrite list_lookup_fmap, Hfile |].
    split.
    + intros Habs. unfold upload_path, os_path.join. now rewrite Habs.
    + intros Hrel. unfold upload_path, os_path.join. now rewrite Hrel.
  - intros Hplain Hnames file Hin.
    pose proof (plain_upload_paths_NoDup files Hplain Hnames) as Hnd.
    rewrite List.Forall_forall in Hplain.
    rewrite <- (plain_upload_path file (Hplain file Hin)).
    pose proof (average_if_many_keeps (map upload_path files) 1 w1)
      as [Hkeep _].
    rewrite Havg in Hkeep. cbn [fst] in Hkeep.
    rewrite Hkeep by apply upload_path_not_static.
    eapply upload_loop_stored; [exact Hnd | exact Hloop | eauto | exact Hin].
Qed.

Lemma upload_stores_parts_unsanitised_witness :
  let files := [Toy.part "a.edf" Toy.fast_short;
                Toy.part "b.edf" Toy.slow_long] in
  let absolute := [Toy.part "/tmp/a.edf" Toy.fast_short] in
  fs (fst (@upload Toy.libs files Toy.fresh)) !! "uploads/a.edf"%string
  = Some (Uploaded Toy.fast_short)
  /\ fs (fst (@upload Toy.libs files Toy.fresh)) !! "uploads/b.edf"%string
     = Some (Uploaded Toy.slow_long)
  /\ exists page,
       snd (@upload Toy.libs absolute Toy.fresh) = Rendered page
       /\ filepaths page !! 0%nat = Some "/tmp/a.edf"%string.
Proof.
  intros files absolute.
  destruct (snd (@upload Toy.libs files Toy.fresh)) as [| page |] eqn:Hresp;
    try (vm_compute in Hresp; discriminate).
  destruct (@upload_stores_parts_unsanitised Toy.libs files Toy.fresh page
              Hresp) as [_ Hstored].
  assert (Forall (fun file => plain_name (file_filename file) = true) files)
    as Hplain by (repeat constructor).
  assert (List.NoDup (map file_filename files)) as Hnd
    by (repeat constructor; cbn; intuition discriminate).
  split; [| split].
  - apply (Hstored Hplain Hnd (Toy.part "a.edf" Toy.fast_short)). now left.
  - apply (Hstored Hplain Hnd (Toy.part "b.edf" Toy.slow_long)).
    right. now left.
  - destruct (snd (@upload Toy.libs absolute Toy.fresh))
      as [| page' |] eqn:Hresp'; try (vm_compute in Hresp'; discriminate).
    exists page'. split; [reflexivity |].
    destruct (@upload_stores_parts_unsanitised Toy.libs absolute Toy.fresh
                page' Hresp') as [Hpaths _].
    destruct (Hpaths 0%nat (Toy.part "/tmp/a.edf" Toy.fast_short) eq_refl)
      as (path & Hpath & Habs & _).
    rewrite Hpath. f_equal. now apply Habs.
Defined.



(** X12. The display limit and the path list of /update.  A display limit
    that does not parse as a number aborts the request before any file is
    read or written; a rendered page shows the parsed limit, or 1 when the
    field is absent; and a request without file paths renders an empty
    page, with no aggregate plot, and changes nothing. *)
Theorem update_display_limit_and_empty_list `{L : Libs} :
  (forall form w s,
      form_timescale form = Some s -> py_float s = None ->
      update form w = (w, InternalServerError))
  /\ (forall form w page,
        snd (update form w) = Rendered page ->
        match form_timescale form with
        | None => timescale page = 1
        | Some s => py_float s = Some (timescale page)
        end)
  /\ (forall form w limit,
        form_filepaths form = [] ->
        match form_timescale form with
        | None => Some 1
        | Some s => py_float s
        end = Some limit ->
        update form w
        = (w, Rendered {| results := []; filepaths := [];
                          timescale := limit; avg_plot := None |})).
Proof.
  split; [| split].
  - intros form w s Hfield Hparse.
    unfold update, respond, update_view.
    now rewrite bind_lift, Hfield, Hparse.
  - intros form w page. unfold update. rewrite respond_snd.
    unfold update_view. rewrite bind_lift.
    destruct (form_timescale form) as [s |].
    + destruct (py_float s) as [limit |]; [| discriminate].
      cbv zeta. rewrite bind_run.
      destruct (@mapM M _ _ _ _ _ _ w) as [w1 [rs |]]; [| discriminate].
      rewrite bind_run.
      destruct (average_if_many _ limit w1) as [w2 [avg |]]; [| discriminate].
      cbn. now intros [= <-].
    + cbv zeta. rewrite bind_run.
      destruct (@mapM M _ _ _ _ _ _ w) as [w1 [rs |]]; [| discriminate].
      rewrite bind_run.
      destruct (average_if_many _ 1 w1) as [w2 [avg |]]; [| discriminate].
      cbn. now intros [= <-].
  - intros form w limit Hpaths Hlimit.
    unfold update, respond, update_view.
    rewrite bind_lift, Hlimit, Hpaths. reflexivity.
Qed.

Lemma update_display_limit_and_empty_list_witness :
  let w := Toy.stored Toy.seven Toy.one_channel in
  @update Toy.libs {| form_timescale := Some "fast"%string;
                      form_filepaths := ["uploads/a.edf"]%string |} w
  = (w, InternalServerError)
  /\ @update Toy.libs {| form_timescale := None; form_filepaths := [] |} w
     = (w, Rendered {| results := []; filepaths := [];
                       timescale := 1; avg_plot := None |}).
Proof.
  intros w.
  destruct (@update_display_limit_and_empty_list Toy.libs)
    as (Hbad & _ & Hempty).
  split.
  - now apply (Hbad _ w "fast"%string).
  - now apply Hempty.
Defined.

(** ** The order of the files in the aggregate *)

Section AverageOrder.

Lemma sum_Permutation (l l' : list Q) :
  Permutation l l' -> np.sum l == np.sum l'.
Proof.
  induction 1 as [| x l l' _ IH | x y l | l l' l'' _ IH1 _ IH2].
  - reflexivity.
  - now rewrite !sum_cons, IH.
  - rewrite !sum_cons. ring.
  - now rewrite IH1.
Qed.

Lemma fold_min_In (l : list nat) (x : nat) : In (fold_left Nat.min l x) (x :: l).
Proof.
  revert x. induction l as [| y l IH]; intros x; [now left |].
  cbn [fold_left]. destruct (IH (Nat.min x y)) as [Heq | Hin].
  - destruct (Nat.min_spec x y) as [[_ Hm] | [_ Hm]].
    + left. congruence.
    + right. left. congruence.
  - right. now right.
Qed.

Lemma py_min_In (l : list nat) (m : nat) : py.min l = Some m -> In m l.
Proof.
  destruct l as [| x l]; [discriminate |]. cbn. intros [= <-].
  apply fold_min_In.
Qed.

(** [min] of a sequence does not depend on its order. *)
Lemma py_min_Permutation (l l' : list nat) (m m' : nat) :
  Permutation l l' -> py.min l = Some m -> py.min l' = Some m' -> m = m'.
Proof.
  intros Hperm Hm Hm'.
  pose proof (py_min_le _ _ Hm) as Hle. pose proof (py_min_le _ _ Hm') as Hle'.
  rewrite List.Forall_forall in Hle, Hle'.
  apply py_min_In in Hm, Hm'.
  assert (m <= m')%nat
    by (apply Hle; eapply Permutation_in; [symmetry |]; eassumption).
  assert (m' <= m)%nat
    by (apply Hle'; eapply Permutation_in; eassumption).
  lia.
Qed.

End AverageOrder.

(** X13. The averaged samples do not depend on the order of the files
    (only the labels and the time axis follow the last file): for
    rectangular matrices with one row count, lines 92-93 return, for any
    two orders of the same matrices, averages with the same column count
    and equal entries. *)
Theorem average_data_ignores_order (arrays arrays' : list Array2) (n : nat) :
  Permutation arrays arrays' ->
  arrays <> [] ->
  Forall rectangular arrays ->
  Forall (fun a => length (rows a) = n) arrays ->
  exists avg avg',
    average_data arrays = Some avg
    /\ average_data arrays' = Some avg'
    /\ ncols avg = ncols avg'
    /\ forall c t, (c < n)%nat -> (t < ncols avg)%nat ->
         entry (rows avg) c t == entry (rows avg') c t.
Proof.
  intros Hperm Hne Hrect Hrows.
  assert (arrays' <> []) as Hne'.
  { intros ->. symmetry in Hperm. apply Permutation_nil in Hperm.
    contradiction. }
  destruct (average_data_spec arrays n Hne Hrect Hrows)
    as (avg & Havg & Hmin & _ & Hmean).
  destruct (average_data_spec arrays' n Hne')
    as (avg' & Havg' & Hmin' & _ & Hmean').
  { eapply Permutation_Forall; eassumption. }
  { eapply Permutation_Forall; eassumption. }
  assert (ncols avg = ncols avg') as Hcols.
  { eapply py_min_Permutation; [| exact Hmin | exact Hmin'].
    now apply Permutation_map. }
  exists avg, avg'. do 3 (split; [assumption |]).
  intros c t Hc Ht.
  rewrite Hmean by assumption.
  rewrite Hmean' by (try rewrite <- Hcols; assumption).
  unfold sum_entries.
  rewrite (sum_Permutation _ _
             (Permutation_map (fun a => entry (rows a) c t) Hperm)).
  now rewrite (Permutation_length Hperm).
Qed.

Lemma average_data_ignores_order_witness :
  let a := {| ncols := 3; rows := [[1; 2; 3]; [4; 5; 6]] |} in
  let b := {| ncols := 2; rows := [[10; 20]; [30; 40]] |} in
  exists avg avg',
    average_data [a; b] = Some avg
    /\ average_data [b; a] = Some avg'
    /\ ncols avg = ncols avg'
    /\ entry (rows avg) 1 1 == entry (rows avg') 1 1.
Proof.
  intros a b.
  destruct (average_data_ignores_order [a; b] [b; a] 2)
    as (avg & avg' & Havg & Havg' & Hcols & Hentries).
  { apply perm_swap. }
  { discriminate. }
  { repeat constructor. }
  { repeat constructor. }
  exists avg, avg'. do 3 (split; [assumption |]).
  apply Hentries; [lia |].
  vm_compute in Havg. injection Havg as <-. cbn. lia.
Defined.

(** ** Which array the bands are cut from *)

(** X14. The per-file pipeline unpacks the pair returned by [welch] as
    (psd, freqs), while [welch] returns the sample frequencies first and
    the power spectral density second.  So for every supported recording
    each band power of the summary is the trapezoid integral over points
    whose abscissa is a PSD value and whose ordinate is a frequency: the
    band limits select bins by PSD value, not by frequency. *)
Theorem band_powers_cut_by_psd_value `{L : Libs} `{!LibsOk L}
    (w : World) (filepath : string) (timescale : Q) (idx : nat)
    (raw : mne.Raw) :
  load w filepath = Some raw ->
  (0 < mne.n_times raw)%nat ->
  let spectrum :=
    welch (np2.mean_axis0 (plotted_data raw)) (mne.sfreq raw) 2048 in
  let frequencies := fst spectrum in
  let density := snd spectrum in
  exists w' s,
    process_file filepath timescale idx w = (w', Some s)
    /\ length (Summary.bands s) = 5%nat
    /\ forall i label lo hi v,
         BANDS !! i = Some (label, lo, hi) ->
         Summary.bands s !! i = Some (label, v) ->
         band_power frequencies density lo hi = Some v
         /\ v == Spec.trapezoid
                   (Spec.restrict lo hi (combine density frequencies)).
Proof.
  intros Hload Hn spectrum frequencies density.
  destruct (process_file_run w filepath timescale idx raw Hload Hn)
    as (fig & psd_fig & s & Hrun & _ & _ & _ & _ & _ & Hbands & _).
  pose proof (welch_shapes (np2.mean_axis0 (plotted_data raw))
                           (mne.sfreq raw) 2048) as Hshape.
  fold spectrum in Hbands, Hshape. fold frequencies density in Hshape.
  assert (bands_from frequencies density (Summary.bands s)) as Hfrom.
  { unfold frequencies, density. now destruct spectrum. }
  eexists _, s. split; [exact Hrun |].
  unfold bands_from in Hfrom.
  split; [now rewrite <- (Forall2_length _ _ _ Hfrom) |].
  intros i label lo hi v Hband Hvalue.
  pose proof (Forall2_lookup_lr _ _ _ _ _ _ Hfrom Hband Hvalue) as [_ Hv].
  split; [exact Hv |].
  rewrite (band_power_eq _ _ _ _ Hshape) in Hv. injection Hv as <-.
  apply sum_trapz_terms.
Qed.

Lemma band_powers_cut_by_psd_value_witness :
  exists w' s,
    @process_file Toy.libs "uploads/a.edf" 1 0
                  (Toy.stored Toy.seven Toy.one_channel) = (w', Some s)
    /\ length (Summary.bands s) = 5%nat.
Proof.
  destruct (@load Toy.libs (Toy.stored Toy.seven Toy.one_channel)
                  "uploads/a.edf") as [raw |] eqn:Hload;
    [| vm_compute in Hload; discriminate].
  destruct (@band_powers_cut_by_psd_value Toy.libs toy_ok
              (Toy.stored Toy.seven Toy.one_channel) "uploads/a.edf" 1 0 raw
              Hload)
    as (w' & s & Hrun & Hlen & _).
  { vm_compute in Hload. injection Hload as <-. cbn. lia. }
  now exists w', s.
Defined.

(** ** /upload and what the server held before *)

Section UploadState.

Context `{L : Libs}.

(** One turn of the loop of /upload. *)
Lemma upload_loop_cons (timescale : Q) (file : FileStorage)
    (files : list FileStorage) idx results0 fps0 w :
  upload_loop (file :: files) timescale idx results0 fps0 w
  = match process_file (upload_path file) timescale idx
            {| fs := <[upload_path file := Uploaded (file_content file)]>
                       (fs w);
               clock := clock w |} with
    | (w1, Some s) =>
        upload_loop files timescale (S idx) (results0 ++ [s])
                    (fps0 ++ [upload_path file]) w1
    | (w1, None) => (w1, None)
    end.
Proof. reflexivity. Qed.

(** The outcome of the loop of /upload is a function of the parts. *)
Lemma upload_loop_snd (timescale : Q) (files : list FileStorage) :
  forall idx results0 fps0 w,
    snd (upload_loop files timescale idx results0 fps0 w)
    = (new ← upload_summaries idx files;
       Some (results0 ++ new, fps0 ++ map upload_path files)).
Proof.
  induction files as [| file files IH]; intros idx results0 fps0 w.
  - cbn. now rewrite !app_nil_r.
  - rewrite upload_loop_cons.
    set (w0 := {| fs := <[upload_path file := Uploaded (file_content file)]>
                          (fs w);
                  clock := clock w |}).
    pose proof (process_file_summarize (upload_path file) timescale idx w0)
      as Hsum.
    unfold w0 in Hsum at 2. cbn [fs] in Hsum. rewrite lookup_insert_eq in Hsum.
    unfold upload_summaries. cbn [length seq combine].
    change (mapM ?f ((idx, file) :: ?l))
      with (y ← f (idx, file); k ← mapM f l; mret (y :: k)).
    cbv beta iota. rewrite <- Hsum.
    destruct (process_file (upload_path file) timescale idx w0)
      as [w1 [s |]]; [| reflexivity].
    cbn [snd]. rewrite IH. unfold upload_summaries.
    cbn [mbind option_bind].
    destruct (mapM _ (combine (seq (S idx) (length files)) files))
      as [new |]; [| reflexivity].
    cbn. now rewrite <- !app_assoc.
Qed.

(** After two runs of the loop that both return, the stored parts are
    the same, whatever the two servers held before. *)
Lemma upload_loop_agree (timescale : Q) (files : list FileStorage) :
  forall idx rs1 rs2 fps1 fps2 w1 w2 path,
    In path (map upload_path files) ->
    is_Some (snd (upload_loop files timescale idx rs1 fps1 w1)) ->
    is_Some (snd (upload_loop files timescale idx rs2 fps2 w2)) ->
    fs (fst (upload_loop files timescale idx rs1 fps1 w1)) !! path
    = fs (fst (upload_loop files timescale idx rs2 fps2 w2)) !! path.
Proof.
  induction files as [| file files IH];
    intros idx rs1 rs2 fps1 fps2 w1 w2 path Hin; [contradiction |].
  rewrite !upload_loop_cons.
  set (v1 := {| fs := <[upload_path file := Uploaded (file_content file)]>
                        (fs w1);
                clock := clock w1 |}).
  set (v2 := {| fs := <[upload_path file := Uploaded (file_content file)]>
                        (fs w2);
                clock := clock w2 |}).
  pose proof (process_file_keeps_uploads (upload_path file) timescale idx v1)
    as [Hkeep1 _].
  pose proof (process_file_keeps_uploads (upload_path file) timescale idx v2)
    as [Hkeep2 _].
  destruct (process_file (upload_path file) timescale idx v1) as [u1 [s1 |]];
    [| intros [? [=]]].
  destruct (process_file (upload_path file) timescale idx v2) as [u2 [s2 |]];
    [| intros _ [? [=]]].
  cbn [fst] in Hkeep1, Hkeep2. intros Hsome1 Hsome2.
  destruct (in_dec String.string_dec path (map upload_path files))
    as [Hrest | Hfresh].
  - now apply IH.
  - destruct Hin as [<- | Hin]; [| contradiction].
    pose proof (upload_loop_keeps timescale files (S idx) (rs1 ++ [s1])
                  (fps1 ++ [upload_path file]) u1) as [Hloop1 _].
    pose proof (upload_loop_keeps timescale files (S idx) (rs2 ++ [s2])
                  (fps2 ++ [upload_path file]) u2) as [Hloop2 _].
    rewrite Hloop1, Hloop2
      by (split; [apply upload_path_not_static | exact Hfresh]).
    rewrite Hkeep1, Hkeep2 by apply upload_path_not_static.
    unfold v1, v2. cbn [fs]. now rewrite !lookup_insert_eq.
Qed.

(** The loading loop of the aggregate pipeline reads the files at its
    paths and nothing else, and writes nothing. *)
Lemma load_all_depends (paths : list string) :
  forall all_data ch_names sfreq w1 w2,
    (forall p, In p paths -> fs w1 !! p = fs w2 !! p) ->
    snd (load_all paths all_data ch_names sfreq w1)
    = snd (load_all paths all_data ch_names sfreq w2).
Proof.
  induction paths as [| fp paths IH]; intros all_data ch_names sfreq w1 w2 Hsame;
    [reflexivity |].
  cbn [load_all]. rewrite !bind_load.
  rewrite (load_depends w1 w2 fp) by (apply Hsame; now left).
  destruct (load w2 fp) as [raw |]; [| reflexivity].
  rewrite !bind_lift.
  destruct (mne.get_data raw (firstn 6 (mne.ch_names raw))) as [d |];
    [| reflexivity].
  apply IH. intros p Hp. apply Hsame. now right.
Qed.

Lemma process_average_depends (paths : list string) (t : Q) (w1 w2 : World) :
  (forall p, In p paths -> fs w1 !! p = fs w2 !! p) ->
  is_Some (snd (process_average paths t w1))
  <-> is_Some (snd (process_average paths t w2)).
Proof.
  intros Hsame. unfold process_average. rewrite !bind_run.
  pose proof (load_all_depends paths [] [] 0 w1 w2 Hsame) as Hload.
  destruct (load_all paths [] [] 0 w1) as [u1 r1].
  destruct (load_all paths [] [] 0 w2) as [u2 r2].
  cbn [snd] in Hload. subst r2.
  destruct r1 as [[[all_data ch_names] sfreq] |]; [| reflexivity].
  cbv zeta. rewrite !bind_lift.
  destruct (average_data all_data) as [avg |]; [| reflexivity].
  rewrite !bind_lift.
  destruct (plot_channels _ _ _ _) as [plotted |]; [| reflexivity].
  rewrite !bind_run. unfold time_time, savefig, write_file.
  cbv beta iota. rewrite !bind_run. cbv beta iota. cbn.
  split; eauto.
Qed.

Lemma average_if_many_depends (paths : list string) (t : Q) (w1 w2 : World) :
  (forall p, In p paths -> fs w1 !! p = fs w2 !! p) ->
  is_Some (snd (average_if_many paths t w1))
  <-> is_Some (snd (average_if_many paths t w2)).
Proof.
  intros Hsame. unfold average_if_many.
  destruct (1 <? length paths)%nat; [| cbn; split; eauto].
  rewrite !bind_run.
  pose proof (process_average_depends paths t w1 w2 Hsame) as Hdep.
  destruct (process_average paths t w1) as [x1 [n1 |]];
    destruct (process_average paths t w2) as [x2 [n2 |]];
    cbn [snd] in *; cbn; [split; eauto | | | reflexivity].
  - split; [| intros [? [=]]]. intros _.
    destruct (proj1 Hdep ltac:(eauto)) as [? [=]].
  - split; [intros [? [=]] |]. intros _.
    destruct (proj2 Hdep ltac:(eauto)) as [? [=]].
Qed.

(** The response of /upload given what its loop returned. *)
Lemma upload_view_cons (first : FileStorage) (rest : list FileStorage)
    (w : World) :
  String.eqb (file_filename first) "" = false ->
  snd (upload_view (first :: rest) w)
  = match upload_loop (first :: rest) 1 0 [] [] w with
    | (w', Some (rs, fps)) =>
        match snd (average_if_many fps 1 w') with
        | Some avg_plot =>
            Some (Rendered {| results := rs; filepaths := fps;
                              timescale := 1; avg_plot := avg_plot |})
        | None => None
        end
    | (_, None) => None
    end.
Proof.
  intros Hname. unfold upload_view. rewrite Hname. cbv zeta.
  rewrite bind_run.
  destruct (upload_loop (first :: rest) 1 0 [] [] w) as [w' [[rs fps] |]];
    [| reflexivity].
  rewrite bind_run.
  now destruct (average_if_many fps 1 w') as [w'' [avg_plot |]].
Qed.

End UploadState.

(** X15. The per-file summaries /upload shows are a function of the
    uploaded parts alone: uploading the same parts to two servers that
    hold different files and images gives the same summaries (and where
    one request fails, so does the other). *)
Theorem upload_ignores_server_state `{L : Libs}
    (files : list FileStorage) (w1 w2 : World) :
  summaries_of (snd (upload files w1)) = summaries_of (snd (upload files w2)).
Proof.
  unfold upload. rewrite !respond_snd.
  destruct files as [| first rest]; [reflexivity |].
  destruct (String.eqb (file_filename first) "") eqn:Hname.
  { unfold upload_view. now rewrite Hname. }
  rewrite !upload_view_cons by exact Hname.
  pose proof (upload_loop_snd 1 (first :: rest) 0 [] [] w1) as Hsnd1.
  pose proof (upload_loop_snd 1 (first :: rest) 0 [] [] w2) as Hsnd2.
  pose proof (upload_loop_agree 1 (first :: rest) 0 [] [] [] [] w1 w2)
    as Hagree.
  destruct (upload_loop (first :: rest) 1 0 [] [] w1) as [u1 r1].
  destruct (upload_loop (first :: rest) 1 0 [] [] w2) as [u2 r2].
  cbn [fst snd] in Hsnd1, Hsnd2, Hagree.
  assert (r2 = r1) as -> by congruence.
  destruct r1 as [[rs fps] |]; [| reflexivity].
  assert (fps = map upload_path (first :: rest)) as Hfps.
  { destruct (upload_summaries 0 (first :: rest)) as [new |];
      cbn in Hsnd1; [| discriminate].
    now injection Hsnd1 as _ ->. }
  assert (forall p, In p fps -> fs u1 !! p = fs u2 !! p) as Hsame.
  { intros p Hp. rewrite Hfps in Hp. apply Hagree; eauto. }
  pose proof (average_if_many_depends fps 1 u1 u2 Hsame) as [H12 H21].
  destruct (snd (average_if_many fps 1 u1)) as [a1 |];
    destruct (snd (average_if_many fps 1 u2)) as [a2 |]; try reflexivity.
  - destruct (H12 ltac:(eauto)) as [? [=]].
  - destruct (H21 ltac:(eauto)) as [? [=]].
Qed.

Lemma upload_ignores_server_state_witness :
  let files := [Toy.part "a.edf" Toy.fast_short;
                Toy.part "b.edf" Toy.slow_long] in
  summaries_of (snd (@upload Toy.libs files Toy.fresh))
  = summaries_of (snd (@upload Toy.libs files
                         (Toy.stored Toy.seven Toy.one_channel)))
  /\ is_Some (summaries_of (snd (@upload Toy.libs files Toy.fresh))).
Proof.
  intros files. split.
  - apply (@upload_ignores_server_state Toy.libs).
  - vm_compute. eexists. reflexivity.
Defined.
